(** * Compressed trie (radix tree) of [radix_tree.c]

    A shallow embedding of the C module: nodes live in a heap addressed by
    pointers, every function of the module is a function on that heap, and
    the properties of the module are proved about those functions. *)

From Stdlib Require Import ZArith Lia Ascii String.
From stdpp Require Import base option list gmap.

Local Open Scope Z_scope.
Local Open Scope nat_scope.

(** ** Results of running C code *)

(** A run either returns, or goes wrong: undefined behaviour (a NULL or
    dangling pointer dereferenced, an array indexed out of bounds, a value
    read that was never returned), a failed [assert], or, in the model only,
    a loop that outlives its fuel. *)
Inductive error := UB | AssertFail | OutOfFuel.

Inductive result (A : Type) : Type :=
| Ok (a : A)
| Err (e : error).
Arguments Ok {A} a.
Arguments Err {A} e.

Definition bindR {A B} (r : result A) (k : A -> result B) : result B :=
  match r with
  | Ok a => k a
  | Err e => Err e
  end.

Notation "'let*' x := r 'in' k" := (bindR r (fun x => k))
  (at level 10, x pattern, r at level 100, k at level 200).

Definition assertR (b : bool) : result unit :=
  if b then Ok tt else Err AssertFail.

(** ** Data model *)

(** Addresses of tree nodes, and opaque payload pointers ([void *]). *)
Definition addr := positive.
Definition ptr := positive.

(** [struct RadixTreeNode].  A nullable pointer is an [option]; a label
    buffer is modelled by the characters before its terminating NUL. *)
Record RadixTreeNode := mkNode {
  data : option ptr;
  txt : option (list ascii);
  father : option addr;
  sons : list (option addr);
  foldI : nat
}.

Definition set_data (d : option ptr) (n : RadixTreeNode) :=
  mkNode d (txt n) (father n) (sons n) (foldI n).
Definition set_txt (t : option (list ascii)) (n : RadixTreeNode) :=
  mkNode (data n) t (father n) (sons n) (foldI n).
Definition set_father (f : option addr) (n : RadixTreeNode) :=
  mkNode (data n) (txt n) f (sons n) (foldI n).
Definition set_sons (l : list (option addr)) (n : RadixTreeNode) :=
  mkNode (data n) (txt n) (father n) l (foldI n).
Definition set_foldI (i : nat) (n : RadixTreeNode) :=
  mkNode (data n) (txt n) (father n) (sons n) i.

(** Result codes of [radix_tree.h]. *)
Inductive find_status := RADIX_TREE_FOUND | RADIX_TREE_SUBSTR | RADIX_TREE_NOT_FOUND.
Inductive op_status := RADIX_TREE_OPERATION_SUCCESS | RADIX_TREE_OPERATION_FAIL.

(** What a run leaves behind besides the heap: calls of the finalizer and
    calls of [free] on a node, in the order they happen. *)
Inductive event :=
| EvFinalize (d : ptr)
| EvFree (a : addr).

(** The heap of nodes, the answers [malloc] is going to give ([false] is a
    NULL result; an exhausted list always succeeds), and the trace. *)
Record state := mkState {
  heap : gmap addr RadixTreeNode;
  oracle : list bool;
  trace : list event
}.

Definition set_heap (h : gmap addr RadixTreeNode) (s : state) :=
  mkState h (oracle s) (trace s).

(** ** The state monad of the mutating functions *)

Definition M (A : Type) : Type := state -> result (A * state).

Definition ret {A} (a : A) : M A := fun s => Ok (a, s).
Definition bind {A B} (m : M A) (k : A -> M B) : M B :=
  fun s => match m s with
           | Ok (a, s') => k a s'
           | Err e => Err e
           end.
Definition fail {A} (e : error) : M A := fun _ => Err e.

Notation "x <- m ;; k" := (bind m (fun x => k))
  (at level 100, m at next level, right associativity).
Notation "m ;;; k" := (bind m (fun _ => k))
  (at level 100, right associativity).

(** Run a read-only computation on the current heap. *)
Definition rd {A} (f : gmap addr RadixTreeNode -> result A) : M A :=
  fun s => match f (heap s) with
           | Ok a => Ok (a, s)
           | Err e => Err e
           end.

Definition lift {A} (r : result A) : M A := rd (fun _ => r).

(** Dereference of a node pointer. *)
Definition load (h : gmap addr RadixTreeNode) (a : addr) : result RadixTreeNode :=
  match h !! a with
  | Some n => Ok n
  | None => Err UB
  end.

Definition nonnull {A} (p : option A) : result A :=
  match p with
  | Some a => Ok a
  | None => Err UB
  end.

(** A write through a node pointer. *)
Definition update (a : addr) (f : RadixTreeNode -> RadixTreeNode) : M unit :=
  fun s => match heap s !! a with
           | Some n => Ok (tt, set_heap (<[a := f n]> (heap s)) s)
           | None => Err UB
           end.

Definition emit (e : event) : M unit :=
  fun s => Ok (tt, mkState (heap s) (oracle s) (trace s ++ [e])).

(** [malloc]: the next answer of the oracle. *)
Definition malloc_ok : M bool :=
  fun s => match oracle s with
           | [] => Ok (true, s)
           | b :: o => Ok (b, mkState (heap s) o (trace s))
           end.

(** [free] of a node. *)
Definition free_node (a : addr) : M unit :=
  fun s => match heap s !! a with
           | Some _ => Ok (tt, mkState (delete a (heap s)) (oracle s) (trace s ++ [EvFree a]))
           | None => Err UB
           end.

(** Characters.  [first_char] is [*t] for a C string [t]: the terminating
    NUL when the string is empty. *)
Definition first_char (t : list ascii) : ascii :=
  match t with
  | [] => zero
  | c :: _ => c
  end.

(** The state a run ends in. *)
Definition empty_state : state := mkState ∅ [] [].

Definition state_of {A} (r : result (A * state)) : state :=
  match r with
  | Ok (_, s) => s
  | Err _ => empty_state
  end.

(** The instance the properties are run at: ten slots, the characters ['0']
    to ['9'], and a root text that is not a string of digits. *)
Definition digits : nat := 10.
Definition root_txt : list ascii := list_ascii_of_string "r".
Definition key (s : string) : list ascii := list_ascii_of_string s.

Section RadixTree.

(** The two constants of [radix_tree.h], which is not part of the sources:
    RADIX_TREE_NUMBER_OF_SONS, the size of the [sons] array, and
    RADIX_TREE_ROOT_TXT, the text the root carries instead of a label. They
    are parameters of everything below. *)
Variable RADIX_TREE_NUMBER_OF_SONS : nat.
Variable RADIX_TREE_ROOT_TXT : list ascii.

(** Modelled from the spec: [stringEnd] of the missing [stdfunc.h] returns
    the position of the terminating NUL of a string, so that the root
    contributes nothing to a match. A position inside a string is its
    offset from the start. *)
Definition stringEnd (t : list ascii) : nat := length t.

(** Modelled from the spec: [copyText src dst n] of the missing [stdfunc.h]
    copies [n] characters and terminates them, so that a split yields the
    prefix and the remainder of a label and a merge their concatenation. *)
Definition copyText (src : list ascii) (n : nat) : list ascii := take n src.

Definition radixTreeIsRoot (h : gmap addr RadixTreeNode) (node : addr) : result bool :=
  let* n := load h node in
  Ok (match txt n with
      | Some t => bool_decide (t = RADIX_TREE_ROOT_TXT)
      | None => false
      end).

Definition radixTreeInitNode (n : RadixTreeNode) : RadixTreeNode :=
  mkNode None None None (replicate RADIX_TREE_NUMBER_OF_SONS None) (foldI n).

(** Memory fresh from [malloc]; every field is written before it is read. *)
Definition raw_node : RadixTreeNode := mkNode None None None [] 0.

Definition alloc_node : M (option addr) :=
  b <- malloc_ok ;;
  if b then
    fun s => let a := fresh (dom (heap s)) in
             Ok (Some a, set_heap (<[a := raw_node]> (heap s)) s)
  else ret None.

Definition radixTreeFreeNode (node : addr) : M unit :=
  r <- rd (fun h => radixTreeIsRoot h node) ;;
  (if negb r then
     n <- rd (fun h => load h node) ;;
     lift (assertR (bool_decide (data n = None))) ;;;
     match txt n with
     | Some _ => update node (set_txt None)
     | None => ret tt
     end
   else ret tt) ;;;
  free_node node.

Definition radixTreeInitTree (n : RadixTreeNode) : RadixTreeNode :=
  set_txt (Some RADIX_TREE_ROOT_TXT) (radixTreeInitNode n).

Definition radixTreeCreateNode : M (option addr) :=
  result <- alloc_node ;;
  match result with
  | None => ret None
  | Some a => update a radixTreeInitNode ;;; ret (Some a)
  end.

Definition radixTreeCreate : M (option addr) :=
  result <- alloc_node ;;
  match result with
  | None => ret None
  | Some a => update a radixTreeInitTree ;;; ret (Some a)
  end.

(** [sonId - '0'] on the character codes, ['0'] being 48; the result is
    negative below ['0']. *)
Definition radixTreeConvertCharToNumber (sonId : ascii) : Z :=
  (Z.of_nat (nat_of_ascii sonId) - 48)%Z.

(** [node->sons[i]]: undefined outside the array. *)
Definition son_at (n : RadixTreeNode) (i : Z) : result (option addr) :=
  if (i <? 0)%Z then Err UB
  else match sons n !! Z.to_nat i with
       | Some o => Ok o
       | None => Err UB
       end.

Definition set_son_at (i : Z) (ch : option addr) (n : RadixTreeNode) : result RadixTreeNode :=
  if (i <? 0)%Z then Err UB
  else if decide (Z.to_nat i < length (sons n))
       then Ok (set_sons (<[Z.to_nat i := ch]> (sons n)) n)
       else Err UB.

Definition radixTreeHasSon (h : gmap addr RadixTreeNode) (node : addr) (son : ascii)
  : result bool :=
  let* n := load h node in
  let* o := son_at n (radixTreeConvertCharToNumber son) in
  Ok (bool_decide (o <> None)).

Definition radixTreeHowManySons (h : gmap addr RadixTreeNode) (node : addr) : result nat :=
  let* n := load h node in
  if decide (length (sons n) = RADIX_TREE_NUMBER_OF_SONS)
  then Ok (length (filter (fun o => o <> None) (sons n)))
  else Err UB.

Definition radixTreeHasSons (h : gmap addr RadixTreeNode) (node : addr) : result bool :=
  let* k := radixTreeHowManySons h node in
  Ok (negb (k =? 0)).

Definition radixTreeIsNodeRedundant (h : gmap addr RadixTreeNode) (node : addr)
  : result bool :=
  let* r := radixTreeIsRoot h node in
  if negb r then
    let* hs := radixTreeHasSons h node in
    if negb hs then
      let* n := load h node in
      Ok (bool_decide (data n = None))
    else Ok false
  else Ok false.

Definition radixTreeCanBeMergedWithSon (h : gmap addr RadixTreeNode) (node : addr)
  : result bool :=
  let* r := radixTreeIsRoot h node in
  if negb r then
    let* k := radixTreeHowManySons h node in
    if k =? 1 then
      let* n := load h node in
      Ok (bool_decide (data n = None))
    else Ok false
  else Ok false.

Definition radixTreeMoveToSon (h : gmap addr RadixTreeNode) (p : addr) (son : ascii)
  : result (option addr) :=
  let* b := radixTreeHasSon h p son in
  let* _ := assertR b in
  let* n := load h p in
  son_at n (radixTreeConvertCharToNumber son).

Definition radixTreeChangeSon (node : option addr) (son : ascii) (ch : option addr)
  : M unit :=
  match node with
  | Some a =>
      n <- rd (fun h => load h a) ;;
      n' <- lift (set_son_at (radixTreeConvertCharToNumber son) ch n) ;;
      update a (fun _ => n')
  | None => ret tt
  end.

(** The comparing loop of [radixTreeMoveTxt]: [l] is what is left of the
    label from position [i] on. *)
Fixpoint match_txt (l t : list ascii) (i : nat) : nat * list ascii :=
  match l, t with
  | a :: l', b :: t' =>
      if bool_decide (a = b) then match_txt l' t' (S i) else (i, t)
  | _, _ => (i, t)
  end.

(** Returns the status with the new values of [*txt] and [*nodeTxtPtr]. *)
Definition radixTreeMoveTxt (h : gmap addr RadixTreeNode) (node : addr) (t : list ascii)
  : result (op_status * list ascii * nat) :=
  let* n := load h node in
  let* r := radixTreeIsRoot h node in
  let* l := nonnull (txt n) in
  let '(i, t') := if r then (stringEnd l, t) else match_txt l t 0 in
  if decide (i = length l)
  then Ok (RADIX_TREE_OPERATION_SUCCESS, t', i)
  else Ok (RADIX_TREE_OPERATION_FAIL, t', i).

(** Returns the status with the new values of [*node], [*txt] and
    [*nodeTxtPtr]. *)
Definition radixTreeMove (h : gmap addr RadixTreeNode) (node : addr) (t : list ascii)
    (nodeTxtPtr : nat) : result (op_status * addr * list ascii * nat) :=
  let* _ := assertR (bool_decide (t <> [])) in
  let* b := radixTreeHasSon h node (first_char t) in
  if negb b then Ok (RADIX_TREE_OPERATION_FAIL, node, t, nodeTxtPtr)
  else
    let* o := radixTreeMoveToSon h node (first_char t) in
    let* node' := nonnull o in
    let* (r, t', i) := radixTreeMoveTxt h node' t in
    Ok (r, node', t', i).

Fixpoint find_loop (fuel : nat) (h : gmap addr RadixTreeNode) (p : addr) (t : list ascii)
    (nodeMatchPtr : nat) : result (addr * list ascii * nat) :=
  match t with
  | [] => Ok (p, t, nodeMatchPtr)
  | _ :: _ =>
      match fuel with
      | 0 => Err OutOfFuel
      | S fuel' =>
          let* (r, p', t', i) := radixTreeMove h p t nodeMatchPtr in
          match r with
          | RADIX_TREE_OPERATION_SUCCESS => find_loop fuel' h p' t' i
          | RADIX_TREE_OPERATION_FAIL => Ok (p', t', i)
          end
      end
  end.

(** Returns the status with [*ptr], [*txtMatchPtr] (what is left of the
    key) and [*nodeMatchPtr] (a position in the label of [*ptr]). *)
Definition radixTreeFind (fuel : nat) (h : gmap addr RadixTreeNode) (tree : addr)
    (t : list ascii) : result (find_status * addr * list ascii * nat) :=
  let* n := load h tree in
  let* l := nonnull (txt n) in
  let* (p, t', i) := find_loop fuel h tree t (stringEnd l) in
  let* n' := load h p in
  let* l' := nonnull (txt n') in
  if decide (length l' < i) then Err UB
  else if bool_decide (i = length l') && bool_decide (t' = []) then
    Ok (RADIX_TREE_FOUND, p, t', i)
  else if bool_decide (t' = []) then Ok (RADIX_TREE_SUBSTR, p, t', i)
  else Ok (RADIX_TREE_NOT_FOUND, p, t', i).

(** [txt - node->txt], for a position [txt] in the buffer of the label of
    [node]: the characters, the terminating NUL and the position past it. *)
Definition radixTreeHowManyCharsOffset (h : gmap addr RadixTreeNode) (node : addr)
    (t : nat) : result nat :=
  let* n := load h node in
  let* l := nonnull (txt n) in
  if decide (length l + 1 < t) then Err UB else Ok t.

Definition radixTreeHowManyChars (h : gmap addr RadixTreeNode) (node : addr) : result nat :=
  let* n := load h node in
  let* l := nonnull (txt n) in
  Ok (length l).

(** [splitPtr] is a position in the label of [node]. *)
Definition radixTreeSplitNode (node : addr) (splitPtr : nat) : M op_status :=
  newNode <- radixTreeCreateNode ;;
  match newNode with
  | None => ret RADIX_TREE_OPERATION_FAIL
  | Some newNode =>
      n <- rd (fun h => load h node) ;;
      l <- lift (nonnull (txt n)) ;;
      if decide (length l < splitPtr) then fail UB else
      let matchingTextLength := splitPtr in
      let textLeftLength := length l - matchingTextLength in
      textA <- malloc_ok ;;
      if negb textA then
        radixTreeFreeNode newNode ;;;
        ret RADIX_TREE_OPERATION_FAIL
      else
        textB <- malloc_ok ;;
        if negb textB then
          radixTreeFreeNode newNode ;;;
          ret RADIX_TREE_OPERATION_FAIL
        else
          let textA := copyText l matchingTextLength in
          let textB := copyText (drop matchingTextLength l) textLeftLength in
          update node (set_txt (Some textB)) ;;;
          update newNode (set_txt (Some textA)) ;;;
          update newNode (set_father (father n)) ;;;
          radixTreeChangeSon (father n) (first_char textA) (Some newNode) ;;;
          update node (set_father (Some newNode)) ;;;
          radixTreeChangeSon (Some newNode) (first_char textB) (Some node) ;;;
          ret RADIX_TREE_OPERATION_SUCCESS
  end.

Definition radixTreeInsertLeaf (node : addr) (t : list ascii) : M (option addr) :=
  let textLength := length t in
  copiedText <- malloc_ok ;;
  if negb copiedText then ret None
  else
    let copiedText := copyText t textLength in
    newNode <- radixTreeCreateNode ;;
    match newNode with
    | None => ret None
    | Some newNode =>
        update newNode (set_txt (Some copiedText)) ;;;
        update newNode (set_father (Some node)) ;;;
        b <- rd (fun h => radixTreeHasSon h node (first_char copiedText)) ;;
        lift (assertR (negb b)) ;;;
        radixTreeChangeSon (Some node) (first_char copiedText) (Some newNode) ;;;
        ret (Some newNode)
    end.

(** The fuel bounds the loop of [radixTreeFind] and the depth of the
    recursion. *)
Fixpoint radixTreeInsert (fuel : nat) (tree : addr) (t : list ascii) : M (option addr) :=
  match fuel with
  | 0 => fail OutOfFuel
  | S fuel' =>
      fr <- rd (fun h => radixTreeFind fuel h tree t) ;;
      let '(findResult, insertPtr, matchPtr, nodeMatchPtr) := fr in
      match findResult with
      | RADIX_TREE_FOUND => ret (Some insertPtr)
      | RADIX_TREE_SUBSTR =>
          splitResult <- radixTreeSplitNode insertPtr nodeMatchPtr ;;
          match splitResult with
          | RADIX_TREE_OPERATION_SUCCESS =>
              n <- rd (fun h => load h insertPtr) ;;
              ret (father n)
          | RADIX_TREE_OPERATION_FAIL => ret None
          end
      | RADIX_TREE_NOT_FOUND =>
          n <- rd (fun h => load h insertPtr) ;;
          l <- lift (nonnull (txt n)) ;;
          if decide (nodeMatchPtr < length l) then
            splitResult <- radixTreeSplitNode insertPtr nodeMatchPtr ;;
            match splitResult with
            | RADIX_TREE_OPERATION_SUCCESS => radixTreeInsert fuel' tree t
            | RADIX_TREE_OPERATION_FAIL => ret None
            end
          else radixTreeInsertLeaf insertPtr matchPtr
      end
  end.

(** The finalizer is called with the payload; the call is recorded. *)
Definition finalize (pos : addr) : M unit :=
  n <- rd (fun h => load h pos) ;;
  match data n with
  | Some d => emit (EvFinalize d) ;;; update pos (set_data None)
  | None => ret tt
  end.

(** One turn of the loop of [radixTreeDeleteSubTree], from [pos] to the
    next [pos]. *)
Definition delete_step (pos : addr) : M (option addr) :=
  n <- rd (fun h => load h pos) ;;
  if decide (foldI n = RADIX_TREE_NUMBER_OF_SONS) then
    finalize pos ;;;
    l <- lift (nonnull (txt n)) ;;
    radixTreeChangeSon (father n) (first_char l) None ;;;
    radixTreeFreeNode pos ;;;
    ret (father n)
  else
    o <- lift (son_at n (Z.of_nat (foldI n))) ;;
    match o with
    | Some son =>
        update son (set_foldI 0) ;;;
        update pos (fun m => set_foldI (S (foldI m)) m) ;;;
        ret (Some son)
    | None =>
        update pos (fun m => set_foldI (S (foldI m)) m) ;;;
        ret (Some pos)
    end.

Fixpoint delete_loop (fuel : nat) (subTreeNode : addr) (pos : option addr) : M unit :=
  match fuel with
  | 0 => fail OutOfFuel
  | S fuel' =>
      p <- lift (nonnull pos) ;;
      n <- rd (fun h => load h p) ;;
      if bool_decide (p = subTreeNode)
         && bool_decide (foldI n = RADIX_TREE_NUMBER_OF_SONS)
      then ret tt
      else
        pos' <- delete_step p ;;
        delete_loop fuel' subTreeNode pos'
  end.

Definition radixTreeDeleteSubTree (fuel : nat) (subTreeNode : addr) : M unit :=
  update subTreeNode (set_foldI 0) ;;;
  delete_loop fuel subTreeNode (Some subTreeNode) ;;;
  finalize subTreeNode ;;;
  r <- rd (fun h => radixTreeIsRoot h subTreeNode) ;;
  (if negb r then
     n <- rd (fun h => load h subTreeNode) ;;
     l <- lift (nonnull (txt n)) ;;
     radixTreeChangeSon (father n) (first_char l) None
   else ret tt) ;;;
  radixTreeFreeNode subTreeNode.

Definition radixTreeDelete (fuel : nat) (tree : addr) : M unit :=
  radixTreeDeleteSubTree fuel tree.

Definition radixTreeGetNodeData (h : gmap addr RadixTreeNode) (node : addr)
  : result (option ptr) :=
  let* n := load h node in Ok (data n).

Definition radixTreeFather (h : gmap addr RadixTreeNode) (node : addr)
  : result (option addr) :=
  let* n := load h node in Ok (father n).

Definition radixTreeSetData (node : addr) (p : option ptr) : M unit :=
  update node (set_data p).

(** The first non-NULL entry of the [sons] array. *)
Definition radixTreeFristSon (h : gmap addr RadixTreeNode) (node : addr)
  : result (option addr) :=
  let* n := load h node in
  if decide (length (sons n) = RADIX_TREE_NUMBER_OF_SONS)
  then Ok (default None (head (filter (fun o => o <> None) (sons n))))
  else Err UB.

(** [radixTreeMerge] returns a value on the failing path only: when the
    allocation succeeds the body ends without a [return], and the result
    is [None]. *)
Definition radixTreeMerge (a : addr) (b : option addr) : M (option op_status) :=
  na <- rd (fun h => load h a) ;;
  la <- lift (nonnull (txt na)) ;;
  b <- lift (nonnull b) ;;
  nb <- rd (fun h => load h b) ;;
  lb <- lift (nonnull (txt nb)) ;;
  let aTextLength := length la in
  let bTextLength := length lb in
  t <- malloc_ok ;;
  if negb t then ret (Some RADIX_TREE_OPERATION_FAIL)
  else
    let t := copyText la aTextLength ++ copyText lb bTextLength in
    update b (set_txt (Some t)) ;;;
    update b (set_father (father na)) ;;;
    radixTreeChangeSon (father na) (first_char t) (Some b) ;;;
    radixTreeFreeNode a ;;;
    ret None.

Definition canSkip : nat := 5.

(** One turn of the loop of [radixTreeBalance] on the variables [pos] and
    [skipped]. Reading the result of a merge that returned none is
    undefined. *)
Definition balance_step (pos : addr) (skipped : nat) : M (option addr * nat) :=
  n <- rd (fun h => load h pos) ;;
  red <- rd (fun h => radixTreeIsNodeRedundant h pos) ;;
  if red then
    l <- lift (nonnull (txt n)) ;;
    radixTreeChangeSon (father n) (first_char l) None ;;;
    radixTreeFreeNode pos ;;;
    ret (father n, skipped)
  else
    mer <- rd (fun h => radixTreeCanBeMergedWithSon h pos) ;;
    if mer then
      son <- rd (fun h => radixTreeFristSon h pos) ;;
      mergeResult <- radixTreeMerge pos son ;;
      match mergeResult with
      | None => fail UB
      | Some RADIX_TREE_OPERATION_SUCCESS => ret (father n, skipped)
      | Some RADIX_TREE_OPERATION_FAIL => ret (father n, S skipped)
      end
    else ret (father n, S skipped).

(** The loop, returning the final values of [pos] and [skipped]. *)
Fixpoint balance_loop (fuel : nat) (pos : option addr) (skipped : nat)
  : M (option addr * nat) :=
  match fuel with
  | 0 => fail OutOfFuel
  | S fuel' =>
      p <- lift (nonnull pos) ;;
      r <- rd (fun h => radixTreeIsRoot h p) ;;
      if negb r && (skipped <=? canSkip) then
        ps <- balance_step p skipped ;;
        balance_loop fuel' (fst ps) (snd ps)
      else ret (pos, skipped)
  end.

Definition radixTreeBalance (fuel : nat) (node : addr) : M unit :=
  balance_loop fuel (Some node) 0 ;;; ret tt.

Definition radixTreeFindLite (fuel : nat) (h : gmap addr RadixTreeNode) (tree : addr)
    (t : list ascii) : result (find_status * addr) :=
  let* (r, p, unused1, unused2) := radixTreeFind fuel h tree t in
  Ok (r, p).

(** First loop of [radixGetFullText]: the length of the key. *)
Fixpoint full_length (fuel : nat) (h : gmap addr RadixTreeNode) (pos : option addr)
    (length : nat) : result nat :=
  match fuel with
  | 0 => Err OutOfFuel
  | S fuel' =>
      let* p := nonnull pos in
      let* r := radixTreeIsRoot h p in
      if r then Ok length
      else
        let* k := radixTreeHowManyChars h p in
        let* f := radixTreeFather h p in
        full_length fuel' h f (length + k)
  end.

(** [res[length + i] = t[i]] for every [i] below the length of [t]. *)
Fixpoint write_chars (res : list ascii) (length : nat) (t : list ascii) : list ascii :=
  match t with
  | [] => res
  | c :: t' => write_chars (<[length := c]> res) (S length) t'
  end.

(** Second loop: the labels are written from the end of the buffer
    backwards. *)
Fixpoint fill_text (fuel : nat) (h : gmap addr RadixTreeNode) (pos : option addr)
    (length : nat) (res : list ascii) : result (list ascii) :=
  match fuel with
  | 0 => Err OutOfFuel
  | S fuel' =>
      let* p := nonnull pos in
      let* r := radixTreeIsRoot h p in
      if r then Ok res
      else
        let* n := load h p in
        let* l := nonnull (txt n) in
        let len := List.length l in
        if decide (length < len) then Err UB
        else
          let length := length - len in
          let res := write_chars res length l in
          let* f := radixTreeFather h p in
          fill_text fuel' h f length res
  end.

(** The characters of the returned string, or [None] for a NULL result.
    The buffer starts out as [length] unwritten characters followed by the
    terminator. *)
Definition radixGetFullText (fuel : nat) (node : addr) : M (option (list ascii)) :=
  length <- rd (fun h => full_length fuel h (Some node) 0) ;;
  res <- malloc_ok ;;
  if negb res then ret None
  else
    res <- rd (fun h => fill_text fuel h (Some node) length (replicate length zero)) ;;
    ret (Some res).

(** ** Well-formed trees *)

(** The symbols a key may hold are those whose slot lies inside the [sons]
    array; a label is a non-empty sequence of them. *)
Definition valid_sym (c : ascii) : Prop :=
  (0 <= radixTreeConvertCharToNumber c < Z.of_nat RADIX_TREE_NUMBER_OF_SONS)%Z.

Definition valid_key (t : list ascii) : Prop := Forall valid_sym t.

Definition valid_label (l : list ascii) : Prop := l <> [] /\ valid_key l.

Definition slot (c : ascii) : nat := Z.to_nat (radixTreeConvertCharToNumber c).

(** [c] is the son of [p] that carries label [l]. *)
Definition edge (h : gmap addr RadixTreeNode) (p c : addr) (l : list ascii) : Prop :=
  exists n m, h !! p = Some n /\ sons n !! slot (first_char l) = Some (Some c)
              /\ h !! c = Some m /\ txt m = Some l.

(** [path h r a s]: going down from [r], the labels met on the way to [a]
    spell [s]. *)
Inductive path (h : gmap addr RadixTreeNode) (r : addr) : addr -> list ascii -> Prop :=
| path_root : path h r r []
| path_step p c s l : path h r p s -> edge h p c l -> path h r c (s ++ l).

Record wf (h : gmap addr RadixTreeNode) (r : addr) : Prop := mkWf {
  wf_root : exists n, h !! r = Some n /\ txt n = Some RADIX_TREE_ROOT_TXT
                      /\ father n = None;
  wf_len : forall a n, h !! a = Some n -> length (sons n) = RADIX_TREE_NUMBER_OF_SONS;
  wf_son : forall p n i c, h !! p = Some n -> sons n !! i = Some (Some c) ->
      exists m l, h !! c = Some m /\ txt m = Some l /\ valid_label l
                  /\ slot (first_char l) = i /\ father m = Some p;
  wf_reach : forall a, is_Some (h !! a) -> exists s, path h r a s
}.

(** Where [radixTreeFind] stops for key [K]: at the end of the label of
    [q], or inside it. *)
Definition stop_at_end (h : gmap addr RadixTreeNode) (r : addr) (K : list ascii)
    (q : addr) (t' : list ascii) (i : nat) : Prop :=
  exists n l s, h !! q = Some n /\ txt n = Some l /\ i = length l
    /\ path h r q s /\ K = s ++ t'
    /\ (t' <> [] -> sons n !! slot (first_char t') = Some None).

Definition stop_inside (h : gmap addr RadixTreeNode) (r : addr) (K : list ascii)
    (q : addr) (t' : list ascii) (i : nat) : Prop :=
  exists n l p s, h !! q = Some n /\ txt n = Some l /\ 0 < i < length l
    /\ path h r p s /\ edge h p q l /\ K = s ++ take i l ++ t'
    /\ (forall c, head t' = Some c -> l !! i <> Some c).

(** What [radixTreeFind] returns for key [K]. *)
Definition find_post (h : gmap addr RadixTreeNode) (r : addr) (K : list ascii)
    (st : find_status) (q : addr) (t' : list ascii) (i : nat) : Prop :=
  (stop_at_end h r K q t' i
   /\ st = match t' with [] => RADIX_TREE_FOUND | _ => RADIX_TREE_NOT_FOUND end)
  \/ (stop_inside h r K q t' i
      /\ st = match t' with [] => RADIX_TREE_SUBSTR | _ => RADIX_TREE_NOT_FOUND end).

(** What an insertion of [K] promises: the tree stays well formed, every
    node keeps its key, and the returned node spells [K]. *)
Definition insert_post (h : gmap addr RadixTreeNode) (r : addr) (K : list ascii)
    (res : option addr) (s' : state) : Prop :=
  wf (heap s') r
  /\ (forall a u, path h r a u -> path (heap s') r a u)
  /\ (forall n, res = Some n -> path (heap s') r n K).

(** The trees built by insertions: run the insertions of the keys [ks] one
    after the other, collecting what each returns. *)
Fixpoint insert_all (fuel : nat) (tree : addr) (ks : list (list ascii))
  : M (list (list ascii * option addr)) :=
  match ks with
  | [] => ret []
  | k :: ks' =>
      a <- radixTreeInsert fuel tree k ;;
      rest <- insert_all fuel tree ks' ;;
      ret ((k, a) :: rest)
  end.

(** The nodes of a subtree in post-order: the subtrees of the sons, slot by
    slot, then the node. A son counts when its [father] field points back
    and its label belongs to the slot it sits in; the result is [None] when
    the heap below [a] is not such a tree of depth below [fuel]. *)
Fixpoint sons_nodes (rec : addr -> option (list addr)) (h : gmap addr RadixTreeNode)
    (a : addr) (i : nat) (l : list (option addr)) : option (list addr) :=
  match l with
  | [] => Some []
  | None :: rest => sons_nodes rec h a (S i) rest
  | Some c :: rest =>
      match h !! c with
      | Some m =>
          match txt m with
          | Some lbl =>
              if decide (father m = Some a
                         /\ radixTreeConvertCharToNumber (first_char lbl) = Z.of_nat i)
              then match rec c, sons_nodes rec h a (S i) rest with
                   | Some lc, Some ls => Some (lc ++ ls)
                   | _, _ => None
                   end
              else None
          | None => None
          end
      | None => None
      end
  end.

Fixpoint subtree_nodes (fuel : nat) (h : gmap addr RadixTreeNode) (a : addr)
  : option (list addr) :=
  match fuel with
  | 0 => None
  | S fuel' =>
      match h !! a with
      | Some n =>
          if decide (length (sons n) = RADIX_TREE_NUMBER_OF_SONS)
          then match sons_nodes (subtree_nodes fuel' h) h a 0 (sons n) with
               | Some ls => Some (ls ++ [a])
               | None => None
               end
          else None
      | None => None
      end
  end.

(** What the teardown of one node leaves in the trace, and of a list of
    nodes in that order. *)
Definition fin_events (n : RadixTreeNode) : list event :=
  match data n with
  | Some d => [EvFinalize d]
  | None => []
  end.

Definition node_events (h : gmap addr RadixTreeNode) (a : addr) : list event :=
  match h !! a with
  | Some n => fin_events n ++ [EvFree a]
  | None => []
  end.

Definition events (h : gmap addr RadixTreeNode) (l : list addr) : list event :=
  flat_map (node_events h) l.

(** The payloads handed to the finalizer in a trace, and the payload of a
    node of the heap. *)
Definition finalized (tr : list event) : list ptr :=
  omap (fun e => match e with EvFinalize d => Some d | EvFree _ => None end) tr.

Definition payload (h : gmap addr RadixTreeNode) (a : addr) : option ptr :=
  match h !! a with
  | Some n => data n
  | None => None
  end.

(** Whether the next [k] calls of [malloc] all succeed. *)
Fixpoint mallocs_ok (k : nat) (o : list bool) : bool :=
  match k with
  | 0 => true
  | S k' => hd true o && mallocs_ok k' (tail o)
  end.

(** [h'] is [h] with the nodes [new] added: the nodes of [h] are still
    allocated and carry the payload they had, and the nodes of [new] are
    the only new ones and carry none. *)
Definition extends (h h' : gmap addr RadixTreeNode) (new : list addr) : Prop :=
  NoDup new
  /\ (forall a n, h !! a = Some n -> exists n', h' !! a = Some n' /\ data n' = data n)
  /\ (forall a, a ∈ new -> h !! a = None /\ exists n', h' !! a = Some n' /\ data n' = None)
  /\ (forall a, h !! a = None -> a ∉ new -> h' !! a = None).



(** The number of allocations that the insertion of [t] asks for, by the
    case of [radixTreeInsert] that the lookup leads to: none when the key is
    there, three for a split (the node and the two labels), two for a leaf
    (the label and the node), five for a split followed by a leaf. *)
Definition allocations (fuel : nat) (h : gmap addr RadixTreeNode) (tree : addr)
    (t : list ascii) : nat :=
  match radixTreeFind fuel h tree t with
  | Ok (RADIX_TREE_FOUND, _, _, _) => 0
  | Ok (RADIX_TREE_SUBSTR, _, _, _) => 3
  | Ok (RADIX_TREE_NOT_FOUND, q, _, i) =>
      match radixTreeHowManyChars h q with
      | Ok k => if decide (i < k) then 5 else 2
      | Err _ => 0
      end
  | Err _ => 0
  end.





(** The fields of a node that the shape of the tree is made of. *)
Definition shape (n : RadixTreeNode) := (data n, txt n, father n, sons n).

(** [h2] is [h] without the nodes [ls] and with [n2] at [a]. *)
Definition heap_after (h : gmap addr RadixTreeNode) (a : addr) (n2 : RadixTreeNode)
    (ls : list addr) (h2 : gmap addr RadixTreeNode) : Prop :=
  h2 !! a = Some n2
  /\ (forall x, x ∈ ls -> h2 !! x = None)
  /\ (forall x, x <> a -> x ∉ ls -> h2 !! x = h !! x).

(** ** Sample trees *)

Definition node_at (s : state) (a : addr) : RadixTreeNode :=
  default raw_node (heap s !! a).

Definition fresh_tree : state := state_of (radixTreeCreate empty_state).

(** The tree that the insertion of the keys [ks] builds; its root is the
    first node allocated. *)
Definition built (fuel : nat) (ks : list (list ascii)) : state :=
  state_of (insert_all fuel 1%positive ks fresh_tree).

(** The keys 12 and 13, and the same tree with a payload on the node of 12. *)
Definition tree_12_13 : state := built 10 [key "12"; key "13"].

Definition tree_12_13_payload : state :=
  state_of (radixTreeSetData 2%positive (Some 7%positive) tree_12_13).

(** The key 123 alone, and the keys 12 and 123, the second as a leaf below
    the first. *)
Definition tree_123 : state := built 10 [key "123"].

Definition tree_12_123 : state := built 10 [key "12"; key "123"].

(** The state of the tree of 12 and 13 once the node of 12, which has no
    payload and no son, has been removed by the first turn of the loop of
    [radixTreeBalance]. *)
Definition tree_13_unmerged : state :=
  state_of (balance_step 2%positive 0 tree_12_13).

(** ** Basic facts *)

(** Modelled from the spec: the value of RADIX_TREE_ROOT_TXT is set in the
    missing [radix_tree.h]; the root holds a reserved value that is never a
    valid content label, that is, never a non-empty sequence of symbols of
    the alphabet. *)
Hypothesis root_txt_reserved : ~ valid_label RADIX_TREE_ROOT_TXT.

Lemma valid_label_not_root l : valid_label l -> l <> RADIX_TREE_ROOT_TXT.
Proof. intros Hl ->. exact (root_txt_reserved Hl). Qed.

Lemma slot_lt c : valid_sym c -> slot c < RADIX_TREE_NUMBER_OF_SONS.
Proof. unfold valid_sym, slot. lia. Qed.

Lemma slot_inj c d : valid_sym c -> valid_sym d -> slot c = slot d -> c = d.
Proof.
  unfold valid_sym, slot, radixTreeConvertCharToNumber. intros Hc Hd H.
  assert (nat_of_ascii c = nat_of_ascii d) as E by lia.
  rewrite <- (ascii_nat_embedding c), <- (ascii_nat_embedding d). now rewrite E.
Qed.

Lemma son_at_slot n c :
  valid_sym c ->
  son_at n (radixTreeConvertCharToNumber c)
  = match sons n !! slot c with Some o => Ok o | None => Err UB end.
Proof.
  intros Hc. unfold son_at, slot.
  destruct (Z.ltb_spec (radixTreeConvertCharToNumber c) 0) as [H|H]; [|reflexivity].
  unfold valid_sym in Hc. lia.
Qed.

Lemma set_son_at_slot n c ch :
  valid_sym c -> length (sons n) = RADIX_TREE_NUMBER_OF_SONS ->
  set_son_at (radixTreeConvertCharToNumber c) ch n
  = Ok (set_sons (<[slot c := ch]> (sons n)) n).
Proof.
  intros Hc Hl. unfold set_son_at. fold (slot c).
  destruct (Z.ltb_spec (radixTreeConvertCharToNumber c) 0) as [H|H].
  - unfold valid_sym in Hc. lia.
  - rewrite decide_True; [reflexivity|]. rewrite Hl. now apply slot_lt.
Qed.

Lemma first_char_valid l : valid_label l -> valid_sym (first_char l).
Proof. intros [Hne Hl]. destruct l; [done|]. now inversion Hl. Qed.

Lemma first_char_app l t : l <> [] -> first_char (l ++ t) = first_char l.
Proof. now destruct l. Qed.

Lemma lookup_sons_is_Some n c :
  length (sons n) = RADIX_TREE_NUMBER_OF_SONS -> valid_sym c ->
  exists o, sons n !! slot c = Some o.
Proof.
  intros Hl Hc. apply lookup_lt_is_Some. rewrite Hl. now apply slot_lt.
Qed.

Lemma load_Some h a n : h !! a = Some n -> load h a = Ok n.
Proof. unfold load. now intros ->. Qed.

Lemma isRoot_label h a n l :
  h !! a = Some n -> txt n = Some l -> valid_label l ->
  radixTreeIsRoot h a = Ok false.
Proof.
  intros Ha Ht Hl. unfold radixTreeIsRoot. rewrite (load_Some _ _ _ Ha). simpl.
  rewrite Ht. rewrite bool_decide_false; [done|]. now apply valid_label_not_root.
Qed.

Lemma isRoot_root h r : wf h r -> radixTreeIsRoot h r = Ok true.
Proof.
  intros [(n & Hn & Ht & _) _ _ _]. unfold radixTreeIsRoot.
  rewrite (load_Some _ _ _ Hn). simpl. rewrite Ht. now rewrite bool_decide_true.
Qed.

Lemma hasSon_slot h p n c o :
  h !! p = Some n -> valid_sym c -> sons n !! slot c = Some o ->
  radixTreeHasSon h p c = Ok (bool_decide (o <> None)).
Proof.
  intros Hp Hc Ho. unfold radixTreeHasSon. rewrite (load_Some _ _ _ Hp). simpl.
  rewrite son_at_slot by done. now rewrite Ho.
Qed.

(** The comparing loop stops after the longest common prefix. *)
Lemma match_txt_spec l t k i t' :
  match_txt l t k = (i, t') ->
  exists j, i = k + j /\ j <= length l /\ t = take j l ++ t'
            /\ (j < length l -> forall c, head t' = Some c -> l !! j <> Some c).
Proof.
  revert t k. induction l as [|a l IH]; intros t k H; simpl in H.
  - inversion H; subst. exists 0. repeat split; [lia|simpl; lia|]. simpl. lia.
  - destruct t as [|b t].
    + inversion H; subst. exists 0. repeat split; [lia|simpl; lia|]. simpl. intros; discriminate.
    + case_bool_decide as Hab.
      * subst b. apply IH in H as (j & -> & Hj & -> & Hm). exists (S j).
        repeat split; [lia|simpl; lia|]. simpl. intros Hlt. apply Hm. lia.
      * inversion H; subst. exists 0. repeat split; [lia|simpl; lia|].
        simpl. intros _ c [= <-] [= ?]. done.
Qed.

Lemma match_txt_prefix l t k : match_txt l (l ++ t) k = (k + length l, t).
Proof.
  revert k. induction l as [|a l IH]; intros k; simpl.
  - f_equal. lia.
  - rewrite bool_decide_true by done. rewrite IH. f_equal. lia.
Qed.

(** ** One step of the descent *)

Lemma move_stay h p n t nodeTxtPtr :
  h !! p = Some n -> t <> [] -> valid_sym (first_char t) ->
  sons n !! slot (first_char t) = Some None ->
  radixTreeMove h p t nodeTxtPtr = Ok (RADIX_TREE_OPERATION_FAIL, p, t, nodeTxtPtr).
Proof.
  intros Hp Ht Hc Hs. unfold radixTreeMove.
  rewrite bool_decide_true by done. simpl.
  now rewrite (hasSon_slot _ _ _ _ _ Hp Hc Hs).
Qed.

Lemma move_down h p n q m l t nodeTxtPtr :
  h !! p = Some n -> t <> [] -> valid_sym (first_char t) ->
  sons n !! slot (first_char t) = Some (Some q) ->
  h !! q = Some m -> txt m = Some l -> valid_label l ->
  radixTreeMove h p t nodeTxtPtr
  = Ok (if decide ((match_txt l t 0).1 = length l)
        then RADIX_TREE_OPERATION_SUCCESS else RADIX_TREE_OPERATION_FAIL,
        q, (match_txt l t 0).2, (match_txt l t 0).1).
Proof.
  intros Hp Ht Hc Hs Hq Hl Hv. unfold radixTreeMove.
  rewrite bool_decide_true by done. simpl.
  rewrite (hasSon_slot _ _ _ _ _ Hp Hc Hs). simpl.
  unfold radixTreeMoveToSon.
  rewrite (hasSon_slot _ _ _ _ _ Hp Hc Hs). simpl.
  rewrite (load_Some _ _ _ Hp). simpl.
  rewrite son_at_slot by done. rewrite Hs. simpl.
  unfold radixTreeMoveTxt. rewrite (load_Some _ _ _ Hq). simpl.
  rewrite (isRoot_label _ _ _ _ Hq Hl Hv). simpl. rewrite Hl. simpl.
  destruct (match_txt l t 0) as [i t'] eqn:E. simpl.
  now destruct (decide (i = length l)).
Qed.

Lemma valid_key_app s t : valid_key (s ++ t) <-> valid_key s /\ valid_key t.
Proof. apply Forall_app. Qed.

Lemma edge_label h r p c l : wf h r -> edge h p c l -> valid_label l.
Proof.
  intros Hwf (n & m & Hp & Hs & Hc & Hl).
  destruct (wf_son _ _ Hwf _ _ _ _ Hp Hs) as (m' & l' & Hc' & Hl' & Hv & _).
  congruence.
Qed.

Lemma edge_father h r p c l :
  wf h r -> edge h p c l -> exists m, h !! c = Some m /\ father m = Some p.
Proof.
  intros Hwf (n & m & Hp & Hs & Hc & Hl).
  destruct (wf_son _ _ Hwf _ _ _ _ Hp Hs) as (m' & l' & Hc' & Hl' & Hv & _ & Hf).
  exists m'. split; congruence.
Qed.

Lemma path_node h r a s : wf h r -> path h r a s ->
  exists n l, h !! a = Some n /\ txt n = Some l.
Proof.
  intros Hwf Hp. destruct Hp as [|p c s l _ He].
  - destruct (wf_root _ _ Hwf) as (n & Hn & Ht & _). eauto.
  - destruct He as (n & m & _ & _ & Hc & Hl). eauto.
Qed.

Lemma path_valid h r a s : wf h r -> path h r a s -> valid_key s.
Proof.
  intros Hwf. induction 1 as [|p c s l _ IH He]; [constructor|].
  apply valid_key_app. split; [done|]. now destruct (edge_label _ _ _ _ _ Hwf He).
Qed.

Lemma find_loop_spec h r :
  wf h r ->
  forall fuel p s n lp t,
    path h r p s -> h !! p = Some n -> txt n = Some lp ->
    valid_key t -> length t < fuel ->
    exists q t' i, find_loop fuel h p t (length lp) = Ok (q, t', i)
      /\ (stop_at_end h r (s ++ t) q t' i \/ stop_inside h r (s ++ t) q t' i).
Proof.
  intros Hwf. induction fuel as [|fuel IH]; intros p s n lp t Hp Hn Hlp Ht Hfuel; [lia|].
  destruct t as [|c t0].
  { simpl. eexists _, _, _. split; [reflexivity|]. left.
    exists n, lp, s. repeat split; try done. }
  assert (valid_sym c) as Hc by (now inversion Ht).
  destruct (lookup_sons_is_Some n c (wf_len _ _ Hwf _ _ Hn) Hc) as [o Ho].
  cbn [find_loop]. destruct o as [q|].
  2:{ rewrite (move_stay _ _ _ _ _ Hn) by done. simpl.
      eexists _, _, _. split; [reflexivity|]. left.
      exists n, lp, s. repeat split; try done. }
  destruct (wf_son _ _ Hwf _ _ _ _ Hn Ho) as (m & l & Hq & Hl & Hv & Hsl & Hf).
  rewrite (move_down h p n q m l (c :: t0) (length lp)) by done.
  destruct (match_txt l (c :: t0) 0) as [i t'] eqn:E. simpl.
  destruct (match_txt_spec _ _ _ _ _ E) as (j & -> & Hj & Hdec & Hmis). simpl in *.
  assert (first_char l = c) as Hfc.
  { apply slot_inj; [now apply first_char_valid|done|done]. }
  assert (edge h p q l) as He.
  { exists n, m. rewrite Hfc. done. }
  assert (0 < j) as Hj0.
  { destruct j; [|lia]. exfalso. simpl in Hdec. subst t'.
    destruct l as [|a l]; [now destruct Hv|]. simpl in Hfc. subst a.
    apply (Hmis ltac:(simpl; lia) c); done. }
  destruct (decide (j = length l)) as [->|Hne].
  - rewrite firstn_all in Hdec.
    assert (valid_key t') as Ht'.
    { rewrite Hdec in Ht. now apply valid_key_app in Ht. }
    assert (length t' < fuel) as Hfuel'.
    { apply (f_equal length) in Hdec. rewrite length_app in Hdec. simpl in *. lia. }
    destruct (IH q (s ++ l) m l t' (path_step _ _ _ _ _ _ Hp He) Hq Hl Ht' Hfuel')
      as (q' & t'' & i' & Hrun & Hpost).
    exists q', t'', i'. split; [done|]. rewrite Hdec.
    now rewrite app_assoc.
  - eexists _, _, _. split; [reflexivity|]. right.
    exists m, l, p, s. repeat split; try done; try lia.
    + now rewrite Hdec.
    + apply Hmis. lia.
Qed.

Lemma find_spec h r fuel K :
  wf h r -> valid_key K -> length K < fuel ->
  exists st q t' i, radixTreeFind fuel h r K = Ok (st, q, t', i)
                    /\ find_post h r K st q t' i.
Proof.
  intros Hwf HK Hfuel. destruct (wf_root _ _ Hwf) as (n & Hn & Ht & _).
  destruct (find_loop_spec h r Hwf fuel r [] n _ K (path_root _ _) Hn Ht HK Hfuel)
    as (q & t' & i & Hrun & Hpost). simpl in Hpost.
  unfold radixTreeFind. rewrite (load_Some _ _ _ Hn). simpl. rewrite Ht. simpl.
  unfold stringEnd. rewrite Hrun. simpl.
  destruct Hpost as [Hend|Hin].
  - pose proof Hend as (m & l & s & Hq & Hl & -> & _).
    rewrite (load_Some _ _ _ Hq). simpl. rewrite Hl. simpl.
    rewrite decide_False by lia. rewrite bool_decide_true by done. simpl.
    destruct t' as [|c t'].
    + rewrite bool_decide_true by done. eexists _, _, _, _. split; [done|]. now left.
    + rewrite !bool_decide_false by done. eexists _, _, _, _. split; [done|]. now left.
  - pose proof Hin as (m & l & p & s & Hq & Hl & Hi & _).
    rewrite (load_Some _ _ _ Hq). simpl. rewrite Hl. simpl.
    rewrite decide_False by lia. rewrite (bool_decide_false (i = length l)) by lia. simpl.
    destruct t' as [|c t'].
    + rewrite bool_decide_true by done. eexists _, _, _, _. split; [done|]. now right.
    + rewrite !bool_decide_false by done. eexists _, _, _, _. split; [done|]. now right.
Qed.

(** Along an edge whose label starts the key, the loop descends. *)
Lemma find_loop_down h r p c l t fuel nodeMatchPtr :
  wf h r -> edge h p c l ->
  find_loop (S fuel) h p (l ++ t) nodeMatchPtr = find_loop fuel h c t (length l).
Proof.
  intros Hwf He. pose proof (edge_label _ _ _ _ _ Hwf He) as Hv.
  destruct He as (n & m & Hn & Hs & Hc & Hl).
  assert (l ++ t <> []) as Hne by (destruct Hv as [Hv _]; now destruct l).
  assert (first_char (l ++ t) = first_char l) as Hfc by (apply first_char_app, Hv).
  assert (find_loop (S fuel) h p (l ++ t) nodeMatchPtr
          = let* pat := radixTreeMove h p (l ++ t) nodeMatchPtr in
            match pat with
            | (RADIX_TREE_OPERATION_SUCCESS, p', t', i) => find_loop fuel h p' t' i
            | (RADIX_TREE_OPERATION_FAIL, p', t', i) => Ok (p', t', i)
            end) as ->.
  { destruct (l ++ t); [done|reflexivity]. }
  rewrite (move_down h p n c m l (l ++ t) nodeMatchPtr); try done.
  - rewrite (match_txt_prefix l t 0). simpl. now rewrite decide_True by done.
  - rewrite Hfc. now apply first_char_valid.
  - now rewrite Hfc.
Qed.

Lemma find_loop_path h r :
  wf h r ->
  forall p s, path h r p s ->
  forall t fuel, length (s ++ t) < fuel ->
  exists n lp nr lr fuel',
    h !! p = Some n /\ txt n = Some lp /\ h !! r = Some nr /\ txt nr = Some lr
    /\ length t < fuel'
    /\ find_loop fuel h r (s ++ t) (length lr) = find_loop fuel' h p t (length lp).
Proof.
  intros Hwf. induction 1 as [|p c s l Hp IH He]; intros t fuel Hfuel.
  - destruct (wf_root _ _ Hwf) as (n & Hn & Ht & _).
    exists n, RADIX_TREE_ROOT_TXT, n, RADIX_TREE_ROOT_TXT, fuel. simpl in *. done.
  - rewrite <- app_assoc in Hfuel.
    destruct (IH (l ++ t) fuel Hfuel)
      as (n & lp & nr & lr & fuel' & Hn & Hlp & Hr & Hlr & Hf & Hrun).
    pose proof (edge_label _ _ _ _ _ Hwf He) as [Hv _].
    destruct fuel' as [|fuel']; [lia|].
    rewrite (find_loop_down h r p c l t fuel' _ Hwf He) in Hrun.
    destruct He as (n' & m & Hn' & Hs & Hc & Hl).
    exists m, l, nr, lr, fuel'. rewrite <- app_assoc. repeat split; try done.
    rewrite length_app in Hf. destruct l; [done|]. simpl in *. lia.
Qed.

Lemma find_path h r a K fuel :
  wf h r -> path h r a K -> length K < fuel ->
  exists n l, h !! a = Some n /\ txt n = Some l
              /\ radixTreeFind fuel h r K = Ok (RADIX_TREE_FOUND, a, [], length l).
Proof.
  intros Hwf Hp Hfuel.
  destruct (find_loop_path h r Hwf a K Hp [] fuel) as
    (n & l & nr & lr & fuel' & Hn & Hl & Hr & Hlr & Hf & Hrun).
  { now rewrite app_nil_r. }
  rewrite app_nil_r in Hrun. exists n, l. repeat split; try done.
  unfold radixTreeFind. rewrite (load_Some _ _ _ Hr). simpl. rewrite Hlr. simpl.
  unfold stringEnd. rewrite Hrun. destruct fuel'; simpl;
    rewrite (load_Some _ _ _ Hn); simpl; rewrite Hl; simpl;
    rewrite decide_False by lia; now rewrite !bool_decide_true by done.
Qed.

(** ** Running the primitives *)

Local Arguments bind {A B} m k s /.
Local Arguments rd {A} f s /.
Local Arguments lift {A} r s /.
Local Arguments ret {A} a s /.
Local Arguments fail {A} e s /.
Local Arguments update a f s /.
Local Arguments emit e s /.
Local Arguments malloc_ok s /.
Local Arguments free_node a s /.
Local Arguments set_heap h s /.

Ltac msimpl :=
  cbn [bind rd lift update ret fail emit malloc_ok free_node heap oracle trace
       set_heap bindR assertR nonnull negb fst snd].

Lemma fresh_None (h : gmap addr RadixTreeNode) : h !! fresh (dom h) = None.
Proof. apply not_elem_of_dom, is_fresh. Qed.

Lemma fresh_ne (h : gmap addr RadixTreeNode) a n : h !! a = Some n -> fresh (dom h) <> a.
Proof. intros Ha E. rewrite <- E, fresh_None in Ha. done. Qed.

Lemma changeSon_run a c ch n h o tr :
  h !! a = Some n -> valid_sym c -> length (sons n) = RADIX_TREE_NUMBER_OF_SONS ->
  radixTreeChangeSon (Some a) c ch (mkState h o tr)
  = Ok (tt, mkState (<[a := set_sons (<[slot c := ch]> (sons n)) n]> h) o tr).
Proof.
  intros Ha Hc Hl. unfold radixTreeChangeSon. msimpl.
  rewrite (load_Some _ _ _ Ha). rewrite set_son_at_slot by done. msimpl.
  now rewrite Ha.
Qed.

Lemma freeNode_run a n h o tr :
  h !! a = Some n -> data n = None \/ txt n = Some RADIX_TREE_ROOT_TXT ->
  radixTreeFreeNode a (mkState h o tr)
  = Ok (tt, mkState (delete a h) o (tr ++ [EvFree a])).
Proof.
  intros Ha Hd. unfold radixTreeFreeNode, radixTreeIsRoot. msimpl.
  rewrite (load_Some _ _ _ Ha). msimpl.
  destruct (txt n) as [t|] eqn:Ht.
  - case_bool_decide as Hr; msimpl.
    + now rewrite Ha.
    + rewrite (load_Some _ _ _ Ha). msimpl.
      destruct Hd as [Hd|Hd]; [|congruence]. rewrite Hd.
      rewrite bool_decide_true by done. msimpl. rewrite Ht. msimpl.
      rewrite Ha. msimpl. rewrite lookup_insert_eq. now rewrite delete_insert_eq.
  - msimpl. rewrite (load_Some _ _ _ Ha). msimpl.
    destruct Hd as [Hd|Hd]; [|congruence]. rewrite Hd.
    rewrite bool_decide_true by done. msimpl. rewrite Ht. msimpl. now rewrite Ha.
Qed.

Lemma malloc_run h o tr :
  malloc_ok (mkState h o tr) = Ok (hd true o, mkState h (tail o) tr).
Proof. now destruct o. Qed.

Lemma createNode_run h o tr :
  radixTreeCreateNode (mkState h o tr)
  = if hd true o
    then Ok (Some (fresh (dom h)),
             mkState (<[fresh (dom h) :=
                          mkNode None None None
                            (replicate RADIX_TREE_NUMBER_OF_SONS None) 0]> h)
                     (tail o) tr)
    else Ok (None, mkState h (tail o) tr).
Proof.
  unfold radixTreeCreateNode, alloc_node.
  destruct o as [|[] o]; msimpl; try reflexivity;
    rewrite lookup_insert_eq; msimpl; now rewrite insert_insert_eq.
Qed.

(** Lookups in a heap after writes, and equality of heaps after writes. *)
Ltac hlook :=
  repeat first
    [ rewrite lookup_insert_eq
    | rewrite lookup_insert_ne by (first [assumption | congruence | done]) ].

Ltac heap_eq :=
  apply map_eq; intros ?;
  repeat (rewrite lookup_insert; case_decide; subst; try congruence; try done).

Lemma split_run h o tr q i nq lq p np :
  h !! q = Some nq -> txt nq = Some lq -> father nq = Some p ->
  h !! p = Some np -> p <> q ->
  length (sons np) = RADIX_TREE_NUMBER_OF_SONS ->
  0 < i < length lq -> valid_key lq ->
  exists st s',
    radixTreeSplitNode q i (mkState h o tr) = Ok (st, s')
    /\ st = (if mallocs_ok 3 o then RADIX_TREE_OPERATION_SUCCESS
             else RADIX_TREE_OPERATION_FAIL)
    /\ ((st = RADIX_TREE_OPERATION_FAIL /\ heap s' = h)
        \/ (st = RADIX_TREE_OPERATION_SUCCESS
            /\ heap s' =
               <[fresh (dom h) :=
                   mkNode None (Some (take i lq)) (Some p)
                     (<[slot (first_char (drop i lq)) := Some q]>
                        (replicate RADIX_TREE_NUMBER_OF_SONS None)) 0]>
               (<[q := set_father (Some (fresh (dom h)))
                         (set_txt (Some (drop i lq)) nq)]>
               (<[p := set_sons (<[slot (first_char lq) := Some (fresh (dom h))]>
                                   (sons np)) np]> h)))).
Proof.
  intros Hq Hlq Hfq Hp Hpq Hlen Hi Hv. cbn [mallocs_ok]. rewrite andb_true_r.
  pose proof (fresh_ne h q nq Hq) as HMq.
  pose proof (fresh_ne h p np Hp) as HMp.
  pose proof (fresh_None h) as HM.
  unfold radixTreeSplitNode. cbn [bind]. rewrite createNode_run.
  set (M := fresh (dom h)) in *.
  destruct (hd true o); [|eexists _, _; split; [reflexivity|split; [done|left; done]]].
  msimpl. unfold load. hlook. rewrite Hq. msimpl. rewrite Hlq. msimpl.
  rewrite decide_False by lia.
  cbn [bind]. rewrite malloc_run.
  destruct (hd true (tail o)); cbn [negb].
  2:{ cbn [bind]. erewrite freeNode_run; [|apply lookup_insert_eq|now left]. msimpl.
      eexists _, _; split; [reflexivity|]. split; [now rewrite ?andb_false_r|left].
      split; [done|]. simpl. now rewrite delete_insert_id. }
  cbn [bind]. rewrite malloc_run.
  destruct (hd true (tail (tail o))); cbn [negb].
  2:{ cbn [bind]. erewrite freeNode_run; [|apply lookup_insert_eq|now left]. msimpl.
      eexists _, _; split; [reflexivity|]. split; [now rewrite ?andb_false_r|left].
      split; [done|]. simpl. now rewrite delete_insert_id. }
  assert (valid_sym (first_char (take i lq))) as Hc1.
  { destruct lq as [|c lq]; [simpl in Hi; lia|]. destruct i; [lia|]. simpl.
    now inversion Hv. }
  assert (first_char (take i lq) = first_char lq) as Hfc.
  { destruct lq as [|c lq]; [simpl in Hi; lia|]. destruct i; [lia|]. done. }
  assert (valid_sym (first_char (drop i lq))) as Hc2.
  { apply first_char_valid. split.
    - intros E. apply (f_equal length) in E. rewrite length_drop in E. simpl in E. lia.
    - unfold valid_key in *. rewrite <- (take_drop i lq) in Hv.
      now apply Forall_app in Hv. }
  unfold copyText. rewrite (take_ge (drop i lq)) by (rewrite length_drop; lia).
  msimpl. hlook. rewrite Hq. msimpl. hlook. msimpl. hlook. msimpl.
  rewrite Hfq. cbn [bind].
  erewrite changeSon_run; [|hlook; exact Hp|done|done].
  msimpl. hlook. msimpl.
  erewrite changeSon_run; [|hlook; reflexivity|done|simpl; apply length_replicate].
  eexists _, _; split; [reflexivity|]. split; [done|right]. split; [done|]. simpl.
  rewrite Hfc. unfold set_father, set_txt, set_sons; simpl. heap_eq.
Qed.

Lemma insertLeaf_run h o tr q nq t :
  h !! q = Some nq -> length (sons nq) = RADIX_TREE_NUMBER_OF_SONS ->
  t <> [] -> valid_key t -> sons nq !! slot (first_char t) = Some None ->
  exists res s',
    radixTreeInsertLeaf q t (mkState h o tr) = Ok (res, s')
    /\ ((res = None /\ heap s' = h)
        \/ (res = Some (fresh (dom h))
            /\ heap s' =
               <[q := set_sons (<[slot (first_char t) := Some (fresh (dom h))]>
                                   (sons nq)) nq]>
               (<[fresh (dom h) :=
                    mkNode None (Some t) (Some q)
                      (replicate RADIX_TREE_NUMBER_OF_SONS None) 0]> h))).
Proof.
  intros Hq Hlen Hne Hv Hs.
  pose proof (fresh_ne h q nq Hq) as HLq.
  assert (valid_sym (first_char t)) as Hc by (now apply first_char_valid).
  unfold radixTreeInsertLeaf. cbn [bind]. rewrite malloc_run.
  destruct (hd true o); cbn [negb];
    [|eexists _, _; split; [reflexivity|left; done]].
  cbn [bind]. rewrite createNode_run. set (L := fresh (dom h)) in *.
  destruct (hd true (tail o)); [|eexists _, _; split; [reflexivity|left; done]].
  unfold copyText. rewrite firstn_all.
  msimpl. hlook. msimpl. hlook. msimpl.
  erewrite hasSon_slot; [|hlook; exact Hq|done|exact Hs]. msimpl.
  rewrite bool_decide_false by (intros H; now apply H). msimpl.
  erewrite changeSon_run; [|hlook; exact Hq|done|done].
  eexists _, _; split; [reflexivity|right]. split; [done|]. simpl.
  unfold set_father, set_txt, set_sons; simpl. heap_eq.
Qed.

Lemma edge_irrefl h r q s l : wf h r -> path h r q s -> edge h q q l -> False.
Proof.
  intros Hwf Hp. revert l. induction Hp as [|p c s l0 Hp IH He]; intros l Hl.
  - pose proof (edge_label _ _ _ _ _ Hwf Hl) as Hv.
    destruct Hl as (n & m & _ & _ & Hm & Ht).
    destruct (wf_root _ _ Hwf) as (n' & Hn' & Ht' & _).
    apply (valid_label_not_root _ Hv). congruence.
  - destruct (edge_father _ _ _ _ _ Hwf He) as (m & Hm & Hf).
    destruct (edge_father _ _ _ _ _ Hwf Hl) as (m' & Hm' & Hf').
    assert (p = c) as -> by congruence. eauto.
Qed.

Lemma take_valid_label l i :
  valid_label l -> 0 < i ->
  valid_label (take i l) /\ first_char (take i l) = first_char l.
Proof.
  intros [Hne Hv] Hi. destruct l as [|c l]; [done|].
  destruct i as [|j]; [lia|]. simpl. repeat split; [done|].
  change (c :: take j l) with (take (S j) (c :: l)). now apply Forall_take.
Qed.

(** *** The heap after a split is a well-formed tree *)

Section SplitInvariant.

Variables (h : gmap addr RadixTreeNode) (r p q : addr) (np nq : RadixTreeNode).
Variables (lq s : list ascii) (i : nat).
Hypothesis Hwf : wf h r.
Hypothesis Hp : h !! p = Some np.
Hypothesis Hq : h !! q = Some nq.
Hypothesis Hlq : txt nq = Some lq.
Hypothesis Hson : sons np !! slot (first_char lq) = Some (Some q).
Hypothesis Hpath : path h r p s.
Hypothesis Hi : 0 < i < length lq.

Let M := fresh (dom h).
Let nM := mkNode None (Some (take i lq)) (Some p)
            (<[slot (first_char (drop i lq)) := Some q]>
               (replicate RADIX_TREE_NUMBER_OF_SONS None)) 0.
Let nq' := set_father (Some M) (set_txt (Some (drop i lq)) nq).
Let np' := set_sons (<[slot (first_char lq) := Some M]> (sons np)) np.
Let h' := <[M := nM]> (<[q := nq']> (<[p := np']> h)).

Local Lemma split_edge : edge h p q lq.
Proof. exists np, nq. done. Qed.

Local Lemma split_label : valid_label lq.
Proof. exact (edge_label _ _ _ _ _ Hwf split_edge). Qed.

Local Lemma split_father : father nq = Some p.
Proof.
  destruct (edge_father _ _ _ _ _ Hwf split_edge) as (m & Hm & Hf). congruence.
Qed.

Local Lemma split_pq : p <> q.
Proof.
  intros E. apply (edge_irrefl h r p s lq Hwf Hpath). rewrite E at 2. apply split_edge.
Qed.

Local Lemma split_Mp : M <> p.
Proof. exact (fresh_ne h p np Hp). Qed.

Local Lemma split_Mq : M <> q.
Proof. exact (fresh_ne h q nq Hq). Qed.

Local Lemma split_rq : r <> q.
Proof.
  intros E. pose proof split_label as Hv.
  destruct (wf_root _ _ Hwf) as (n & Hn & Ht & _).
  apply (valid_label_not_root _ Hv). congruence.
Qed.

Local Lemma split_take : valid_label (take i lq) /\ first_char (take i lq) = first_char lq.
Proof. apply take_valid_label; [apply split_label|lia]. Qed.

Local Lemma split_drop : valid_label (drop i lq).
Proof.
  destruct split_label as [Hne Hv]. split.
  - intros E. apply (f_equal length) in E. rewrite length_drop in E. simpl in E. lia.
  - now apply Forall_drop.
Qed.

Local Lemma split_lookup a :
  h' !! a = if decide (a = M) then Some nM
            else if decide (a = q) then Some nq'
            else if decide (a = p) then Some np'
            else h !! a.
Proof.
  unfold h'. rewrite !lookup_insert. repeat case_decide; subst; congruence.
Qed.

Local Lemma split_lookup_M : h' !! M = Some nM.
Proof. rewrite split_lookup. now rewrite decide_True. Qed.

Local Lemma split_lookup_q : h' !! q = Some nq'.
Proof.
  rewrite split_lookup. rewrite decide_False by (pose proof split_Mq; congruence).
  now rewrite decide_True.
Qed.

Local Lemma split_lookup_p : h' !! p = Some np'.
Proof.
  rewrite split_lookup. rewrite decide_False by (pose proof split_Mp; congruence).
  rewrite decide_False by apply split_pq. now rewrite decide_True.
Qed.

(** Nodes other than the split one keep their label and father. *)
Local Lemma split_lookup_old a n :
  h !! a = Some n -> a <> q ->
  exists n', h' !! a = Some n' /\ txt n' = txt n /\ father n' = father n
             /\ data n' = data n
             /\ (a <> p -> sons n' = sons n).
Proof.
  intros Ha Haq. rewrite split_lookup.
  rewrite decide_False by (intros ->; unfold M in Ha; now rewrite fresh_None in Ha).
  rewrite decide_False by done. case_decide as Hap.
  - subst a. exists np'. assert (n = np) as E by congruence. rewrite E. done.
  - exists n. done.
Qed.

Local Lemma split_edge_pM : edge h' p M (take i lq).
Proof.
  exists np', nM. destruct split_take as [_ ->]. repeat split.
  - apply split_lookup_p.
  - simpl. apply list_lookup_insert_eq. now apply lookup_lt_Some in Hson.
  - apply split_lookup_M.
Qed.

Local Lemma split_edge_Mq : edge h' M q (drop i lq).
Proof.
  exists nM, nq'. repeat split.
  - apply split_lookup_M.
  - simpl. apply list_lookup_insert_eq. rewrite length_replicate.
    apply slot_lt, first_char_valid, split_drop.
  - apply split_lookup_q.
Qed.

Local Lemma split_edge_old a c l : edge h a c l -> c <> q -> edge h' a c l.
Proof.
  intros (n & m & Ha & Hs & Hc & Hl) Hcq.
  destruct (split_lookup_old c m Hc Hcq) as (m' & Hm' & Ht' & _).
  destruct (decide (a = q)) as [Haq|Haq].
  { subst a. exists nq', m'. rewrite split_lookup_q. assert (n = nq) as E by congruence.
    subst n. repeat split; try done. congruence. }
  destruct (split_lookup_old a n Ha Haq) as (n' & Hn' & _ & _ & _ & Hsons).
  exists n', m'. repeat split; try done; [|congruence].
  destruct (decide (a = p)) as [Hap|Hap]; [|now rewrite Hsons].
  subst a. assert (n = np) as E by congruence. subst n.
  assert (n' = np') as E by (pose proof split_lookup_p; congruence). subst n'.
  simpl. rewrite list_lookup_insert_ne; [done|].
  intros E. rewrite <- E in Hs. congruence.
Qed.

Local Lemma split_path a u : path h r a u -> path h' r a u.
Proof.
  induction 1 as [|a c u l Hpa IH He]; [constructor|].
  destruct (decide (c = q)) as [Hcq|Hcq].
  - subst c. destruct (edge_father _ _ _ _ _ Hwf He) as (m & Hm & Hf).
    assert (a = p) as E by (pose proof split_father; congruence). subst a.
    assert (l = lq) as E.
    { destruct He as (? & ? & _ & _ & ? & ?). congruence. }
    subst l.
    rewrite <- (take_drop i lq), app_assoc.
    eapply path_step; [eapply path_step; [exact IH|apply split_edge_pM]|].
    apply split_edge_Mq.
  - eapply path_step; [exact IH|]. now apply split_edge_old.
Qed.

Local Lemma split_path_M : path h' r M (s ++ take i lq).
Proof. eapply path_step; [apply split_path, Hpath|apply split_edge_pM]. Qed.

Local Lemma split_wf : wf h' r.
Proof.
  pose proof split_Mp as HMp. pose proof split_Mq as HMq. pose proof split_pq as Hpq.
  pose proof split_father as Hfq. pose proof split_take as [Hvt Hft].
  pose proof split_drop as Hvd. pose proof split_label as Hvl.
  split.
  - destruct (wf_root _ _ Hwf) as (n & Hn & Ht & Hf).
    destruct (split_lookup_old r n Hn split_rq) as (n' & Hn' & Ht' & Hf' & _).
    exists n'. repeat split; congruence.
  - intros a n. rewrite split_lookup.
    repeat (case_decide; [intros [= <-]; simpl|]).
    + rewrite length_insert. apply length_replicate.
    + exact (wf_len _ _ Hwf _ _ Hq).
    + rewrite length_insert. exact (wf_len _ _ Hwf _ _ Hp).
    + intros Ha. exact (wf_len _ _ Hwf _ _ Ha).
  - intros a n j c. rewrite split_lookup.
    repeat (case_decide; [subst a|]).
    + intros [= <-]. simpl. intros Hj.
      apply list_lookup_insert_Some in Hj as [(<- & [= <-] & _)|(_ & Hj)].
      * exists nq', (drop i lq). rewrite split_lookup_q. done.
      * apply lookup_replicate in Hj as [? _]. done.
    + intros [= <-]. simpl. intros Hj.
      destruct (wf_son _ _ Hwf _ _ _ _ Hq Hj) as (m & l & Hc & Hl & Hv & Hsl & Hf).
      assert (c <> q) as Hcq by (intros E; subst c; congruence).
      destruct (split_lookup_old c m Hc Hcq) as (m' & Hm' & Ht' & Hf' & _).
      exists m', l. split; [done|]. split; [congruence|]. do 2 (split; [done|]). congruence.
    + intros [= <-]. simpl. intros Hj.
      apply list_lookup_insert_Some in Hj as [(<- & [= <-] & _)|(Hne & Hj)].
      * exists nM, (take i lq). rewrite split_lookup_M.
        do 3 (split; [done|]). split; [now rewrite Hft|done].
      * destruct (wf_son _ _ Hwf _ _ _ _ Hp Hj) as (m & l & Hc & Hl & Hv & Hsl & Hf).
        assert (c <> q) as Hcq.
        { intros E. subst c. assert (l = lq) as E by congruence. subst l. done. }
        destruct (split_lookup_old c m Hc Hcq) as (m' & Hm' & Ht' & Hf' & _).
        exists m', l. split; [done|]. split; [congruence|]. do 2 (split; [done|]). congruence.
    + intros Ha Hj.
      destruct (wf_son _ _ Hwf _ _ _ _ Ha Hj) as (m & l & Hc & Hl & Hv & Hsl & Hf).
      assert (c <> q) as Hcq by (intros E; subst c; congruence).
      destruct (split_lookup_old c m Hc Hcq) as (m' & Hm' & Ht' & Hf' & _).
      exists m', l. split; [done|]. split; [congruence|]. do 2 (split; [done|]). congruence.
  - intros a [n Ha]. rewrite split_lookup in Ha. case_decide as HaM.
    + subst a. eexists. apply split_path_M.
    + assert (is_Some (h !! a)) as Hs.
      { repeat (case_decide; [subst a; eauto|]). eauto. }
      destruct (wf_reach _ _ Hwf _ Hs) as [u Hu]. exists u. now apply split_path.
Qed.

End SplitInvariant.

(** *** The heap after a leaf is attached is a well-formed tree *)

Section LeafInvariant.

Variables (h : gmap addr RadixTreeNode) (r q : addr) (nq : RadixTreeNode).
Variables (t s : list ascii).
Hypothesis Hwf : wf h r.
Hypothesis Hq : h !! q = Some nq.
Hypothesis Hpath : path h r q s.
Hypothesis Ht : valid_label t.
Hypothesis Hfree : sons nq !! slot (first_char t) = Some None.

Let L := fresh (dom h).
Let nL := mkNode None (Some t) (Some q) (replicate RADIX_TREE_NUMBER_OF_SONS None) 0.
Let nq' := set_sons (<[slot (first_char t) := Some L]> (sons nq)) nq.
Let h' := <[q := nq']> (<[L := nL]> h).

Local Lemma leaf_Lq : L <> q.
Proof. exact (fresh_ne h q nq Hq). Qed.

Local Lemma leaf_lookup a :
  h' !! a = if decide (a = q) then Some nq'
            else if decide (a = L) then Some nL
            else h !! a.
Proof. unfold h'. rewrite !lookup_insert. repeat case_decide; subst; congruence. Qed.

Local Lemma leaf_lookup_q : h' !! q = Some nq'.
Proof. rewrite leaf_lookup. now rewrite decide_True. Qed.

Local Lemma leaf_lookup_L : h' !! L = Some nL.
Proof.
  rewrite leaf_lookup. rewrite decide_False by apply leaf_Lq. now rewrite decide_True.
Qed.

Local Lemma leaf_lookup_old a n :
  h !! a = Some n ->
  exists n', h' !! a = Some n' /\ txt n' = txt n /\ father n' = father n
             /\ data n' = data n
             /\ (a <> q -> sons n' = sons n).
Proof.
  intros Ha. rewrite leaf_lookup. case_decide as Haq.
  - subst a. exists nq'. assert (n = nq) as E by congruence. rewrite E. done.
  - rewrite decide_False by (intros E; subst a; unfold L in Ha; now rewrite fresh_None in Ha).
    exists n. done.
Qed.

Local Lemma leaf_edge_old a c l : edge h a c l -> edge h' a c l.
Proof.
  intros (n & m & Ha & Hs & Hc & Hl).
  destruct (leaf_lookup_old c m Hc) as (m' & Hm' & Ht' & _).
  destruct (leaf_lookup_old a n Ha) as (n' & Hn' & _ & _ & _ & Hsons).
  exists n', m'. repeat split; try done; [|congruence].
  destruct (decide (a = q)) as [Haq|Haq]; [|now rewrite Hsons].
  subst a. assert (n = nq) as E by congruence. subst n.
  assert (n' = nq') as E by (pose proof leaf_lookup_q; congruence). subst n'.
  simpl. rewrite list_lookup_insert_ne; [done|].
  intros E. rewrite <- E in Hs. congruence.
Qed.

Local Lemma leaf_path a u : path h r a u -> path h' r a u.
Proof.
  induction 1 as [|a c u l Hpa IH He]; [constructor|].
  eapply path_step; [exact IH|]. now apply leaf_edge_old.
Qed.

Local Lemma leaf_edge_new : edge h' q L t.
Proof.
  exists nq', nL. repeat split.
  - apply leaf_lookup_q.
  - simpl. apply list_lookup_insert_eq. now apply lookup_lt_Some in Hfree.
  - apply leaf_lookup_L.
Qed.

Local Lemma leaf_path_L : path h' r L (s ++ t).
Proof. eapply path_step; [apply leaf_path, Hpath|apply leaf_edge_new]. Qed.

Local Lemma leaf_wf : wf h' r.
Proof.
  pose proof leaf_Lq as HLq.
  split.
  - destruct (wf_root _ _ Hwf) as (n & Hn & Htx & Hf).
    destruct (leaf_lookup_old r n Hn) as (n' & Hn' & Ht' & Hf' & _).
    exists n'. repeat split; congruence.
  - intros a n. rewrite leaf_lookup.
    repeat (case_decide; [intros [= <-]; simpl|]).
    + rewrite length_insert. exact (wf_len _ _ Hwf _ _ Hq).
    + apply length_replicate.
    + intros Ha. exact (wf_len _ _ Hwf _ _ Ha).
  - intros a n j c. rewrite leaf_lookup.
    repeat (case_decide; [subst a|]).
    + intros [= <-]. simpl. intros Hj.
      apply list_lookup_insert_Some in Hj as [(<- & [= <-] & _)|(Hne & Hj)].
      * exists nL, t. rewrite leaf_lookup_L. done.
      * destruct (wf_son _ _ Hwf _ _ _ _ Hq Hj) as (m & l & Hc & Hl & Hv & Hsl & Hf).
        destruct (leaf_lookup_old c m Hc) as (m' & Hm' & Ht' & Hf' & _).
        exists m', l. split; [done|]. split; [congruence|]. do 2 (split; [done|]). congruence.
    + intros [= <-]. simpl. intros Hj.
      apply lookup_replicate in Hj as [? _]. done.
    + intros Ha Hj.
      destruct (wf_son _ _ Hwf _ _ _ _ Ha Hj) as (m & l & Hc & Hl & Hv & Hsl & Hf).
      destruct (leaf_lookup_old c m Hc) as (m' & Hm' & Ht' & Hf' & _).
      exists m', l. split; [done|]. split; [congruence|]. do 2 (split; [done|]). congruence.
  - intros a [n Ha]. rewrite leaf_lookup in Ha.
    destruct (decide (a = L)) as [HaL|HaL].
    + subst a. eexists. apply leaf_path_L.
    + assert (is_Some (h !! a)) as Hs.
      { destruct (decide (a = q)) as [Haq|Haq]; [subst a|]; eauto. }
      destruct (wf_reach _ _ Hwf _ Hs) as [u Hu]. exists u. now apply leaf_path.
Qed.

End LeafInvariant.

(** ** Insertion *)

Lemma find_missing_son h r a s n l c t0 fuel :
  wf h r -> path h r a s -> h !! a = Some n -> txt n = Some l ->
  valid_sym c -> sons n !! slot c = Some None ->
  length (s ++ c :: t0) < fuel ->
  radixTreeFind fuel h r (s ++ c :: t0)
  = Ok (RADIX_TREE_NOT_FOUND, a, c :: t0, length l).
Proof.
  intros Hwf Hp Hn Hl Hc Hs Hfuel.
  destruct (find_loop_path h r Hwf a s Hp (c :: t0) fuel Hfuel) as
    (n' & l' & nr & lr & fuel' & Hn' & Hl' & Hr & Hlr & Hf & Hrun).
  assert (n' = n) as -> by congruence. assert (l' = l) as -> by congruence.
  unfold radixTreeFind. rewrite (load_Some _ _ _ Hr). simpl. rewrite Hlr. simpl.
  unfold stringEnd. rewrite Hrun. destruct fuel' as [|fuel']; [simpl in Hf; lia|].
  cbn [find_loop]. rewrite (move_stay h a n (c :: t0) (length l)) by done. simpl.
  rewrite (load_Some _ _ _ Hn). simpl. rewrite Hl. simpl.
  rewrite decide_False by lia. now rewrite bool_decide_true by done.
Qed.

Lemma insert_at_end h o tr r K fuel st q t' i :
  wf h r -> valid_key K ->
  radixTreeFind (S fuel) h r K = Ok (st, q, t', i) ->
  stop_at_end h r K q t' i ->
  st = match t' with [] => RADIX_TREE_FOUND | _ => RADIX_TREE_NOT_FOUND end ->
  exists res s',
    radixTreeInsert (S fuel) r K (mkState h o tr) = Ok (res, s')
    /\ insert_post h r K res s'.
Proof.
  intros Hwf HK Hfind (n & l & s & Hq & Hl & -> & Hp & -> & Hfree) ->.
  cbn [radixTreeInsert]. cbn [bind rd heap]. rewrite Hfind.
  destruct t' as [|c t0].
  - msimpl. eexists _, _. split; [reflexivity|]. split; [done|split; [done|]].
    intros n' [= <-]. simpl. now rewrite app_nil_r.
  - cbn [bind rd heap]. rewrite (load_Some _ _ _ Hq). msimpl. rewrite Hl. msimpl.
    rewrite decide_False by lia.
    assert (valid_label (c :: t0)) as Hv.
    { split; [done|]. now apply valid_key_app in HK. }
    destruct (insertLeaf_run h o tr q n (c :: t0) Hq (wf_len _ _ Hwf _ _ Hq)
                ltac:(done) (proj2 Hv) (Hfree ltac:(done)))
      as (res & s' & Hrun & [[-> Hh]|[-> Hh]]);
      rewrite Hrun; eexists _, _; (split; [reflexivity|]); unfold insert_post; rewrite Hh.
    + split; [done|split; [done|]]. intros ? [=].
    + split; [|split].
      * apply (leaf_wf h r q n (c :: t0) s); try done. now apply Hfree.
      * intros a u. apply (leaf_path h r q n (c :: t0) s); try done. now apply Hfree.
      * intros n' [= <-]. apply (leaf_path_L h r q n (c :: t0) s); try done.
        now apply Hfree.
Qed.

Lemma first_char_drop (l : list ascii) i c :
  l !! i = Some c -> first_char (drop i l) = c.
Proof.
  revert i. induction l as [|a l IH]; intros [|i] H; simpl in *; try done.
  - congruence.
  - now apply IH.
Qed.

(** A split at the place where the descent stopped inside a label. *)
Lemma split_inside h o tr r q i nq l p s :
  wf h r -> h !! q = Some nq -> txt nq = Some l -> 0 < i < length l ->
  path h r p s -> edge h p q l ->
  exists st s1,
    radixTreeSplitNode q i (mkState h o tr) = Ok (st, s1)
    /\ ((st = RADIX_TREE_OPERATION_FAIL /\ heap s1 = h)
        \/ (st = RADIX_TREE_OPERATION_SUCCESS
            /\ wf (heap s1) r
            /\ (forall a u, path h r a u -> path (heap s1) r a u)
            /\ exists M nM nq',
                heap s1 !! M = Some nM /\ txt nM = Some (take i l)
                /\ h !! M = None
                /\ path (heap s1) r M (s ++ take i l)
                /\ heap s1 !! q = Some nq' /\ father nq' = Some M
                /\ (forall c, valid_sym c -> l !! i <> Some c ->
                      sons nM !! slot c = Some None))).
Proof.
  intros Hwf Hq Hl Hi Hp He.
  pose proof (edge_label _ _ _ _ _ Hwf He) as Hv.
  destruct (edge_father _ _ _ _ _ Hwf He) as (m & Hm & Hf).
  assert (m = nq) as -> by congruence.
  assert (p <> q) as Hpq.
  { intros ->. exact (edge_irrefl h r q s l Hwf Hp He). }
  destruct He as (np & nq0 & Hnp & Hson & Hq0 & Hl0).
  destruct (split_run h o tr q i nq l p np Hq Hl Hf Hnp Hpq (wf_len _ _ Hwf _ _ Hnp)
              Hi (proj2 Hv)) as (st & s1 & Hrun & _ & Hres).
  exists st, s1. split; [exact Hrun|].
  destruct Hres as [[-> Hh]|[-> Hh]]; [left; done|right].
  split; [done|]. rewrite Hh.
  split; [exact (split_wf h r p q np nq l s i Hwf Hnp Hq Hl Hson Hp Hi)|].
  split; [exact (split_path h r p q np nq l s i Hwf Hnp Hq Hl Hson Hp Hi)|].
  eexists (fresh (dom h)), _, _.
  split; [apply lookup_insert_eq|]. split; [reflexivity|].
  split; [apply fresh_None|].
  split; [exact (split_path_M h r p q np nq l s i Hwf Hnp Hq Hl Hson Hp Hi)|].
  split; [rewrite lookup_insert_ne by exact (fresh_ne h q nq Hq); apply lookup_insert_eq|].
  split; [reflexivity|].
  intros c Hc Hne. simpl.
  destruct (lookup_lt_is_Some_2 l i ltac:(lia)) as [d Hd].
  rewrite (first_char_drop l i d Hd).
  assert (valid_sym d) as Hvd.
  { destruct Hv as [_ Hv]. unfold valid_key in Hv. rewrite Forall_lookup in Hv. eauto. }
  rewrite list_lookup_insert_ne.
  - apply lookup_replicate. split; [done|]. now apply slot_lt.
  - intros E. apply slot_inj in E; try done. congruence.
Qed.

Lemma insert_spec h o tr r K fuel :
  wf h r -> valid_key K -> length K + 2 <= fuel ->
  exists res s',
    radixTreeInsert fuel r K (mkState h o tr) = Ok (res, s')
    /\ insert_post h r K res s'.
Proof.
  intros Hwf HK Hfuel.
  destruct fuel as [|fuel]; [lia|].
  destruct (find_spec h r (S fuel) K Hwf HK ltac:(lia))
    as (st & q & t' & i & Hfind & [[Hend Hst]|[Hin Hst]]).
  { exact (insert_at_end h o tr r K fuel st q t' i Hwf HK Hfind Hend Hst). }
  destruct Hin as (nq & l & p & s & Hq & Hl & Hi & Hp & He & HKeq & Hmis).
  destruct (split_inside h o tr r q i nq l p s Hwf Hq Hl Hi Hp He)
    as (sr & s1 & Hrun & Hsplit).
  cbn [radixTreeInsert]. cbn [bind rd heap]. rewrite Hfind.
  destruct t' as [|c t0]; subst st.
  - cbn [bind]. rewrite Hrun.
    destruct Hsplit as [[-> Hh]|(-> & Hwf1 & Hpaths & M & nM & nq' & HM & HlM
                                   & _ & HpM & Hq' & Hfq' & _)].
    + msimpl. eexists _, _. split; [reflexivity|]. unfold insert_post. rewrite Hh.
      split; [done|split; [done|]]. intros ? [=].
    + msimpl. rewrite (load_Some _ _ _ Hq'). msimpl. rewrite Hfq'.
      eexists _, _. split; [reflexivity|]. split; [done|split; [done|]].
      intros ? [= <-]. rewrite HKeq, app_nil_r. exact HpM.
  - cbn [bind rd heap]. rewrite (load_Some _ _ _ Hq). msimpl. rewrite Hl. msimpl.
    rewrite decide_True by lia. cbn [bind]. rewrite Hrun.
    destruct Hsplit as [[-> Hh]|(-> & Hwf1 & Hpaths & M & nM & nq' & HM & HlM
                                   & _ & HpM & Hq' & Hfq' & Hsons)].
    + msimpl. eexists _, _. split; [reflexivity|]. unfold insert_post. rewrite Hh.
      split; [done|split; [done|]]. intros ? [=].
    + destruct fuel as [|fuel]; [lia|]. destruct s1 as [h1 o1 tr1]. simpl in *.
      rewrite app_assoc in HKeq.
      assert (valid_sym c) as Hc.
      { rewrite HKeq in HK. apply valid_key_app in HK as [_ HK]. now inversion HK. }
      assert (sons nM !! slot c = Some None) as Hfree.
      { apply Hsons; [done|]. apply Hmis. done. }
      assert (radixTreeFind (S fuel) h1 r K
              = Ok (RADIX_TREE_NOT_FOUND, M, c :: t0, length (take i l))) as Hfind1.
      { rewrite HKeq. apply (find_missing_son h1 r M (s ++ take i l) nM); try done.
        rewrite <- HKeq. lia. }
      destruct (insert_at_end h1 o1 tr1 r K fuel _ M (c :: t0) _ Hwf1 HK Hfind1)
        as (res & s2 & Hrun2 & Hwf2 & Hpaths2 & Hres); [|done|].
      { exists nM, (take i l), (s ++ take i l). repeat split; try done. }
      exists res, s2. split; [exact Hrun2|]. split; [done|]. split; [|done].
      intros a u Hu. apply Hpaths2, Hpaths, Hu.
Qed.

Lemma insert_all_spec r fuel ks :
  Forall valid_key ks -> Forall (fun k => length k + 2 <= fuel) ks ->
  forall h o tr, wf h r ->
  exists res s',
    insert_all fuel r ks (mkState h o tr) = Ok (res, s')
    /\ wf (heap s') r
    /\ (forall a u, path h r a u -> path (heap s') r a u)
    /\ res.*1 = ks
    /\ (forall k n, (k, Some n) ∈ res -> path (heap s') r n k).
Proof.
  induction ks as [|k ks IH]; intros Hv Hf h o tr Hwf.
  - eexists _, _. split; [reflexivity|]. simpl. do 3 (split; [done|]).
    intros k n Hin. inversion Hin.
  - inversion Hv as [|? ? Hk Hks]; subst. inversion Hf as [|? ? Hfk Hfks]; subst.
    destruct (insert_spec h o tr r k fuel Hwf Hk Hfk)
      as (a & [h1 o1 tr1] & Hrun & Hwf1 & Hp1 & Ha).
    destruct (IH Hks Hfks h1 o1 tr1 Hwf1) as (res & s' & Hrun' & Hwf' & Hp' & Hfst & Hres).
    cbn [insert_all bind]. rewrite Hrun, Hrun'. msimpl.
    eexists _, _. split; [reflexivity|]. simpl in *.
    split; [done|]. split; [intros; now apply Hp', Hp1|]. split; [now f_equal|].
    intros k' n Hin. apply elem_of_cons in Hin as [[= -> <-]|Hin].
    + now apply Hp', Ha.
    + now apply Hres.
Qed.

(** ** A freshly created tree *)

Lemma create_run o tr :
  radixTreeCreate (mkState ∅ o tr)
  = if hd true o
    then Ok (Some (fresh (dom (∅ : gmap addr RadixTreeNode))),
             mkState {[ fresh (dom (∅ : gmap addr RadixTreeNode)) :=
                          mkNode None (Some RADIX_TREE_ROOT_TXT) None
                            (replicate RADIX_TREE_NUMBER_OF_SONS None) 0 ]}
                     (tail o) tr)
    else Ok (None, mkState ∅ (tail o) tr).
Proof.
  unfold radixTreeCreate, alloc_node.
  destruct o as [|[] o]; msimpl; try reflexivity;
    rewrite lookup_insert_eq; msimpl; now rewrite insert_insert_eq.
Qed.

Lemma create_wf o tr r s0 :
  radixTreeCreate (mkState ∅ o tr) = Ok (Some r, s0) -> wf (heap s0) r.
Proof.
  rewrite create_run. destruct (hd true o); [|done]. intros [= <- <-]. simpl.
  set (r := fresh (dom ∅)). split.
  - eexists. split; [apply lookup_singleton_eq|done].
  - intros a n [<- <-]%lookup_singleton_Some. simpl. apply length_replicate.
  - intros a n i c [<- <-]%lookup_singleton_Some. simpl.
    intros [? _]%lookup_replicate. done.
  - intros a [n [<- <-]%lookup_singleton_Some]. exists []. constructor.
Qed.

(** ** Reading a key back *)

Lemma write_chars_spec l pre mid post :
  length mid = length l ->
  write_chars (pre ++ mid ++ post) (length pre) l = pre ++ l ++ post.
Proof.
  revert pre mid. induction l as [|c l IH]; intros pre mid Hlen.
  - destruct mid; [done|simpl in Hlen; lia].
  - destruct mid as [|m mid]; [simpl in Hlen; lia|]. simpl.
    replace (length pre) with (length pre + 0) by lia.
    rewrite insert_app_r. simpl.
    replace (S (length pre + 0)) with (length (pre ++ [c])) by (rewrite length_app; simpl; lia).
    replace (pre ++ c :: mid ++ post) with ((pre ++ [c]) ++ mid ++ post)
      by now rewrite <- app_assoc.
    rewrite IH by (simpl in Hlen; lia). now rewrite <- app_assoc.
Qed.

Lemma full_length_path h r :
  wf h r ->
  forall a K, path h r a K ->
  forall fuel acc, length K < fuel ->
    full_length fuel h (Some a) acc = Ok (acc + length K).
Proof.
  intros Hwf. induction 1 as [|p c s l Hp IH He]; intros fuel acc Hfuel.
  - destruct fuel; [lia|]. simpl. rewrite (isRoot_root _ _ Hwf). simpl. f_equal. lia.
  - pose proof (edge_label _ _ _ _ _ Hwf He) as Hv.
    destruct (edge_father _ _ _ _ _ Hwf He) as (m & Hm & Hf).
    destruct He as (n & m' & Hn & Hs & Hm' & Hl).
    assert (m' = m) as -> by congruence.
    destruct fuel; [lia|]. simpl.
    rewrite (isRoot_label _ _ _ _ Hm Hl Hv). simpl.
    unfold radixTreeHowManyChars, radixTreeFather. rewrite (load_Some _ _ _ Hm). simpl.
    rewrite Hl, Hf. simpl. rewrite length_app in Hfuel |- *.
    rewrite IH; [f_equal; lia|]. destruct Hv as [Hne _]. destruct l; [done|simpl in *; lia].
Qed.

Lemma fill_text_path h r :
  wf h r ->
  forall a K, path h r a K ->
  forall fuel pre post, length pre = length K -> length K < fuel ->
    fill_text fuel h (Some a) (length K) (pre ++ post) = Ok (K ++ post).
Proof.
  intros Hwf. induction 1 as [|p c s l Hp IH He]; intros fuel pre post Hpre Hfuel.
  - destruct fuel; [lia|]. simpl. rewrite (isRoot_root _ _ Hwf). simpl.
    destruct pre; [done|simpl in Hpre; lia].
  - pose proof (edge_label _ _ _ _ _ Hwf He) as Hv.
    destruct (edge_father _ _ _ _ _ Hwf He) as (m & Hm & Hf).
    destruct He as (n & m' & Hn & Hs & Hm' & Hl).
    assert (m' = m) as -> by congruence.
    destruct fuel; [lia|]. cbn [fill_text nonnull bindR].
    rewrite (isRoot_label _ _ _ _ Hm Hl Hv). cbn [bindR].
    rewrite (load_Some _ _ _ Hm). cbn [bindR]. rewrite Hl. cbn [nonnull bindR].
    rewrite length_app in Hpre, Hfuel |- *.
    rewrite decide_False by lia.
    unfold radixTreeFather. rewrite (load_Some _ _ _ Hm). cbn [bindR]. rewrite Hf.
    replace (length s + length l - length l) with (length s) by lia.
    rewrite <- (take_drop (length s) pre), <- app_assoc.
    assert (length (take (length s) pre) = length s) as Ht by (rewrite length_take; lia).
    pose proof (write_chars_spec l (take (length s) pre) (drop (length s) pre) post) as Hw.
    rewrite Ht in Hw. rewrite Hw by (rewrite length_drop; lia).
    rewrite IH; [now rewrite <- app_assoc|done|].
    destruct Hv as [Hne _]. destruct l; [done|simpl in *; lia].
Qed.

Lemma getFullText_path h o tr r a K fuel :
  wf h r -> path h r a K -> length K < fuel -> hd true o = true ->
  radixGetFullText fuel a (mkState h o tr) = Ok (Some K, mkState h (tail o) tr).
Proof.
  intros Hwf Hp Hfuel Ho. unfold radixGetFullText. cbn [bind rd heap].
  rewrite (full_length_path h r Hwf a K Hp fuel 0 Hfuel). cbn [bind].
  rewrite malloc_run, Ho. cbn [negb bind rd heap]. simpl.
  rewrite <- (app_nil_r (replicate (length K) zero)).
  rewrite (fill_text_path h r Hwf a K Hp fuel); [|now rewrite length_replicate|done].
  now rewrite app_nil_r.
Qed.

(** ** Payloads do not matter to the shape *)

Lemma edge_set_data h a n d p c l :
  h !! a = Some n -> edge h p c l -> edge (<[a := set_data d n]> h) p c l.
Proof.
  intros Ha (np & nc & Hp & Hs & Hc & Hl).
  assert (forall x nx, h !! x = Some nx ->
            exists nx', <[a := set_data d n]> h !! x = Some nx'
                        /\ sons nx' = sons nx /\ txt nx' = txt nx) as Hold.
  { intros x nx Hx. rewrite lookup_insert. case_decide as E.
    - subst x. assert (nx = n) as -> by congruence. eexists. done.
    - eexists. done. }
  destruct (Hold p np Hp) as (np' & Hp' & Hs' & _).
  destruct (Hold c nc Hc) as (nc' & Hc' & _ & Hl').
  exists np', nc'. repeat split; congruence.
Qed.

Lemma path_set_data h r a n d x u :
  h !! a = Some n -> path h r x u -> path (<[a := set_data d n]> h) r x u.
Proof.
  intros Ha. induction 1 as [|p c s l Hp IH He]; [constructor|].
  eapply path_step; [exact IH|]. now apply edge_set_data.
Qed.

Lemma wf_set_data h r a n d :
  wf h r -> h !! a = Some n -> wf (<[a := set_data d n]> h) r.
Proof.
  intros Hwf Ha.
  assert (forall x nx, h !! x = Some nx ->
            exists nx', <[a := set_data d n]> h !! x = Some nx'
                        /\ sons nx' = sons nx /\ txt nx' = txt nx
                        /\ father nx' = father nx) as Hold.
  { intros x nx Hx. rewrite lookup_insert. case_decide as E.
    - subst x. assert (nx = n) as -> by congruence. eexists. done.
    - eexists. done. }
  assert (forall x nx', <[a := set_data d n]> h !! x = Some nx' ->
            exists nx, h !! x = Some nx
                        /\ sons nx' = sons nx /\ txt nx' = txt nx
                        /\ father nx' = father nx) as Hnew.
  { intros x nx'. rewrite lookup_insert. case_decide as E.
    - subst x. intros [= <-]. eexists. done.
    - eexists. done. }
  split.
  - destruct (wf_root _ _ Hwf) as (nr & Hr & Ht & Hf).
    destruct (Hold r nr Hr) as (nr' & Hr' & _ & Ht' & Hf').
    exists nr'. repeat split; congruence.
  - intros x nx' Hx. destruct (Hnew x nx' Hx) as (nx & Hx0 & Hs & _).
    rewrite Hs. eapply wf_len; eauto.
  - intros x nx' i c Hx Hi. destruct (Hnew x nx' Hx) as (nx & Hx0 & Hs & _).
    rewrite Hs in Hi.
    destruct (wf_son _ _ Hwf _ _ _ _ Hx0 Hi) as (m & l & Hc & Hl & Hv & Hsl & Hf).
    destruct (Hold c m Hc) as (m' & Hc' & _ & Hl' & Hf').
    exists m', l. split; [done|]. split; [congruence|]. do 2 (split; [done|]). congruence.
  - intros x [nx' Hx]. destruct (Hnew x nx' Hx) as (nx & Hx0 & _).
    destruct (wf_reach _ _ Hwf x ltac:(eauto)) as [u Hu].
    exists u. now apply path_set_data.
Qed.

(** ** Properties of lookup and insertion *)

Lemma path_inv h r a s :
  path h r a s -> a = r \/ exists p s0 l, path h r p s0 /\ edge h p a l /\ s = s0 ++ l.
Proof. destruct 1; [now left|right; eauto 10]. Qed.

Lemma node_label h r a n :
  wf h r -> h !! a = Some n -> a <> r ->
  exists p s l, path h r p s /\ edge h p a l /\ txt n = Some l /\ valid_label l.
Proof.
  intros Hwf Ha Har. destruct (wf_reach _ _ Hwf a ltac:(eauto)) as [u Hu].
  destruct (path_inv _ _ _ _ Hu) as [->|(p & s0 & l & Hp & He & _)]; [done|].
  exists p, s0, l. split; [done|]. split; [done|].
  split; [|exact (edge_label _ _ _ _ _ Hwf He)].
  destruct He as (? & ? & _ & _ & ? & ?). congruence.
Qed.

(** C2. Insertion is idempotent: once [K] has been inserted, inserting it
    again returns the same node and changes nothing, whatever payload has
    been stored on the node in between. *)
Theorem insert_idempotent h o tr r K fuel n s1 :
  wf h r -> valid_key K -> length K + 2 <= fuel ->
  radixTreeInsert fuel r K (mkState h o tr) = Ok (Some n, s1) ->
  radixTreeInsert fuel r K s1 = Ok (Some n, s1)
  /\ forall d, exists s2,
       radixTreeSetData n d s1 = Ok (tt, s2)
       /\ radixTreeInsert fuel r K s2 = Ok (Some n, s2)
       /\ radixTreeGetNodeData (heap s2) n = Ok d.
Proof.
  intros Hwf HK Hfuel Hrun.
  destruct (insert_spec h o tr r K fuel Hwf HK Hfuel) as (res & s' & Hrun' & Hwf1 & _ & Hres).
  rewrite Hrun in Hrun'. injection Hrun' as <- <-.
  specialize (Hres n eq_refl). destruct s1 as [h1 o1 tr1]. simpl in *.
  assert (forall h2 o2 tr2, wf h2 r -> path h2 r n K ->
            radixTreeInsert fuel r K (mkState h2 o2 tr2) = Ok (Some n, mkState h2 o2 tr2))
    as Hagain.
  { intros h2 o2 tr2 Hwf2 Hp2.
    destruct (find_path h2 r n K fuel Hwf2 Hp2 ltac:(lia)) as (m & l & _ & _ & Hfind).
    destruct fuel as [|fuel']; [lia|]. cbn [radixTreeInsert bind rd heap].
    now rewrite Hfind. }
  split; [now apply Hagain|]. intros d.
  destruct (path_node h1 r n K Hwf1 Hres) as (m & l & Hm & _).
  exists (mkState (<[n := set_data d m]> h1) o1 tr1).
  split; [unfold radixTreeSetData; msimpl; now rewrite Hm|].
  split.
  - apply Hagain; [now apply wf_set_data|now apply path_set_data].
  - simpl. unfold radixTreeGetNodeData, load. now rewrite lookup_insert_eq.
Qed.

(** C3. After any sequence of insertions into a freshly created tree every
    son sits in the slot of the first symbol of its label, so that the sons
    of a node start with pairwise distinct symbols, and every node but the
    root has a non-empty label. *)
Theorem insertions_keep_trie_shape o tr r s0 ks fuel :
  radixTreeCreate (mkState ∅ o tr) = Ok (Some r, s0) ->
  Forall valid_key ks -> Forall (fun k => length k + 2 <= fuel) ks ->
  exists res s',
    insert_all fuel r ks s0 = Ok (res, s')
    /\ forall a n, heap s' !! a = Some n ->
         (forall i c, sons n !! i = Some (Some c) ->
            exists m l, heap s' !! c = Some m /\ txt m = Some l /\ l <> []
                        /\ radixTreeConvertCharToNumber (first_char l) = Z.of_nat i)
         /\ (forall i j c d mc md lc ld,
               i <> j ->
               sons n !! i = Some (Some c) -> sons n !! j = Some (Some d) ->
               heap s' !! c = Some mc -> heap s' !! d = Some md ->
               txt mc = Some lc -> txt md = Some ld ->
               first_char lc <> first_char ld)
         /\ (a <> r -> exists l, txt n = Some l /\ l <> []).
Proof.
  intros Hcreate Hv Hf. pose proof (create_wf _ _ _ _ Hcreate) as Hwf.
  destruct s0 as [h0 o0 tr0].
  destruct (insert_all_spec r fuel ks Hv Hf h0 o0 tr0 Hwf)
    as (res & s' & Hrun & Hwf' & _).
  exists res, s'. split; [done|]. intros a n Ha. split; [|split].
  - intros i c Hi.
    destruct (wf_son _ _ Hwf' _ _ _ _ Ha Hi) as (m & l & Hc & Hl & Hvl & Hsl & _).
    exists m, l. do 2 (split; [done|]). split; [apply Hvl|].
    pose proof (first_char_valid l Hvl) as Hfc. unfold valid_sym, slot in *. lia.
  - intros i j c d mc md lc ld Hij Hi Hj Hc Hd Hlc Hld E.
    destruct (wf_son _ _ Hwf' _ _ _ _ Ha Hi) as (m & l & Hc' & Hl & _ & Hsl & _).
    destruct (wf_son _ _ Hwf' _ _ _ _ Ha Hj) as (m' & l' & Hd' & Hl' & _ & Hsl' & _).
    assert (l = lc) as -> by congruence. assert (l' = ld) as -> by congruence.
    congruence.
  - intros Har. destruct (node_label _ _ _ _ Hwf' Ha Har) as (p & s & l & _ & _ & Hl & Hvl).
    exists l. split; [done|apply Hvl].
Qed.



(** C9. In a tree built by insertions the root is the only node whose
    label is the root's reserved text: [radixTreeIsRoot] holds of the root
    and of no other node. *)
Theorem only_the_root_is_root o tr r s0 ks fuel :
  radixTreeCreate (mkState ∅ o tr) = Ok (Some r, s0) ->
  Forall valid_key ks -> Forall (fun k => length k + 2 <= fuel) ks ->
  exists res s',
    insert_all fuel r ks s0 = Ok (res, s')
    /\ radixTreeIsRoot (heap s') r = Ok true
    /\ forall a n, heap s' !! a = Some n -> a <> r ->
         radixTreeIsRoot (heap s') a = Ok false
         /\ exists l, txt n = Some l /\ l <> RADIX_TREE_ROOT_TXT.
Proof.
  intros Hcreate Hv Hf. pose proof (create_wf _ _ _ _ Hcreate) as Hwf.
  destruct s0 as [h0 o0 tr0].
  destruct (insert_all_spec r fuel ks Hv Hf h0 o0 tr0 Hwf)
    as (res & s' & Hrun & Hwf' & _).
  exists res, s'. split; [done|]. split; [now apply isRoot_root|].
  intros a n Ha Har.
  destruct (node_label _ _ _ _ Hwf' Ha Har) as (p & s & l & _ & _ & Hl & Hvl).
  split; [exact (isRoot_label _ _ _ _ Ha Hl Hvl)|].
  exists l. split; [done|now apply valid_label_not_root].
Qed.

(** C10. [radixTreeFindLite] returns the status and the node of
    [radixTreeFind] on the same arguments, and fails when it fails. *)
Theorem findLite_agrees_with_find fuel h tree t :
  radixTreeFindLite fuel h tree t
  = match radixTreeFind fuel h tree t with
    | Ok (st, p, _, _) => Ok (st, p)
    | Err e => Err e
    end.
Proof.
  unfold radixTreeFindLite. destruct (radixTreeFind fuel h tree t) as [[[[st p] t'] i]|e];
    reflexivity.
Qed.

(** ** Tearing down a subtree *)

Lemma delete_loop_unfold fuel sub p h o tr n :
  h !! p = Some n ->
  delete_loop (S fuel) sub (Some p) (mkState h o tr)
  = if bool_decide (p = sub) && bool_decide (foldI n = RADIX_TREE_NUMBER_OF_SONS)
    then Ok (tt, mkState h o tr)
    else (pos' <- delete_step p ;; delete_loop fuel sub pos') (mkState h o tr).
Proof.
  intros Hp. cbn [delete_loop bind lift rd nonnull heap]. rewrite (load_Some _ _ _ Hp).
  now destruct (bool_decide (p = sub) && bool_decide (foldI n = RADIX_TREE_NUMBER_OF_SONS)).
Qed.

(** An empty slot: on to the next one. *)
Lemma delete_step_none fuel sub a n h o tr :
  h !! a = Some n -> foldI n < RADIX_TREE_NUMBER_OF_SONS ->
  sons n !! foldI n = Some None ->
  delete_loop (S fuel) sub (Some a) (mkState h o tr)
  = delete_loop fuel sub (Some a)
      (mkState (<[a := set_foldI (S (foldI n)) n]> h) o tr).
Proof.
  intros Ha Hi Hs. rewrite (delete_loop_unfold _ _ _ _ _ _ _ Ha).
  rewrite (bool_decide_false (foldI n = _)) by lia. rewrite andb_false_r.
  unfold delete_step. cbn [bind rd heap]. rewrite (load_Some _ _ _ Ha). cbn [bind].
  rewrite decide_False by lia. unfold son_at.
  destruct (Z.ltb_spec (Z.of_nat (foldI n)) 0) as [?|_]; [lia|].
  rewrite Nat2Z.id, Hs. msimpl. now rewrite Ha.
Qed.

(** A son: into it. *)
Lemma delete_step_enter fuel sub a n c m h o tr :
  h !! a = Some n -> foldI n < RADIX_TREE_NUMBER_OF_SONS ->
  sons n !! foldI n = Some (Some c) -> h !! c = Some m -> c <> a ->
  delete_loop (S fuel) sub (Some a) (mkState h o tr)
  = delete_loop fuel sub (Some c)
      (mkState (<[a := set_foldI (S (foldI n)) n]> (<[c := set_foldI 0 m]> h)) o tr).
Proof.
  intros Ha Hi Hs Hc Hca. rewrite (delete_loop_unfold _ _ _ _ _ _ _ Ha).
  rewrite (bool_decide_false (foldI n = _)) by lia. rewrite andb_false_r.
  unfold delete_step. cbn [bind rd heap]. rewrite (load_Some _ _ _ Ha). cbn [bind].
  rewrite decide_False by lia. unfold son_at.
  destruct (Z.ltb_spec (Z.of_nat (foldI n)) 0) as [?|_]; [lia|].
  rewrite Nat2Z.id, Hs. msimpl. rewrite Hc. msimpl.
  rewrite lookup_insert_ne by done. now rewrite Ha.
Qed.

(** A node whose slots are all done: finalize it, detach it, free it and
    go back to its father. *)
Lemma delete_step_exit fuel sub a n c m lbl h o tr :
  h !! c = Some m -> c <> sub -> foldI m = RADIX_TREE_NUMBER_OF_SONS ->
  father m = Some a -> txt m = Some lbl -> valid_sym (first_char lbl) ->
  h !! a = Some n -> a <> c -> length (sons n) = RADIX_TREE_NUMBER_OF_SONS ->
  delete_loop (S fuel) sub (Some c) (mkState h o tr)
  = delete_loop fuel sub (Some a)
      (mkState (<[a := set_sons (<[slot (first_char lbl) := None]> (sons n)) n]>
                  (delete c h))
               o (tr ++ fin_events m ++ [EvFree c])).
Proof.
  intros Hc Hcs Hi Hf Hl Hv Ha Hac Hlen. rewrite (delete_loop_unfold _ _ _ _ _ _ _ Hc).
  rewrite (bool_decide_false (c = sub)) by done. cbn [andb].
  unfold delete_step. cbn [bind rd heap]. rewrite (load_Some _ _ _ Hc). cbn [bind].
  rewrite decide_True by done. unfold finalize, fin_events.
  destruct (data m) as [d|] eqn:Hd.
  - msimpl. rewrite (load_Some _ _ _ Hc). msimpl. rewrite Hd. msimpl. rewrite Hc. msimpl.
    rewrite Hl. msimpl. rewrite Hf. cbn [bind].
    erewrite changeSon_run; [|rewrite lookup_insert_ne by done; exact Ha|done|done].
    cbn [bind].
    erewrite freeNode_run;
      [|rewrite lookup_insert_ne by done; apply lookup_insert_eq|now left].
    msimpl. rewrite <- !app_assoc. simpl. do 3 f_equal.
    apply map_eq. intros x. rewrite !lookup_delete, !lookup_insert, !lookup_delete.
    repeat case_decide; subst; congruence.
  - msimpl. rewrite (load_Some _ _ _ Hc). msimpl. rewrite Hd. msimpl.
    rewrite Hl. msimpl. rewrite Hf. cbn [bind].
    erewrite changeSon_run; [|exact Ha|done|done].
    cbn [bind].
    erewrite freeNode_run; [|rewrite lookup_insert_ne by done; exact Hc|now left].
    msimpl. simpl. do 3 f_equal.
    apply map_eq. intros x. rewrite !lookup_delete, !lookup_insert, !lookup_delete.
    repeat case_decide; subst; congruence.
Qed.

Lemma subtree_nodes_S f h a :
  subtree_nodes (S f) h a
  = match h !! a with
    | Some n =>
        if decide (length (sons n) = RADIX_TREE_NUMBER_OF_SONS)
        then match sons_nodes (subtree_nodes f h) h a 0 (sons n) with
             | Some ls => Some (ls ++ [a])
             | None => None
             end
        else None
    | None => None
    end.
Proof. reflexivity. Qed.

Lemma subtree_nodes_inv f h a l :
  subtree_nodes f h a = Some l ->
  exists f' n ls, f = S f' /\ h !! a = Some n
    /\ length (sons n) = RADIX_TREE_NUMBER_OF_SONS
    /\ sons_nodes (subtree_nodes f' h) h a 0 (sons n) = Some ls
    /\ l = ls ++ [a].
Proof.
  destruct f as [|f']; [done|]. simpl.
  destruct (h !! a) as [n|]; [|done]. case_decide as Hlen; [|done].
  destruct (sons_nodes _ _ _ _ _) as [ls|] eqn:E; [|done].
  intros [= <-]. exists f', n, ls. done.
Qed.

Lemma sons_nodes_cons_inv rec h a i c rest l :
  sons_nodes rec h a i (Some c :: rest) = Some l ->
  exists m lbl lc ls,
    h !! c = Some m /\ txt m = Some lbl /\ father m = Some a
    /\ radixTreeConvertCharToNumber (first_char lbl) = Z.of_nat i
    /\ rec c = Some lc /\ sons_nodes rec h a (S i) rest = Some ls
    /\ l = lc ++ ls.
Proof.
  simpl. destruct (h !! c) as [m|]; [|done]. destruct (txt m) as [lbl|] eqn:Hl; [|done].
  case_decide as Hd; [|done]. destruct Hd as [Hf Hc].
  destruct (rec c) as [lc|]; [|done].
  destruct (sons_nodes rec h a (S i) rest) as [ls|]; [|done].
  intros [= <-]. exists m, lbl, lc, ls. done.
Qed.

(** Membership in a list put together from lists. *)
Ltac in_list :=
  repeat (rewrite ?elem_of_app, ?elem_of_cons, ?list_elem_of_singleton, ?elem_of_nil in * );
  tauto.

Lemma shape_agree_lookup (h h' : gmap addr RadixTreeNode) x n :
  shape <$> h' !! x = shape <$> h !! x -> h !! x = Some n ->
  exists n', h' !! x = Some n' /\ data n' = data n /\ txt n' = txt n
             /\ father n' = father n /\ sons n' = sons n.
Proof.
  intros E Hx. rewrite Hx in E. destruct (h' !! x) as [n'|]; [|done].
  injection E as E1 E2 E3 E4. eauto 10.
Qed.

(** The post-order of a subtree depends on the shape of its nodes only. *)
Lemma subtree_nodes_frame f :
  forall h h' a l,
    subtree_nodes f h a = Some l ->
    (forall x, x ∈ l -> shape <$> h' !! x = shape <$> h !! x) ->
    subtree_nodes f h' a = Some l.
Proof.
  induction f as [|f IH]; intros h h' a l Hl Hag; [done|].
  destruct (subtree_nodes_inv _ _ _ _ Hl) as (f' & n & ls & [= <-] & Ha & Hlen & Hs & ->).
  destruct (shape_agree_lookup h h' a n (Hag a ltac:(in_list)) Ha)
    as (n' & Ha' & _ & _ & _ & Hsons).
  simpl. rewrite Ha', Hsons. rewrite decide_True by done.
  assert (forall rest i ls,
            sons_nodes (subtree_nodes f h) h a i rest = Some ls ->
            (forall x, x ∈ ls -> shape <$> h' !! x = shape <$> h !! x) ->
            sons_nodes (subtree_nodes f h') h' a i rest = Some ls) as Hin.
  { clear -IH. induction rest as [|[c|] rest IHr]; intros i ls Hs Hag; [done| |].
    - destruct (sons_nodes_cons_inv _ _ _ _ _ _ _ Hs)
        as (m & lbl & lc & ls' & Hc & Hlbl & Hf & Hcv & Hrec & Hrest & ->).
      destruct (subtree_nodes_inv _ _ _ _ Hrec) as (? & ? & lsc & _ & _ & _ & _ & ->).
      destruct (shape_agree_lookup h h' c m (Hag c ltac:(in_list)) Hc)
        as (m' & Hc' & _ & Ht' & Hf' & _).
      simpl. rewrite Hc', Ht', Hlbl. rewrite decide_True by (split; congruence).
      rewrite (IH h h' c _ Hrec) by (intros; apply Hag; in_list).
      rewrite (IHr (S i) ls' Hrest) by (intros; apply Hag; in_list). done.
    - simpl in *. now apply IHr. }
  rewrite (Hin _ _ _ Hs); [done|]. intros; apply Hag; in_list.
Qed.

Lemma sons_nodes_frame f h h' a rest i ls :
  sons_nodes (subtree_nodes f h) h a i rest = Some ls ->
  (forall x, x ∈ ls -> shape <$> h' !! x = shape <$> h !! x) ->
  sons_nodes (subtree_nodes f h') h' a i rest = Some ls.
Proof.
  revert i ls. induction rest as [|[c|] rest IHr]; intros i ls Hs Hag; [done| |].
  - destruct (sons_nodes_cons_inv _ _ _ _ _ _ _ Hs)
      as (m & lbl & lc & ls' & Hc & Hlbl & Hf & Hcv & Hrec & Hrest & ->).
    destruct (subtree_nodes_inv _ _ _ _ Hrec) as (? & ? & lsc & _ & _ & _ & _ & ->).
    destruct (shape_agree_lookup h h' c m (Hag c ltac:(in_list)) Hc)
      as (m' & Hc' & _ & Ht' & Hf' & _).
    simpl. rewrite Hc', Ht', Hlbl. rewrite decide_True by (split; congruence).
    rewrite (subtree_nodes_frame f h h' c _ Hrec) by (intros; apply Hag; in_list).
    rewrite (IHr (S i) ls' Hrest) by (intros; apply Hag; in_list). done.
  - simpl in *. now apply IHr.
Qed.

Lemma events_frame (h h' : gmap addr RadixTreeNode) l :
  (forall x, x ∈ l -> shape <$> h' !! x = shape <$> h !! x) ->
  events h' l = events h l.
Proof.
  induction l as [|x l IH]; intros Hag; [done|].
  unfold events in *. simpl. rewrite IH by (intros; apply Hag; in_list). f_equal.
  unfold node_events. specialize (Hag x ltac:(in_list)).
  destruct (h !! x) as [n|] eqn:Hx.
  - destruct (shape_agree_lookup h h' x n) as (n' & -> & Hd & _); [now rewrite Hx|done|].
    unfold fin_events. now rewrite Hd.
  - destruct (h' !! x); done.
Qed.

Lemma events_app h l1 l2 : events h (l1 ++ l2) = events h l1 ++ events h l2.
Proof. unfold events. apply flat_map_app. Qed.

Lemma lookup_shape_eq (h h' : gmap addr RadixTreeNode) x :
  h' !! x = h !! x -> shape <$> h' !! x = shape <$> h !! x.
Proof. now intros ->. Qed.

Lemma node_eta d t f l i n :
  data n = d -> txt n = t -> father n = f -> sons n = l -> foldI n = i ->
  n = mkNode d t f l i.
Proof. destruct n; simpl; congruence. Qed.

Lemma drop_cons_inv {A} (l : list A) i x rest :
  drop i l = x :: rest -> l !! i = Some x /\ drop (S i) l = rest /\ i < length l.
Proof.
  revert i. induction l as [|y l IH]; intros [|i] H; simpl in *; try done.
  - injection H as -> ->. split_and!; simpl; try done; lia.
  - destruct (IH i H) as (? & ? & ?). split_and!; try done. lia.
Qed.

(** The loop of [radixTreeDeleteSubTree] at node [a] with the slots from
    [foldI] on still to do: it tears down the subtrees in these slots in
    post-order and comes back to [a] with all its slots done. *)
Lemma delete_sons sub :
  forall f rest a n h ls o tr,
    sons_nodes (subtree_nodes f h) h a (foldI n) rest = Some ls ->
    h !! a = Some n -> drop (foldI n) (sons n) = rest ->
    length (sons n) = RADIX_TREE_NUMBER_OF_SONS ->
    foldI n <= RADIX_TREE_NUMBER_OF_SONS ->
    NoDup ls -> a ∉ ls -> sub ∉ ls ->
    exists k h2,
      heap_after h a
        (mkNode (data n) (txt n) (father n)
           (take (foldI n) (sons n) ++ replicate (length rest) None)
           RADIX_TREE_NUMBER_OF_SONS) ls h2
      /\ forall fuel,
           delete_loop (k + fuel) sub (Some a) (mkState h o tr)
           = delete_loop fuel sub (Some a) (mkState h2 o (tr ++ events h ls)).
Proof.
  induction f as [f IHf] using lt_wf_ind.
  induction rest as [|[c|] rest IHr];
    intros a n h ls o tr Hs Ha Hdrop Hlen Hle Hnd Hals Hsub.
  - (* no slot left *)
    injection Hs as <-. exists 0, h. split; [|intros; simpl; now rewrite app_nil_r].
    assert (RADIX_TREE_NUMBER_OF_SONS <= foldI n) as Hge.
    { apply (f_equal length) in Hdrop. rewrite length_drop in Hdrop. simpl in Hdrop. lia. }
    split; [|split; [intros x Hx; inversion Hx|done]].
    rewrite Ha. f_equal. apply node_eta; try done; [|lia].
    simpl. rewrite app_nil_r. now rewrite take_ge by lia.
  - (* a son in the slot *)
    destruct (drop_cons_inv _ _ _ _ Hdrop) as (Hson & Hdrop' & Hlt). rewrite Hlen in Hlt.
    destruct (sons_nodes_cons_inv _ _ _ _ _ _ _ Hs)
      as (m & lbl & lc & ls' & Hc & Hlbl & Hf & Hcv & Hrec & Hrest & ->).
    destruct (subtree_nodes_inv _ _ _ _ Hrec)
      as (f' & m0 & lsc & -> & Hc0 & Hlenc & Hsc & ->).
    assert (m0 = m) as -> by congruence.
    apply NoDup_app in Hnd as (Hndc & Hdisj & Hnd').
    apply NoDup_app in Hndc as (Hndsc & Hcsc & _).
    assert (c ∉ lsc) as Hclsc by (intros Hx; apply (Hcsc c Hx); in_list).
    assert (a <> c) as Hac by (intros ->; apply Hals; in_list).
    assert (a ∉ lsc) as Halsc by (intros Hx; apply Hals; in_list).
    assert (a ∉ ls') as Hals' by (intros Hx; apply Hals; in_list).
    assert (c <> sub) as Hcsub by (intros ->; apply Hsub; in_list).
    assert (sub ∉ lsc) as Hsublsc by (intros Hx; apply Hsub; in_list).
    assert (sub ∉ ls') as Hsubls' by (intros Hx; apply Hsub; in_list).
    assert (c ∉ ls') as Hcls' by (apply Hdisj; in_list).
    assert (forall x, x ∈ lsc -> x ∉ ls') as Hdisj' by (intros x Hx; apply Hdisj; in_list).
    assert (valid_sym (first_char lbl)) as Hvs by (unfold valid_sym; lia).
    assert (slot (first_char lbl) = foldI n) as Hslot by (unfold slot; lia).
    (* into the son *)
    set (m1 := set_foldI 0 m).
    set (n1 := set_foldI (S (foldI n)) n).
    set (h1 := <[a := n1]> (<[c := m1]> h)).
    assert (forall x, x <> a -> x <> c -> h1 !! x = h !! x) as Hh1.
    { intros x Hxa Hxc. unfold h1. now rewrite !lookup_insert_ne by done. }
    assert (h1 !! c = Some m1) as Hc1.
    { unfold h1. rewrite lookup_insert_ne by done. apply lookup_insert_eq. }
    assert (h1 !! a = Some n1) as Ha1 by apply lookup_insert_eq.
    assert (sons_nodes (subtree_nodes f' h1) h1 c (foldI m1) (sons m) = Some lsc) as Hs1.
    { simpl. apply (sons_nodes_frame f' h); [done|].
      intros x Hx. apply lookup_shape_eq, Hh1; intros ->; done. }
    destruct (IHf f' ltac:(lia) (sons m) c m1 h1 lsc o tr Hs1 Hc1 eq_refl Hlenc
                ltac:(simpl; lia) Hndsc Hclsc Hsublsc) as (k1 & h2 & Hafter2 & Hrun2).
    destruct Hafter2 as (Hc2 & Hgone2 & Hsame2). simpl in Hc2.
    (* out of the son *)
    set (n3 := set_sons (<[slot (first_char lbl) := None]> (sons n1)) n1).
    set (h3 := <[a := n3]> (delete c h2)).
    assert (h2 !! a = Some n1) as Ha2 by (rewrite Hsame2 by done; done).
    assert (h3 !! a = Some n3) as Ha3 by apply lookup_insert_eq.
    assert (forall x, x ∈ ls' -> h3 !! x = h !! x) as Hh3.
    { intros x Hx. unfold h3.
      rewrite lookup_insert_ne by (intros ->; done).
      rewrite lookup_delete_ne by (intros ->; done).
      rewrite Hsame2; [|intros ->; done|intros Hx'; exact (Hdisj' x Hx' Hx)].
      apply Hh1; intros ->; done. }
    assert (sons_nodes (subtree_nodes (S f') h3) h3 a (foldI n3) rest = Some ls') as Hs3.
    { simpl. apply (sons_nodes_frame (S f') h); [done|].
      intros x Hx. apply lookup_shape_eq, Hh3, Hx. }
    assert (drop (foldI n3) (sons n3) = rest) as Hdrop3.
    { simpl. rewrite Hslot. rewrite drop_insert_lt by lia. done. }
    assert (length (sons n3) = RADIX_TREE_NUMBER_OF_SONS) as Hlen3.
    { simpl. now rewrite length_insert. }
    destruct (IHr a n3 h3 ls' o (tr ++ events h1 lsc ++ fin_events m ++ [EvFree c])
                Hs3 Ha3 Hdrop3 Hlen3 ltac:(simpl; lia) Hnd' Hals' Hsubls')
      as (k3 & h4 & Hafter4 & Hrun4).
    destruct Hafter4 as (Ha4 & Hgone4 & Hsame4).
    exists (S (k1 + S k3)), h4. split; [split; [|split]|].
    + rewrite Ha4. f_equal. simpl. f_equal. rewrite Hslot.
      rewrite take_insert_lt by lia.
      rewrite (take_S_r _ _ _ Hson).
      rewrite insert_app_r_alt by (rewrite length_take; lia).
      rewrite length_take. replace (foldI n - foldI n `min` length (sons n)) with 0 by lia.
      simpl. now rewrite <- app_assoc.
    + intros x Hx. destruct (decide (x ∈ ls')) as [Hx'|Hx']; [now apply Hgone4|].
      rewrite Hsame4; [|intros ->; apply Hals; exact Hx|done].
      unfold h3. rewrite lookup_insert_ne by (intros ->; apply Hals; exact Hx).
      destruct (decide (x = c)) as [->|Hxc]; [apply lookup_delete_eq|].
      rewrite lookup_delete_ne by done. apply Hgone2. revert Hx Hx' Hxc. clear. in_list.
    + intros x Hxa Hx. rewrite Hsame4; [|done|intros Hx'; apply Hx; in_list].
      assert (x <> c) as Hxc by (intros ->; apply Hx; in_list).
      unfold h3. rewrite lookup_insert_ne by done. rewrite lookup_delete_ne by done.
      rewrite Hsame2; [|done|intros Hx'; apply Hx; in_list]. now apply Hh1.
    + intros fuel. replace (S (k1 + S k3) + fuel) with (S (k1 + S (k3 + fuel))) by lia.
      rewrite (delete_step_enter _ _ _ _ c m _ _ _ Ha) by done. fold m1 n1 h1.
      rewrite Hrun2.
      rewrite (delete_step_exit _ sub a n1 c _ lbl h2 _ _ Hc2); try done.
      fold n3 h3. unfold fin_events at 1. simpl data. fold (fin_events m).
      rewrite <- !app_assoc in Hrun4. rewrite <- !app_assoc. rewrite Hrun4.
      do 3 f_equal. rewrite !events_app.
      rewrite (events_frame h h1 lsc)
        by (intros x Hx; apply lookup_shape_eq, Hh1; intros ->; done).
      rewrite (events_frame h h3 ls') by (intros x Hx; apply lookup_shape_eq, Hh3, Hx).
      f_equal. change (events h [c]) with (node_events h c ++ []).
      unfold node_events. rewrite Hc, app_nil_r. now rewrite <- app_assoc.
  - (* an empty slot *)
    destruct (drop_cons_inv _ _ _ _ Hdrop) as (Hson & Hdrop' & Hlt). rewrite Hlen in Hlt.
    simpl in Hs.
    set (n1 := set_foldI (S (foldI n)) n).
    set (h1 := <[a := n1]> h).
    assert (forall x, x ∈ ls -> h1 !! x = h !! x) as Hh1.
    { intros x Hx. unfold h1. rewrite lookup_insert_ne by (intros ->; done). done. }
    assert (sons_nodes (subtree_nodes f h1) h1 a (foldI n1) rest = Some ls) as Hs1.
    { simpl. apply (sons_nodes_frame f h); [done|].
      intros x Hx. apply lookup_shape_eq, Hh1, Hx. }
    destruct (IHr a n1 h1 ls o tr Hs1 (lookup_insert_eq _ _ _) Hdrop' Hlen
                ltac:(simpl; lia) Hnd Hals Hsub) as (k & h2 & Hafter & Hrun).
    destruct Hafter as (Ha2 & Hgone & Hsame).
    exists (S k), h2. split; [split; [|split]|].
    + rewrite Ha2. f_equal. simpl. f_equal.
      rewrite (take_S_r _ _ _ Hson). now rewrite <- app_assoc.
    + done.
    + intros x Hxa Hx. rewrite Hsame by done. unfold h1. now rewrite lookup_insert_ne.
    + intros fuel. change (S k + fuel) with (S (k + fuel)).
      rewrite (delete_step_none _ _ _ _ _ _ _ Ha) by done.
      fold n1 h1. rewrite Hrun.
      now rewrite (events_frame h h1 ls) by (intros x Hx; apply lookup_shape_eq, Hh1, Hx).
Qed.

(** The loop and the finalizer call that follows it, from the node the
    teardown starts at. *)
Lemma delete_loop_run f h o tr N n l :
  subtree_nodes f h N = Some l -> NoDup l -> h !! N = Some n ->
  exists k h2 ls,
    l = ls ++ [N]
    /\ heap_after h N
         (mkNode None (txt n) (father n)
            (replicate RADIX_TREE_NUMBER_OF_SONS None) RADIX_TREE_NUMBER_OF_SONS)
         ls h2
    /\ forall A (cont : M A) fuel, k <= fuel ->
         (update N (set_foldI 0) ;;;
          delete_loop fuel N (Some N) ;;;
          finalize N ;;;
          cont) (mkState h o tr)
         = cont (mkState h2 o (tr ++ events h ls ++ fin_events n)).
Proof.
  intros Hl Hnd Hn.
  destruct (subtree_nodes_inv _ _ _ _ Hl) as (f' & n0 & ls & -> & Hn0 & Hlen & Hs & ->).
  assert (n0 = n) as -> by congruence.
  apply NoDup_app in Hnd as (Hndls & HNls & _).
  assert (N ∉ ls) as HN by (intros Hx; apply (HNls N Hx); in_list).
  set (n1 := set_foldI 0 n). set (h1 := <[N := n1]> h).
  assert (forall x, x ∈ ls -> h1 !! x = h !! x) as Hh1.
  { intros x Hx. unfold h1. rewrite lookup_insert_ne by (intros ->; done). done. }
  assert (sons_nodes (subtree_nodes f' h1) h1 N (foldI n1) (sons n) = Some ls) as Hs1.
  { simpl. apply (sons_nodes_frame f' h); [done|].
    intros x Hx. apply lookup_shape_eq, Hh1, Hx. }
  destruct (delete_sons N f' (sons n) N n1 h1 ls o tr Hs1 (lookup_insert_eq _ _ _) eq_refl
              Hlen ltac:(simpl; lia) Hndls HN HN) as (k & h2 & (HN2 & Hgone & Hsame) & Hrun).
  simpl in HN2. rewrite Hlen in HN2.
  set (nN := mkNode None (txt n) (father n)
               (replicate RADIX_TREE_NUMBER_OF_SONS None) RADIX_TREE_NUMBER_OF_SONS).
  exists (S k), (<[N := nN]> h2), ls. split; [done|]. split; [split; [|split]|].
  - apply lookup_insert_eq.
  - intros x Hx. rewrite lookup_insert_ne by (intros ->; done). now apply Hgone.
  - intros x HxN Hx. rewrite lookup_insert_ne by done. rewrite Hsame by done.
    unfold h1. now rewrite lookup_insert_ne.
  - intros A cont fuel Hfuel. cbn [bind update heap set_heap oracle trace]. rewrite Hn.
    fold n1 h1. replace fuel with (k + S (fuel - S k)) by lia.
    rewrite Hrun. rewrite (delete_loop_unfold _ _ _ _ _ _ _ HN2).
    rewrite !bool_decide_true by done. cbn [andb].
    rewrite (events_frame h h1 ls) by (intros x Hx; apply lookup_shape_eq, Hh1, Hx).
    unfold finalize, fin_events. cbn [bind rd heap]. rewrite (load_Some _ _ _ HN2).
    cbn [bind data]. destruct (data n) as [d|] eqn:Hd.
    + msimpl. rewrite HN2. msimpl. now rewrite <- app_assoc.
    + msimpl. rewrite app_nil_r. do 2 f_equal. symmetry. now apply insert_id.
Qed.

(** *** The subtrees of a well-formed tree *)

Lemma path_unique h r a s s' :
  wf h r -> path h r a s -> path h r a s' -> s = s'.
Proof.
  intros Hwf Hp. revert s'. induction Hp as [|p c s l Hp IH He]; intros s' Hp'.
  - destruct (path_inv _ _ _ _ Hp') as [_|(p & s0 & l & _ & He & _)].
    + inversion Hp' as [|p c s0 l Hp0 He0]; [done|]. subst.
      exfalso. pose proof (edge_label _ _ _ _ _ Hwf He0) as Hv.
      destruct He0 as (? & m & _ & _ & Hm & Hl).
      destruct (wf_root _ _ Hwf) as (n & Hn & Ht & _).
      apply (valid_label_not_root _ Hv). congruence.
    + exfalso. pose proof (edge_label _ _ _ _ _ Hwf He) as Hv.
      destruct He as (? & m & _ & _ & Hm & Hl).
      destruct (wf_root _ _ Hwf) as (n & Hn & Ht & _).
      apply (valid_label_not_root _ Hv). congruence.
  - inversion Hp' as [|p' c' s0 l' Hp0 He0]; subst.
    + exfalso. pose proof (edge_label _ _ _ _ _ Hwf He) as Hv.
      destruct He as (? & m & _ & _ & Hm & Hl).
      destruct (wf_root _ _ Hwf) as (n & Hn & Ht & _).
      apply (valid_label_not_root _ Hv). congruence.
    + destruct (edge_father _ _ _ _ _ Hwf He) as (m & Hm & Hf).
      destruct (edge_father _ _ _ _ _ Hwf He0) as (m' & Hm' & Hf').
      assert (p' = p) as -> by congruence.
      assert (l' = l) as ->.
      { destruct He as (? & ? & _ & _ & ? & ?), He0 as (? & ? & _ & _ & ? & ?). congruence. }
      f_equal. now apply IH.
Qed.

Lemma path_bound h r :
  wf h r -> exists B, forall a s, path h r a s -> length s <= B.
Proof.
  intros Hwf.
  assert (forall X : gset addr,
            exists B, forall a, a ∈ X -> forall s, path h r a s -> length s <= B) as HX.
  { induction X as [|a X Ha [B HB]] using set_ind_L.
    - exists 0. intros a Ha. now apply not_elem_of_empty in Ha.
    - destruct (h !! a) as [n|] eqn:Hn.
      + destruct (wf_reach _ _ Hwf a ltac:(eauto)) as [sa Hsa].
        exists (max B (length sa)). intros x Hx s Hs.
        apply elem_of_union in Hx as [Hx%elem_of_singleton|Hx].
        * subst x. rewrite (path_unique h r a s sa Hwf Hs Hsa). lia.
        * specialize (HB x Hx s Hs). lia.
      + exists B. intros x Hx s Hs.
        apply elem_of_union in Hx as [Hx%elem_of_singleton|Hx]; [|now apply (HB x)].
        subst x. destruct (path_node h r a s Hwf Hs) as (? & ? & ? & _). congruence. }
  destruct (HX (dom h)) as [B HB]. exists B. intros a s Hs. apply (HB a); [|done].
  destruct (path_node h r a s Hwf Hs) as (n & ? & Hn & _). apply elem_of_dom. eauto.
Qed.

Lemma son_edge h r a n i c :
  wf h r -> h !! a = Some n -> sons n !! i = Some (Some c) ->
  exists m lbl, h !! c = Some m /\ txt m = Some lbl /\ father m = Some a
                /\ valid_label lbl /\ slot (first_char lbl) = i
                /\ radixTreeConvertCharToNumber (first_char lbl) = Z.of_nat i
                /\ edge h a c lbl.
Proof.
  intros Hwf Ha Hi.
  destruct (wf_son _ _ Hwf _ _ _ _ Ha Hi) as (m & lbl & Hc & Hl & Hv & Hsl & Hf).
  exists m, lbl. do 5 (split; [done|]). split.
  - pose proof (first_char_valid lbl Hv) as Hfc. unfold valid_sym, slot in *. lia.
  - exists n, m. rewrite Hsl. done.
Qed.

(** Below a node whose key has length [B - d] at least, where [B] bounds
    the keys of the tree, the subtree has depth [d] at most. *)
Lemma subtree_nodes_exists h r B :
  wf h r -> (forall a s, path h r a s -> length s <= B) ->
  forall d a s, path h r a s -> B <= length s + d ->
    exists l, subtree_nodes (S d) h a = Some l.
Proof.
  intros Hwf HB. induction d as [|d IH]; intros a s Hp Hd.
  - destruct (path_node h r a s Hwf Hp) as (n & ? & Hn & _).
    assert (forall rest i, drop i (sons n) = rest ->
              sons_nodes (subtree_nodes 0 h) h a i rest = Some []) as Hin.
    { induction rest as [|[c|] rest IHr]; intros i Hdrop; [done| |].
      - exfalso. destruct (drop_cons_inv _ _ _ _ Hdrop) as (Hson & _).
        destruct (son_edge h r a n i c Hwf Hn Hson) as (m & lbl & _ & _ & _ & Hv & _ & _ & He).
        pose proof (HB c _ (path_step _ _ _ _ _ _ Hp He)) as Hlen.
        rewrite length_app in Hlen. destruct Hv as [Hne _].
        destruct lbl; [done|]. simpl in Hlen. lia.
      - destruct (drop_cons_inv _ _ _ _ Hdrop) as (_ & Hdrop' & _). simpl. now apply IHr. }
    exists ([] ++ [a]). simpl. rewrite Hn.
    rewrite decide_True by exact (wf_len _ _ Hwf _ _ Hn). now rewrite (Hin _ 0).
  - destruct (path_node h r a s Hwf Hp) as (n & ? & Hn & _).
    assert (forall rest i, drop i (sons n) = rest ->
              exists ls, sons_nodes (subtree_nodes (S d) h) h a i rest = Some ls) as Hin.
    { induction rest as [|[c|] rest IHr]; intros i Hdrop; [by exists []| |].
      - destruct (drop_cons_inv _ _ _ _ Hdrop) as (Hson & Hdrop' & _).
        destruct (son_edge h r a n i c Hwf Hn Hson)
          as (m & lbl & Hc & Hl & Hf & Hv & _ & Hcv & He).
        destruct (IH c (s ++ lbl) (path_step _ _ _ _ _ _ Hp He)) as [lc Hlc].
        { rewrite length_app. destruct Hv as [Hne _]. destruct lbl; [done|].
          simpl. lia. }
        destruct (IHr (S i) Hdrop') as [ls Hls].
        exists (lc ++ ls). cbn [sons_nodes]. rewrite Hc, Hl.
        rewrite decide_True by done. now rewrite Hlc, Hls.
      - destruct (drop_cons_inv _ _ _ _ Hdrop) as (_ & Hdrop' & _). simpl. now apply IHr. }
    destruct (Hin (sons n) 0 eq_refl) as [ls Hls].
    exists (ls ++ [a]). rewrite subtree_nodes_S, Hn.
    rewrite decide_True by exact (wf_len _ _ Hwf _ _ Hn). now rewrite Hls.
Qed.

Lemma edge_of_son h r a c m lbl :
  wf h r -> h !! c = Some m -> txt m = Some lbl -> father m = Some a ->
  edge h a c lbl.
Proof.
  intros Hwf Hc Hl Hf.
  assert (c <> r) as Hcr.
  { intros ->. destruct (wf_root _ _ Hwf) as (n & Hn & _ & Hfn). congruence. }
  destruct (node_label h r c m Hwf Hc Hcr) as (p & s & l & _ & He & Hl' & _).
  destruct (edge_father _ _ _ _ _ Hwf He) as (m' & Hm' & Hf').
  assert (p = a) as -> by congruence. assert (l = lbl) as -> by congruence. done.
Qed.

(** The key of a node of a subtree extends the key of the top of the
    subtree. *)
Lemma subtree_path h r :
  wf h r ->
  forall f a l s, subtree_nodes f h a = Some l -> path h r a s ->
    forall x, x ∈ l -> exists u, path h r x (s ++ u).
Proof.
  intros Hwf. induction f as [|f IH]; intros a l s Hl Hp x Hx; [done|].
  destruct (subtree_nodes_inv _ _ _ _ Hl) as (f' & n & ls & [= <-] & Hn & Hlen & Hs & ->).
  apply elem_of_app in Hx as [Hx|Hx%list_elem_of_singleton];
    [|subst x; exists []; now rewrite app_nil_r].
  clear Hl. revert ls Hs Hx. generalize 0 as i. generalize (sons n) as rest.
  induction rest as [|[c|] rest IHr]; intros i ls Hs Hx.
  - injection Hs as <-. by apply elem_of_nil in Hx.
  - destruct (sons_nodes_cons_inv _ _ _ _ _ _ _ Hs)
      as (m & lbl & lc & ls' & Hc & Hlbl & Hf & Hcv & Hrec & Hrest & ->).
    apply elem_of_app in Hx as [Hx|Hx]; [|exact (IHr _ _ Hrest Hx)].
    pose proof (edge_of_son h r a c m lbl Hwf Hc Hlbl Hf) as He.
    destruct (IH c lc (s ++ lbl) Hrec (path_step _ _ _ _ _ _ Hp He) x Hx) as [u Hu].
    exists (lbl ++ u). now rewrite app_assoc.
  - simpl in Hs. exact (IHr _ _ Hs Hx).
Qed.

(** Below the slots from [i] on, the key goes on with a label of one of
    these slots. *)
Lemma sons_path h r f a s :
  wf h r -> path h r a s ->
  forall rest i ls, sons_nodes (subtree_nodes f h) h a i rest = Some ls ->
    forall x, x ∈ ls ->
      exists j lbl u, i <= j /\ valid_label lbl
        /\ radixTreeConvertCharToNumber (first_char lbl) = Z.of_nat j
        /\ path h r x ((s ++ lbl) ++ u).
Proof.
  intros Hwf Hp. induction rest as [|[c|] rest IHr]; intros i ls Hs x Hx.
  - injection Hs as <-. by apply elem_of_nil in Hx.
  - destruct (sons_nodes_cons_inv _ _ _ _ _ _ _ Hs)
      as (m & lbl & lc & ls' & Hc & Hlbl & Hf & Hcv & Hrec & Hrest & ->).
    apply elem_of_app in Hx as [Hx|Hx].
    + pose proof (edge_of_son h r a c m lbl Hwf Hc Hlbl Hf) as He.
      destruct (subtree_path h r Hwf f c lc (s ++ lbl) Hrec (path_step _ _ _ _ _ _ Hp He) x Hx)
        as [u Hu].
      exists i, lbl, u. split; [lia|]. split; [exact (edge_label _ _ _ _ _ Hwf He)|done].
    + destruct (IHr _ _ Hrest x Hx) as (j & lbl' & u & Hj & Hrest').
      exists j, lbl', u. split; [lia|done].
  - simpl in Hs. destruct (IHr _ _ Hs x Hx) as (j & lbl' & u & Hj & Hrest').
    exists j, lbl', u. split; [lia|done].
Qed.

Lemma subtree_NoDup h r :
  wf h r ->
  forall f a l s, subtree_nodes f h a = Some l -> path h r a s -> NoDup l.
Proof.
  intros Hwf. induction f as [|f IH]; intros a l s Hl Hp; [done|].
  destruct (subtree_nodes_inv _ _ _ _ Hl) as (f' & n & ls & [= <-] & Hn & Hlen & Hs & ->).
  apply NoDup_app. split; [|split; [|apply NoDup_singleton]].
  - clear Hl. revert ls Hs. generalize 0 as i. generalize (sons n) as rest.
    induction rest as [|[c|] rest IHr]; intros i ls Hs.
    + injection Hs as <-. constructor.
    + destruct (sons_nodes_cons_inv _ _ _ _ _ _ _ Hs)
        as (m & lbl & lc & ls' & Hc & Hlbl & Hf & Hcv & Hrec & Hrest & ->).
      pose proof (edge_of_son h r a c m lbl Hwf Hc Hlbl Hf) as He.
      pose proof (edge_label _ _ _ _ _ Hwf He) as Hv.
      apply NoDup_app. split; [|split; [|exact (IHr _ _ Hrest)]].
      * exact (IH c lc (s ++ lbl) Hrec (path_step _ _ _ _ _ _ Hp He)).
      * intros x Hx Hx'.
        destruct (subtree_path h r Hwf f c lc (s ++ lbl) Hrec
                    (path_step _ _ _ _ _ _ Hp He) x Hx) as [u Hu].
        destruct (sons_path h r f a s Hwf Hp rest (S i) ls' Hrest x Hx')
          as (j & lbl' & u' & Hj & Hv' & Hcv' & Hu').
        pose proof (path_unique h r x _ _ Hwf Hu Hu') as E.
        rewrite <- !app_assoc in E. apply app_inv_head in E.
        destruct Hv as [Hne _], Hv' as [Hne' _].
        destruct lbl as [|c0 lbl]; [done|]. destruct lbl' as [|c1 lbl']; [done|].
        simpl in E. injection E as -> _. simpl in Hcv, Hcv'. lia.
    + simpl in Hs. exact (IHr _ _ Hs).
  - intros x Hx Hx'%list_elem_of_singleton. subst x.
    destruct (sons_path h r f a s Hwf Hp (sons n) 0 ls Hs a Hx)
      as (j & lbl & u & _ & [Hne _] & _ & Hu).
    pose proof (path_unique h r a _ _ Hwf Hp Hu) as E.
    apply (f_equal length) in E. rewrite !length_app in E.
    destruct lbl; [done|]. simpl in E. lia.
Qed.

(** Below the top of a subtree every node has its father in the subtree. *)
Lemma subtree_father f :
  forall h a l, subtree_nodes f h a = Some l ->
    forall x, x ∈ l -> x <> a ->
      exists m y, h !! x = Some m /\ father m = Some y /\ y ∈ l.
Proof.
  induction f as [|f IH]; intros h a l Hl x Hx Hxa; [done|].
  destruct (subtree_nodes_inv _ _ _ _ Hl) as (f' & n & ls & [= <-] & Hn & Hlen & Hs & ->).
  apply elem_of_app in Hx as [Hx|Hx%list_elem_of_singleton]; [|done].
  assert (exists m y, h !! x = Some m /\ father m = Some y /\ (y ∈ ls \/ y = a)) as Hgoal.
  { clear Hl. revert ls Hs Hx. generalize 0 as i. generalize (sons n) as rest.
    induction rest as [|[c|] rest IHr]; intros i ls Hs Hx.
    - injection Hs as <-. by apply elem_of_nil in Hx.
    - destruct (sons_nodes_cons_inv _ _ _ _ _ _ _ Hs)
        as (m & lbl & lc & ls' & Hc & Hlbl & Hf & Hcv & Hrec & Hrest & ->).
      apply elem_of_app in Hx as [Hx|Hx].
      + destruct (decide (x = c)) as [->|Hxc]; [exists m, a; eauto|].
        destruct (IH h c lc Hrec x Hx Hxc) as (mx & y & Hmx & Hfx & Hy).
        exists mx, y. do 2 (split; [done|]). left. in_list.
      + destruct (IHr _ _ Hrest Hx) as (mx & y & Hmx & Hfx & Hy).
        exists mx, y. do 2 (split; [done|]). destruct Hy; [left; in_list|now right].
    - simpl in Hs. exact (IHr _ _ Hs Hx). }
  destruct Hgoal as (m & y & Hm & Hf & Hy). exists m, y. do 2 (split; [done|]).
  destruct Hy; in_list.
Qed.

Lemma isRoot_lookup h a n :
  h !! a = Some n ->
  radixTreeIsRoot h a
  = Ok (match txt n with
        | Some t => bool_decide (t = RADIX_TREE_ROOT_TXT)
        | None => false
        end).
Proof. intros Ha. unfold radixTreeIsRoot. now rewrite (load_Some _ _ _ Ha). Qed.

(** What the finalizer has been called with, in order. *)
Lemma finalized_events h l : finalized (events h l) = omap (payload h) l.
Proof.
  unfold finalized, events. induction l as [|x l IH]; [done|].
  simpl. rewrite omap_app, IH. unfold node_events, payload, fin_events.
  destruct (h !! x) as [n|]; [|done]. now destruct (data n).
Qed.

Lemma father_not_in_subtree h r f N n l p :
  wf h r -> subtree_nodes f h N = Some l -> h !! N = Some n -> father n = Some p ->
  p ∉ l.
Proof.
  intros Hwf Hl Hn Hf Hp.
  assert (N <> r) as HNr.
  { intros ->. destruct (wf_root _ _ Hwf) as (n' & Hn' & _ & Hfn). congruence. }
  destruct (node_label h r N n Hwf Hn HNr) as (p' & sp & lbl & Hsp & He & Hlbl & [Hne _]).
  destruct (edge_father _ _ _ _ _ Hwf He) as (m' & Hm' & Hf').
  assert (p' = p) as -> by congruence.
  destruct (subtree_path h r Hwf f N l (sp ++ lbl) Hl (path_step _ _ _ _ _ _ Hsp He) p Hp)
    as [u Hu].
  pose proof (path_unique h r p _ _ Hwf Hsp Hu) as E.
  apply (f_equal length) in E. rewrite !length_app in E.
  destruct lbl; [done|]. simpl in E. lia.
Qed.

(** C4. [radixTreeDeleteSubTree] at a node [N] of a well-formed tree tears
    down the subtree of [N] in post-order. With [l] the nodes of the
    subtree in post-order, [N] last and no node twice, the calls of the
    finalizer and of [free] are those of [events h l]: for each node of [l]
    in turn the finalizer on its payload, when it has one, and then its
    release; so the finalizer gets the payloads of the nodes of [l], each
    once and in this order. Afterwards no node of [l] is allocated, no node
    left has a son in [l], and the nodes outside [l] other than the father
    of [N] are untouched. *)
Theorem deleteSubTree_postorder h o tr r N n :
  wf h r -> h !! N = Some n ->
  exists l,
    (exists f, subtree_nodes f h N = Some l) /\ NoDup l /\ last l = Some N
    /\ finalized (events h l) = omap (payload h) l
    /\ exists k, forall fuel, k <= fuel ->
       exists h',
         radixTreeDeleteSubTree fuel N (mkState h o tr)
         = Ok (tt, mkState h' o (tr ++ events h l))
         /\ (forall x, x ∈ l -> h' !! x = None)
         /\ (forall y m j x, h' !! y = Some m -> sons m !! j = Some (Some x) -> x ∉ l)
         /\ (forall x, x ∉ l -> father n <> Some x -> h' !! x = h !! x).
Proof.
  intros Hwf Hn.
  destruct (path_bound h r Hwf) as [B HB].
  destruct (wf_reach _ _ Hwf N ltac:(eauto)) as [sN HsN].
  destruct (subtree_nodes_exists h r B Hwf HB B N sN HsN ltac:(lia)) as [l Hl].
  pose proof (subtree_NoDup h r Hwf _ _ _ _ Hl HsN) as Hnd.
  destruct (delete_loop_run _ h o tr N n l Hl Hnd Hn)
    as (k & h2 & ls & -> & (HN2 & Hgone & Hsame) & Hrun).
  exists (ls ++ [N]). split; [eauto|]. split; [done|]. split; [apply last_snoc|].
  split; [apply finalized_events|].
  exists k. intros fuel Hfuel. unfold radixTreeDeleteSubTree. rewrite Hrun by done.
  assert (events h (ls ++ [N]) = events h ls ++ fin_events n ++ [EvFree N]) as Hev.
  { rewrite events_app. f_equal. change (events h [N]) with (node_events h N ++ []).
    unfold node_events. now rewrite Hn, app_nil_r. }
  assert (forall y m j x, h !! y = Some m -> sons m !! j = Some (Some x) ->
            x ∈ ls ++ [N] -> y ∉ ls ++ [N] ->
            x = N /\ father n = Some y /\ exists lbl, txt n = Some lbl
                                          /\ slot (first_char lbl) = j) as Hpoint.
  { intros y m j x Hy Hj Hx Hyl.
    destruct (wf_son _ _ Hwf _ _ _ _ Hy Hj) as (mx & lbl & Hmx & Hlx & _ & Hsl & Hfx).
    destruct (decide (x = N)) as [->|HxN].
    - assert (mx = n) as -> by congruence. eauto.
    - destruct (subtree_father _ h N _ Hl x Hx HxN) as (mx' & y' & Hmx' & Hfx' & Hy').
      exfalso. apply Hyl. congruence. }
  destruct (decide (N = r)) as [->|HNr].
  - (* the whole tree *)
    destruct (wf_root _ _ Hwf) as (n' & Hn' & Ht & Hf).
    assert (n' = n) as -> by congruence.
    cbn [bind rd heap]. rewrite (isRoot_lookup _ _ _ HN2). cbn [txt].
    rewrite Ht. rewrite bool_decide_true by done. cbn [negb bind ret].
    erewrite freeNode_run; [|exact HN2|now left].
    exists (delete r h2). rewrite Hev, <- !app_assoc. split; [done|].
    split; [|split].
    + intros x Hx. destruct (decide (x = r)) as [->|Hxr]; [apply lookup_delete_eq|].
      rewrite lookup_delete_ne by done. apply Hgone. revert Hx Hxr. clear. in_list.
    + intros y m j x Hy Hj Hx.
      assert (y <> r) as Hyr by (intros ->; now rewrite lookup_delete_eq in Hy).
      rewrite lookup_delete_ne in Hy by done.
      assert (y ∉ ls ++ [r]) as Hyl.
      { intros Hyl. rewrite Hgone in Hy; [done|]. revert Hyl Hyr. clear. in_list. }
      rewrite Hsame in Hy by (try done; revert Hyl; clear; in_list).
      destruct (Hpoint y m j x Hy Hj Hx Hyl) as (_ & Hfy & _). congruence.
    + intros x Hx _. assert (x <> r) as Hxr by (intros ->; apply Hx; in_list).
      rewrite lookup_delete_ne by done. apply Hsame; [done|]. revert Hx. clear. in_list.
  - (* a proper subtree *)
    destruct (node_label h r N n Hwf Hn HNr) as (p & sp & lbl & Hsp & He & Hlbl & Hv).
    destruct (edge_father _ _ _ _ _ Hwf He) as (n' & Hn' & Hf).
    assert (n' = n) as -> by congruence.
    pose proof (father_not_in_subtree h r _ N n _ p Hwf Hl Hn Hf) as Hpl.
    destruct He as (np & nN & Hp & Hson & _).
    assert (p <> N) as HpN by (intros ->; apply Hpl; in_list).
    assert (h2 !! p = Some np) as Hp2.
    { rewrite Hsame; [done|done|]. revert Hpl. clear. in_list. }
    cbn [bind rd heap]. rewrite (isRoot_lookup _ _ _ HN2). cbn [txt].
    rewrite Hlbl.
    rewrite bool_decide_false by (now apply valid_label_not_root).
    cbn [negb bind rd heap lift nonnull]. rewrite (load_Some _ _ _ HN2). cbn [txt].
    rewrite Hlbl. cbn [father]. rewrite Hf. cbn [bind nonnull].
    erewrite changeSon_run;
      [|exact Hp2|now apply first_char_valid|exact (wf_len _ _ Hwf _ _ Hp)].
    cbn [bind].
    erewrite freeNode_run; [|rewrite lookup_insert_ne by done; exact HN2|now left].
    eexists. rewrite Hev, <- !app_assoc. split; [reflexivity|].
    split; [|split].
    + intros x Hx. destruct (decide (x = N)) as [->|HxN]; [apply lookup_delete_eq|].
      rewrite lookup_delete_ne by done.
      rewrite lookup_insert_ne by (intros ->; done).
      apply Hgone. revert Hx HxN. clear. in_list.
    + intros y m j x Hy Hj Hx.
      assert (y <> N) as HyN by (intros ->; now rewrite lookup_delete_eq in Hy).
      rewrite lookup_delete_ne in Hy by done.
      assert (y ∉ ls ++ [N]) as Hyl.
      { intros Hyl. destruct (decide (y = p)) as [->|Hyp]; [done|].
        rewrite lookup_insert_ne in Hy by done.
        rewrite Hgone in Hy; [done|]. revert Hyl HyN. clear. in_list. }
      destruct (decide (y = p)) as [->|Hyp].
      * rewrite lookup_insert_eq in Hy. injection Hy as <-. simpl in Hj.
        apply list_lookup_insert_Some in Hj as [(_ & [=] & _)|(Hne & Hj)].
        destruct (Hpoint p np j x Hp Hj Hx Hyl) as (_ & _ & lbl' & Hlbl' & Hsl).
        apply Hne. congruence.
      * rewrite lookup_insert_ne in Hy by done.
        rewrite Hsame in Hy by (try done; revert Hyl; clear; in_list).
        destruct (Hpoint y m j x Hy Hj Hx Hyl) as (_ & Hfy & _). congruence.
    + intros x Hx Hxp. assert (x <> N) as HxN by (intros ->; apply Hx; in_list).
      rewrite lookup_delete_ne by done.
      rewrite lookup_insert_ne by (intros ->; congruence).
      apply Hsame; [done|]. revert Hx. clear. in_list.
Qed.

(** ** Compaction *)

(** C5 (as the code has it). At a node that branches or holds a payload
    [radixTreeBalance] counts one skipped node and goes on with the father
    of the node; the loop is left only at the root or once more than
    [canSkip] nodes have been skipped. *)
Theorem balance_skips_and_climbs h o tr pos n l skipped fuel :
  h !! pos = Some n -> txt n = Some l -> l <> RADIX_TREE_ROOT_TXT ->
  length (sons n) = RADIX_TREE_NUMBER_OF_SONS ->
  data n <> None \/ 2 <= length (filter (fun o => o <> None) (sons n)) ->
  skipped <= canSkip ->
  balance_step pos skipped (mkState h o tr) = Ok ((father n, S skipped), mkState h o tr)
  /\ balance_loop (S fuel) (Some pos) skipped (mkState h o tr)
     = balance_loop fuel (father n) (S skipped) (mkState h o tr)
  /\ forall p k,
       radixTreeIsRoot h p = Ok true \/ (is_Some (h !! p) /\ canSkip < k) ->
       balance_loop (S fuel) (Some p) k (mkState h o tr)
       = Ok ((Some p, k), mkState h o tr).
Proof.
  intros Hn Hl Hroot Hlen Hbusy Hskip.
  assert (radixTreeIsRoot h pos = Ok false) as Hr.
  { rewrite (isRoot_lookup _ _ _ Hn), Hl. now rewrite bool_decide_false. }
  assert (radixTreeHowManySons h pos
          = Ok (length (filter (fun o => o <> None) (sons n)))) as Hk.
  { unfold radixTreeHowManySons. rewrite (load_Some _ _ _ Hn). cbn [bindR].
    now rewrite decide_True. }
  assert (radixTreeIsNodeRedundant h pos = Ok false) as Hred.
  { unfold radixTreeIsNodeRedundant, radixTreeHasSons. rewrite Hr, Hk. cbn [bindR negb].
    rewrite (load_Some _ _ _ Hn). cbn [bindR].
    destruct Hbusy as [Hd|Hb].
    - destruct (length (filter _ (sons n))) as [|k]; cbn [Nat.eqb negb]; [|done].
      now rewrite bool_decide_false.
    - destruct (length (filter _ (sons n))) as [|k]; [lia|done]. }
  assert (radixTreeCanBeMergedWithSon h pos = Ok false) as Hmer.
  { unfold radixTreeCanBeMergedWithSon. rewrite Hr, Hk. cbn [bindR negb].
    rewrite (load_Some _ _ _ Hn). cbn [bindR].
    destruct Hbusy as [Hd|Hb].
    - destruct (length (filter _ (sons n)) =? 1); [|done]. now rewrite bool_decide_false.
    - destruct (length (filter _ (sons n))) as [|[|k]]; [lia|lia|done]. }
  assert (balance_step pos skipped (mkState h o tr)
          = Ok ((father n, S skipped), mkState h o tr)) as Hstep.
  { unfold balance_step. cbn [bind rd heap]. rewrite (load_Some _ _ _ Hn). cbn [bind rd heap].
    rewrite Hred. cbn [bind rd heap]. rewrite Hmer. reflexivity. }
  split; [exact Hstep|]. split.
  - cbn [balance_loop bind lift rd nonnull heap]. rewrite Hr. cbn [negb andb].
    destruct (Nat.leb_spec skipped canSkip) as [_|?]; [|lia]. cbn [bind].
    rewrite Hstep. reflexivity.
  - intros p k [Hp|[[m Hm] Hgt]]; cbn [balance_loop bind lift rd nonnull heap].
    + rewrite Hp. reflexivity.
    + rewrite (isRoot_lookup _ _ _ Hm).
      destruct (Nat.leb_spec k canSkip) as [?|_]; [lia|]. now rewrite andb_false_r.
Qed.

(** The code of [radixTreeMerge] has no path that returns
    RADIX_TREE_OPERATION_SUCCESS. *)
Lemma merge_never_reports_success a b s res s' :
  radixTreeMerge a b s = Ok (res, s') -> res <> Some RADIX_TREE_OPERATION_SUCCESS.
Proof.
  destruct s as [h o tr]. unfold radixTreeMerge, radixTreeChangeSon, radixTreeFreeNode.
  msimpl.
  repeat match goal with
         | |- context [match ?x with _ => _ end] =>
             destruct x eqn:?; msimpl; try done; try (now intros [= <- _])
         end.
Qed.

(** When the allocation of [radixTreeMerge] fails at a node that can be
    merged with its son, the turn of the loop changes nothing but the
    count of skipped nodes. *)
Lemma balance_step_merge_fails h o tr pos n la b nb lb skipped :
  h !! pos = Some n -> txt n = Some la -> la <> RADIX_TREE_ROOT_TXT ->
  length (sons n) = RADIX_TREE_NUMBER_OF_SONS ->
  data n = None -> filter (fun o => o <> None) (sons n) = [Some b] ->
  h !! b = Some nb -> txt nb = Some lb -> hd true o = false ->
  balance_step pos skipped (mkState h o tr)
  = Ok ((father n, S skipped), mkState h (tail o) tr).
Proof.
  intros Hn Hla Hroot Hlen Hd Hsons Hb Hlb Ho.
  assert (radixTreeIsRoot h pos = Ok false) as Hr.
  { rewrite (isRoot_lookup _ _ _ Hn), Hla. now rewrite bool_decide_false. }
  assert (radixTreeHowManySons h pos = Ok 1) as Hk.
  { unfold radixTreeHowManySons. rewrite (load_Some _ _ _ Hn). cbn [bindR].
    rewrite decide_True by done. now rewrite Hsons. }
  assert (radixTreeIsNodeRedundant h pos = Ok false) as Hred.
  { unfold radixTreeIsNodeRedundant, radixTreeHasSons. now rewrite Hr, Hk. }
  assert (radixTreeCanBeMergedWithSon h pos = Ok true) as Hmer.
  { unfold radixTreeCanBeMergedWithSon. rewrite Hr, Hk. cbn [bindR negb Nat.eqb].
    rewrite (load_Some _ _ _ Hn). cbn [bindR]. now rewrite Hd. }
  assert (radixTreeFristSon h pos = Ok (Some b)) as Hson.
  { unfold radixTreeFristSon. rewrite (load_Some _ _ _ Hn). cbn [bindR].
    rewrite decide_True by done. now rewrite Hsons. }
  assert (radixTreeMerge pos (Some b) (mkState h o tr)
          = Ok (Some RADIX_TREE_OPERATION_FAIL, mkState h (tail o) tr)) as Hmerge.
  { unfold radixTreeMerge. cbn [bind rd lift heap]. rewrite (load_Some _ _ _ Hn).
    cbn [bind rd lift heap]. rewrite Hla. cbn [bind rd lift heap nonnull].
    rewrite (load_Some _ _ _ Hb). cbn [bind rd lift heap]. rewrite Hlb.
    cbn [bind rd lift heap nonnull]. rewrite malloc_run, Ho. reflexivity. }
  unfold balance_step. cbn [bind rd heap]. rewrite (load_Some _ _ _ Hn).
  cbn [bind rd heap]. rewrite Hred. cbn [bind rd heap]. rewrite Hmer.
  cbn [bind rd heap]. rewrite Hson. cbn [bind]. rewrite Hmerge. reflexivity.
Qed.

(** * Further properties of the module *)

(** ** What a lookup tells *)

Lemma match_txt_key_prefix k u i : match_txt (k ++ u) k i = (i + length k, []).
Proof.
  revert i. induction k as [|c k IH]; intros i; simpl.
  - destruct u; simpl; f_equal; lia.
  - rewrite bool_decide_true by done. rewrite IH. f_equal. lia.
Qed.

Lemma match_txt_mismatch l i c t0 k :
  i < length l -> l !! i <> Some c ->
  match_txt l (take i l ++ c :: t0) k = (k + i, c :: t0).
Proof.
  revert i k. induction l as [|a l IH]; intros i k Hi Hne; simpl in *; [lia|].
  destruct i as [|i]; simpl.
  - rewrite bool_decide_false by (intros ->; now apply Hne). f_equal. lia.
  - rewrite bool_decide_true by done. rewrite IH by (try done; lia). f_equal. lia.
Qed.

(** A key that starts the key of some node is matched to its end. *)
Lemma find_key_prefix h r x W :
  wf h r -> path h r x W ->
  forall K u fuel, W = K ++ u -> length K < fuel ->
  exists st q i, radixTreeFind fuel h r K = Ok (st, q, [], i)
                 /\ st <> RADIX_TREE_NOT_FOUND.
Proof.
  intros Hwf. induction 1 as [|p c s l Hp IH He]; intros K u fuel HW Hfuel.
  - symmetry in HW. apply app_eq_nil in HW as [-> ->].
    destruct (find_path h r r [] fuel Hwf (path_root _ _) Hfuel) as (n & l & _ & _ & Hrun).
    eexists _, _, _. split; [exact Hrun|done].
  - apply app_eq_inv in HW as [(k & -> & ->)|(k & -> & Hl)]; [now apply (IH K k)|].
    destruct k as [|a k].
    { rewrite app_nil_r in Hfuel |- *. apply (IH s []); [now rewrite app_nil_r|done]. }
    pose proof (edge_label _ _ _ _ _ Hwf He) as Hv.
    destruct (find_loop_path h r Hwf p s Hp (a :: k) fuel Hfuel)
      as (n & lp & nr & lr & fuel' & Hn & Hlp & Hr & Hlr & Hf & Hrun).
    destruct He as (np & m & Hnp & Hs & Hc & Hm).
    assert (np = n) as -> by congruence.
    assert (first_char l = a) as Hfc by (now rewrite Hl).
    destruct fuel' as [|fuel']; [simpl in Hf; lia|].
    assert (find_loop (S fuel') h p (a :: k) (length lp) = Ok (c, [], length (a :: k))) as Hloop.
    { cbn [find_loop].
      rewrite (move_down h p n c m l (a :: k) (length lp)); try done.
      - rewrite Hl, (match_txt_key_prefix (a :: k) u 0). cbn [fst snd bindR].
        case_decide; [|reflexivity]. now destruct fuel'.
      - cbn [first_char]. rewrite <- Hfc. now apply first_char_valid.
      - cbn [first_char]. now rewrite <- Hfc. }
    unfold radixTreeFind. rewrite (load_Some _ _ _ Hr). cbn [bindR]. rewrite Hlr.
    cbn [nonnull bindR]. unfold stringEnd. rewrite Hrun, Hloop. cbn [bindR].
    rewrite (load_Some _ _ _ Hc). cbn [bindR]. rewrite Hm. cbn [nonnull bindR].
    rewrite decide_False by (rewrite Hl, length_app; lia).
    rewrite (bool_decide_true ([] = [])) by done. rewrite andb_true_r.
    case_bool_decide; eexists _, _, _; (split; [reflexivity|done]).
Qed.

(** The lookup of a key that leaves a label in the middle of it. *)
Lemma find_mismatch h r p s q l i c t0 fuel :
  wf h r -> path h r p s -> edge h p q l -> 0 < i < length l -> l !! i <> Some c ->
  length (s ++ take i l ++ c :: t0) < fuel ->
  radixTreeFind fuel h r (s ++ take i l ++ c :: t0)
  = Ok (RADIX_TREE_NOT_FOUND, q, c :: t0, i).
Proof.
  intros Hwf Hp He Hi Hne Hfuel.
  pose proof (edge_label _ _ _ _ _ Hwf He) as Hv.
  destruct (find_loop_path h r Hwf p s Hp (take i l ++ c :: t0) fuel Hfuel)
    as (n & lp & nr & lr & fuel' & Hn & Hlp & Hr & Hlr & Hf & Hrun).
  destruct He as (np & m & Hnp & Hs & Hc & Hm).
  assert (np = n) as -> by congruence.
  assert (take i l ++ c :: t0 <> []) as Hne' by (now destruct (take i l)).
  assert (first_char (take i l ++ c :: t0) = first_char l) as Hfc.
  { destruct l as [|a l]; [simpl in Hi; lia|]. destruct i; [lia|]. done. }
  destruct fuel' as [|fuel']; [lia|].
  assert (find_loop (S fuel') h p (take i l ++ c :: t0) (length lp) = Ok (q, c :: t0, i))
    as Hloop.
  { assert (forall t, t <> [] ->
              find_loop (S fuel') h p t (length lp)
              = let* pat := radixTreeMove h p t (length lp) in
                match pat with
                | (RADIX_TREE_OPERATION_SUCCESS, p', t', i) => find_loop fuel' h p' t' i
                | (RADIX_TREE_OPERATION_FAIL, p', t', i) => Ok (p', t', i)
                end) as -> by (now intros [|]).
    2: done.
    rewrite (move_down h p n q m l _ (length lp)); try done.
    - rewrite (match_txt_mismatch l i c t0 0) by (try done; lia). cbn [fst snd bindR].
      now rewrite decide_False by lia.
    - rewrite Hfc. now apply first_char_valid.
    - now rewrite Hfc. }
  unfold radixTreeFind. rewrite (load_Some _ _ _ Hr). cbn [bindR]. rewrite Hlr.
  cbn [nonnull bindR]. unfold stringEnd. rewrite Hrun, Hloop. cbn [bindR].
  rewrite (load_Some _ _ _ Hc). cbn [bindR]. rewrite Hm. cbn [nonnull bindR].
  rewrite decide_False by lia. rewrite (bool_decide_false (i = length l)) by lia.
  now rewrite bool_decide_false by done.
Qed.

(** *** The text of a node *)

Lemma full_length_inv h r :
  wf h r ->
  forall a K, path h r a K ->
  forall fuel acc v, full_length fuel h (Some a) acc = Ok v -> v = acc + length K.
Proof.
  intros Hwf. induction 1 as [|p c s l Hp IH He]; intros fuel acc v Hrun.
  - destruct fuel; [done|]. cbn [full_length nonnull bindR] in Hrun.
    rewrite (isRoot_root _ _ Hwf) in Hrun.
    cbn [bindR] in Hrun. injection Hrun as <-. simpl. lia.
  - pose proof (edge_label _ _ _ _ _ Hwf He) as Hv.
    destruct (edge_father _ _ _ _ _ Hwf He) as (m & Hm & Hf).
    destruct He as (n & m' & Hn & Hs & Hm' & Hl).
    assert (m' = m) as -> by congruence.
    destruct fuel; [done|]. cbn [full_length nonnull bindR] in Hrun.
    rewrite (isRoot_label _ _ _ _ Hm Hl Hv) in Hrun. cbn [bindR] in Hrun.
    unfold radixTreeHowManyChars, radixTreeFather in Hrun.
    rewrite (load_Some _ _ _ Hm) in Hrun. cbn [bindR] in Hrun. rewrite Hl, Hf in Hrun.
    cbn [nonnull bindR] in Hrun. apply IH in Hrun. rewrite length_app. lia.
Qed.

Lemma fill_text_inv h r :
  wf h r ->
  forall a K, path h r a K ->
  forall fuel pre post res, length pre = length K ->
    fill_text fuel h (Some a) (length K) (pre ++ post) = Ok res -> res = K ++ post.
Proof.
  intros Hwf. induction 1 as [|p c s l Hp IH He]; intros fuel pre post res Hpre Hrun.
  - destruct fuel; [done|]. cbn [fill_text nonnull bindR] in Hrun.
    rewrite (isRoot_root _ _ Hwf) in Hrun.
    cbn [bindR] in Hrun. destruct pre; [now injection Hrun as <-|simpl in Hpre; lia].
  - pose proof (edge_label _ _ _ _ _ Hwf He) as Hv.
    destruct (edge_father _ _ _ _ _ Hwf He) as (m & Hm & Hf).
    destruct He as (n & m' & Hn & Hs & Hm' & Hl).
    assert (m' = m) as -> by congruence.
    destruct fuel; [done|]. cbn [fill_text nonnull bindR] in Hrun.
    rewrite (isRoot_label _ _ _ _ Hm Hl Hv) in Hrun. cbn [bindR] in Hrun.
    rewrite (load_Some _ _ _ Hm) in Hrun. cbn [bindR] in Hrun.
    rewrite Hl in Hrun. cbn [nonnull bindR] in Hrun.
    rewrite length_app in Hpre, Hrun.
    rewrite decide_False in Hrun by lia.
    unfold radixTreeFather in Hrun. rewrite (load_Some _ _ _ Hm) in Hrun.
    cbn [bindR] in Hrun. rewrite Hf in Hrun.
    replace (length s + length l - length l) with (length s) in Hrun by lia.
    rewrite <- (take_drop (length s) pre), <- app_assoc in Hrun.
    assert (length (take (length s) pre) = length s) as Ht by (rewrite length_take; lia).
    pose proof (write_chars_spec l (take (length s) pre) (drop (length s) pre) post) as Hw.
    rewrite Ht in Hw. rewrite Hw in Hrun by (rewrite length_drop; lia).
    apply IH in Hrun; [|done]. now rewrite <- app_assoc.
Qed.

(** What [radixGetFullText] does at a node of a well-formed tree, whatever
    the fuel: it fails on its allocation, or it returns the key of the node. *)
Lemma getFullText_inv h o tr r a fuel res s' :
  wf h r ->
  radixGetFullText fuel a (mkState h o tr) = Ok (res, s') ->
  s' = mkState h (tail o) tr
  /\ (res = None /\ hd true o = false
      \/ exists K, res = Some K /\ hd true o = true /\ path h r a K).
Proof.
  intros Hwf. unfold radixGetFullText. cbn [bind rd heap].
  destruct (full_length fuel h (Some a) 0) as [len|] eqn:Hlen; [|done].
  assert (is_Some (h !! a)) as Ha.
  { destruct fuel; [done|]. simpl in Hlen. unfold radixTreeIsRoot, load in Hlen.
    destruct (h !! a); [eauto|done]. }
  destruct (wf_reach _ _ Hwf a Ha) as [K HK].
  pose proof (full_length_inv h r Hwf a K HK fuel 0 len Hlen) as ->. cbn [Nat.add].
  cbn [bind]. rewrite malloc_run. destruct (hd true o); cbn [negb bind rd ret heap].
  - destruct (fill_text fuel h (Some a) (length K) (replicate (length K) zero))
      as [res'|] eqn:Hfill; [|done].
    intros [= <- <-]. split; [done|]. right. exists K. split; [|done].
    rewrite <- (app_nil_r (replicate (length K) zero)) in Hfill.
    apply (fill_text_inv h r Hwf a K HK) in Hfill; [|now rewrite length_replicate].
    now rewrite app_nil_r in Hfill; subst.
  - intros [= <- <-]. split; [done|]. now left.
Qed.

Lemma path_node_unique h r a b K :
  wf h r -> path h r a K -> path h r b K -> a = b.
Proof.
  intros Hwf Ha Hb.
  destruct (find_path h r a K (S (length K)) Hwf Ha ltac:(lia)) as (? & ? & _ & _ & Ea).
  destruct (find_path h r b K (S (length K)) Hwf Hb ltac:(lia)) as (? & ? & _ & _ & Eb).
  congruence.
Qed.

Lemma getFullText_run h o tr r a K fuel :
  wf h r -> path h r a K -> length K < fuel ->
  radixGetFullText fuel a (mkState h o tr)
  = Ok (if hd true o then Some K else None, mkState h (tail o) tr).
Proof.
  intros Hwf Hp Hfuel. destruct (hd true o) eqn:Ho.
  - now apply (getFullText_path h o tr r a K fuel).
  - unfold radixGetFullText. cbn [bind rd heap].
    rewrite (full_length_path h r Hwf a K Hp fuel 0 Hfuel). cbn [bind].
    now rewrite malloc_run, Ho.
Qed.

(** X1. A lookup ends with FOUND at a node exactly when the key is the text
    that [radixGetFullText] reads back from that node. *)
Theorem found_iff_full_text h r K q fuel :
  wf h r -> valid_key K -> length K < fuel ->
  (exists t' i, radixTreeFind fuel h r K = Ok (RADIX_TREE_FOUND, q, t', i))
  <-> radixGetFullText fuel q (mkState h [] []) = Ok (Some K, mkState h [] []).
Proof.
  intros Hwf HK Hfuel. split.
  - intros (t' & i & Hrun).
    destruct (find_spec h r fuel K Hwf HK Hfuel)
      as (st & q' & t'' & i' & Hrun' & Hpost).
    rewrite Hrun in Hrun'. injection Hrun' as <- <- <- <-.
    destruct Hpost as [[(n & l & s & _ & _ & _ & Hp & -> & _) Hst]|[_ Hst]];
      [|now destruct t'].
    destruct t' as [|c t']; [|done]. rewrite app_nil_r in Hfuel |- *.
    now apply (getFullText_path h [] [] r q s fuel).
  - intros Hrun. destruct (getFullText_inv _ _ _ _ _ _ _ _ Hwf Hrun)
      as (_ & [[[=] _]|(K' & [= <-] & _ & Hp)]).
    destruct (find_path h r q K fuel Hwf Hp Hfuel) as (n & l & _ & _ & Hf). eauto.
Qed.

(** X2. A lookup ends with FOUND or SUBSTR exactly when the key starts the
    text of some node. With SUBSTR the match has stopped inside the label
    of the returned node, and what is left of that label completes the key
    to the text of the node. *)
Theorem find_tells_prefixes h r K fuel :
  wf h r -> valid_key K -> length K < fuel ->
  exists st q t' i,
    radixTreeFind fuel h r K = Ok (st, q, t', i)
    /\ (st <> RADIX_TREE_NOT_FOUND
        <-> exists a u f, radixGetFullText f a (mkState h [] [])
                          = Ok (Some (K ++ u), mkState h [] []))
    /\ (st = RADIX_TREE_SUBSTR ->
        exists k u,
          radixTreeHowManyChars h q = Ok k
          /\ radixTreeHowManyCharsOffset h q i = Ok i
          /\ 0 < i < k /\ length u = k - i
          /\ forall f, length (K ++ u) < f ->
               radixGetFullText f q (mkState h [] [])
               = Ok (Some (K ++ u), mkState h [] [])).
Proof.
  intros Hwf HK Hfuel.
  destruct (find_spec h r fuel K Hwf HK Hfuel) as (st & q & t' & i & Hrun & Hpost).
  exists st, q, t', i. split; [exact Hrun|]. split; [split|].
  - intros Hst.
    destruct Hpost as [[(n & l & s & _ & _ & _ & Hp & -> & _) ->]
                      |[(n & l & p & s & Hq & Hl & Hi & Hp & He & -> & _) ->]];
      (destruct t' as [|c t']; [|done]).
    + exists q, [], (S (length s)). rewrite !app_nil_r.
      apply (getFullText_path h [] [] r q s); try done. lia.
    + exists q, (drop i l), (S (length (s ++ l))).
      rewrite app_nil_r, <- app_assoc, take_drop.
      apply (getFullText_path h [] [] r q (s ++ l)); try done; [|lia].
      eapply path_step; eauto.
  - intros (a & u & f & Hget).
    destruct (getFullText_inv _ _ _ _ _ _ _ _ Hwf Hget)
      as (_ & [[[=] _]|(K' & [= <-] & _ & Hp)]).
    destruct (find_key_prefix h r a (K ++ u) Hwf Hp K u fuel eq_refl Hfuel)
      as (st' & q' & i' & Hrun' & Hst').
    congruence.
  - intros ->.
    destruct Hpost as [[_ Hst]|[(n & l & p & s & Hq & Hl & Hi & Hp & He & -> & _) Hst]];
      [now destruct t'|].
    destruct t' as [|c t']; [|done].
    exists (length l), (drop i l).
    unfold radixTreeHowManyChars, radixTreeHowManyCharsOffset.
    rewrite (load_Some _ _ _ Hq). cbn [bindR]. rewrite Hl. cbn [nonnull bindR].
    split; [done|]. split; [now rewrite decide_False by lia|]. split; [done|].
    split; [now rewrite length_drop|].
    intros f Hf. rewrite app_nil_r, <- app_assoc, take_drop in Hf |- *.
    apply (getFullText_path h [] [] r q (s ++ l)); try done.
    eapply path_step; eauto.
Qed.

(** X3. A lookup matches the longest start of the key that starts the text
    of a node: the matched part [m] starts the text of the returned node,
    [i] characters into its label, and when something of the key is left,
    [m] with the next character of the key starts the text of no node. *)
Theorem find_matches_longest_prefix h r K fuel :
  wf h r -> valid_key K -> length K < fuel ->
  exists st q t' i m v,
    radixTreeFind fuel h r K = Ok (st, q, t', i)
    /\ K = m ++ t'
    /\ (st = RADIX_TREE_NOT_FOUND <-> t' <> [])
    /\ radixTreeHowManyChars h q = Ok (i + length v)
    /\ (forall f, length (m ++ v) < f ->
          radixGetFullText f q (mkState h [] [])
          = Ok (Some (m ++ v), mkState h [] []))
    /\ forall c t0 a W f,
         t' = c :: t0 ->
         radixGetFullText f a (mkState h [] []) = Ok (Some W, mkState h [] []) ->
         ~ (m ++ [c]) `prefix_of` W.
Proof.
  intros Hwf HK Hfuel.
  destruct (find_spec h r fuel K Hwf HK Hfuel) as (st & q & t' & i & Hrun & Hpost).
  assert (forall m c t0,
            K = m ++ c :: t0 ->
            radixTreeFind (S (length (m ++ [c]))) h r (m ++ [c])
            = Ok (RADIX_TREE_NOT_FOUND, q, [c], i) ->
            forall a W f,
              radixGetFullText f a (mkState h [] []) = Ok (Some W, mkState h [] []) ->
              ~ (m ++ [c]) `prefix_of` W) as Hmax.
  { intros m c t0 HKm Hnf a W f Hget [w ->].
    destruct (getFullText_inv _ _ _ _ _ _ _ _ Hwf Hget)
      as (_ & [[[=] _]|(K' & [= <-] & _ & Hp)]).
    destruct (find_key_prefix h r a _ Hwf Hp (m ++ [c]) w _ eq_refl (Nat.lt_succ_diag_r _))
      as (st' & q' & i' & Hrun' & Hst').
    congruence. }
  destruct Hpost as [[(n & l & s & Hq & Hl & -> & Hp & -> & Hfree) ->]
                    |[(n & l & p & s & Hq & Hl & Hi & Hp & He & -> & Hmis) ->]].
  - exists (match t' with [] => RADIX_TREE_FOUND | _ => RADIX_TREE_NOT_FOUND end),
      q, t', (length l), s, [].
    split; [exact Hrun|]. split; [done|]. split; [now destruct t'|].
    split.
    { unfold radixTreeHowManyChars. rewrite (load_Some _ _ _ Hq). cbn [bindR].
      rewrite Hl. cbn [nonnull bindR length]. now rewrite Nat.add_0_r. }
    split.
    { intros f Hf. rewrite app_nil_r in Hf |- *.
      now apply (getFullText_path h [] [] r q s). }
    intros c t0 a W f ->. apply (Hmax s c t0 eq_refl).
    apply (find_missing_son h r q s n l c []); try done.
    + apply valid_key_app in HK as [_ HK]. now inversion HK.
    + now apply Hfree.
    + lia.
  - exists (match t' with [] => RADIX_TREE_SUBSTR | _ => RADIX_TREE_NOT_FOUND end),
      q, t', i, (s ++ take i l), (drop i l).
    split; [exact Hrun|]. split; [now rewrite <- app_assoc|]. split; [now destruct t'|].
    split.
    { unfold radixTreeHowManyChars. rewrite (load_Some _ _ _ Hq). cbn [bindR].
      rewrite Hl. cbn [nonnull bindR]. rewrite length_drop. do 2 f_equal. lia. }
    split.
    { intros f Hf. rewrite <- app_assoc, take_drop in Hf |- *.
      apply (getFullText_path h [] [] r q (s ++ l)); try done.
      eapply path_step; eauto. }
    intros c t0 a W f ->. apply (Hmax (s ++ take i l) c t0); [now rewrite <- app_assoc|].
    rewrite <- app_assoc.
    apply (find_mismatch h r p s q l i c []); try done.
    + now apply Hmis.
    + rewrite app_assoc. lia.
Qed.

(** X4. Every node of the tree has a text: [radixGetFullText] returns it, or
    NULL when its allocation fails, and leaves the tree as it is; a lookup
    of that text ends with FOUND at the node, at the end of its label. The
    text is empty for the root only. *)
Theorem every_node_is_found_by_its_text h r a n :
  wf h r -> h !! a = Some n ->
  exists K,
    (forall fuel o tr, length K < fuel ->
       radixGetFullText fuel a (mkState h o tr)
       = Ok (if hd true o then Some K else None, mkState h (tail o) tr))
    /\ (forall fuel, length K < fuel ->
          exists i, radixTreeFind fuel h r K = Ok (RADIX_TREE_FOUND, a, [], i)
                    /\ radixTreeHowManyChars h a = Ok i)
    /\ (a = r <-> K = []).
Proof.
  intros Hwf Ha. destruct (wf_reach _ _ Hwf a ltac:(eauto)) as [K HK].
  exists K. split; [|split].
  - intros fuel o tr Hfuel. now apply (getFullText_run h o tr r a K fuel).
  - intros fuel Hfuel.
    destruct (find_path h r a K fuel Hwf HK Hfuel) as (n' & l & Hn' & Hl & Hrun).
    exists (length l). split; [done|].
    unfold radixTreeHowManyChars. rewrite (load_Some _ _ _ Hn'). cbn [bindR].
    now rewrite Hl.
  - split.
    + intros ->. exact (path_unique h r r K [] Hwf HK (path_root _ _)).
    + intros ->. exact (path_node_unique h r a r [] Hwf HK (path_root _ _)).
Qed.

(** X5. Two nodes of a tree never have the same text. *)
Theorem nodes_have_distinct_texts h r a b K fa fb oa ob tra trb sa sb :
  wf h r ->
  radixGetFullText fa a (mkState h oa tra) = Ok (Some K, sa) ->
  radixGetFullText fb b (mkState h ob trb) = Ok (Some K, sb) ->
  a = b.
Proof.
  intros Hwf Ha Hb.
  destruct (getFullText_inv _ _ _ _ _ _ _ _ Hwf Ha) as (_ & [[[=] _]|(K' & [= <-] & _ & Hpa)]).
  destruct (getFullText_inv _ _ _ _ _ _ _ _ Hwf Hb) as (_ & [[[=] _]|(K' & [= <-] & _ & Hpb)]).
  exact (path_node_unique h r a b K Hwf Hpa Hpb).
Qed.

(** ** The empty key and the empty tree *)

Lemma find_loop_nil fuel h p i : find_loop fuel h p [] i = Ok (p, [], i).
Proof. now destruct fuel. Qed.

(** X6. The empty key belongs to the root of any tree: a lookup of it ends
    with FOUND at the root, and its insertion returns the root and changes
    nothing, allocating nothing. *)
Theorem empty_key_is_the_root h o tr r n l fuel :
  h !! r = Some n -> txt n = Some l ->
  radixTreeFind fuel h r [] = Ok (RADIX_TREE_FOUND, r, [], length l)
  /\ radixTreeInsert (S fuel) r [] (mkState h o tr) = Ok (Some r, mkState h o tr).
Proof.
  intros Hr Hl.
  assert (forall f, radixTreeFind f h r [] = Ok (RADIX_TREE_FOUND, r, [], length l)) as Hf.
  { intros f. unfold radixTreeFind. rewrite (load_Some _ _ _ Hr). cbn [bindR].
    rewrite Hl. cbn [nonnull bindR]. rewrite find_loop_nil. cbn [bindR].
    rewrite (load_Some _ _ _ Hr). cbn [bindR]. rewrite Hl. cbn [nonnull bindR].
    unfold stringEnd. rewrite decide_False by lia. now rewrite !bool_decide_true by done. }
  split; [apply Hf|]. cbn [radixTreeInsert]. cbn [bind rd heap]. now rewrite Hf.
Qed.

Lemma filter_replicate_None (k : nat) :
  filter (fun o : option addr => o <> None) (replicate k None) = [].
Proof. induction k as [|k IH]; [done|]. simpl. now rewrite filter_cons_False by (intros H; now apply H). Qed.

(** X7. [radixTreeCreate] returns NULL, with nothing allocated, when its
    allocation fails. Otherwise it returns a root without sons, father or
    payload, and in this tree the lookup of any key that is not empty ends
    with NOT_FOUND at the root, nothing of the key matched. *)
Theorem fresh_tree_holds_no_key o tr :
  exists res s0,
    radixTreeCreate (mkState ∅ o tr) = Ok (res, s0)
    /\ (hd true o = false -> res = None /\ heap s0 = ∅)
    /\ (hd true o = true ->
        exists r, res = Some r
          /\ radixTreeIsRoot (heap s0) r = Ok true
          /\ radixTreeHowManySons (heap s0) r = Ok 0
          /\ radixTreeGetNodeData (heap s0) r = Ok None
          /\ radixTreeFather (heap s0) r = Ok None
          /\ forall K fuel, K <> [] -> valid_key K -> 0 < fuel ->
               radixTreeFind fuel (heap s0) r K
               = Ok (RADIX_TREE_NOT_FOUND, r, K, length RADIX_TREE_ROOT_TXT)).
Proof.
  rewrite create_run. destruct (hd true o); eexists _, _; (split; [reflexivity|]).
  2:{ split; [done|]. intros [=]. }
  split; [intros [=]|]. intros _. cbn [heap].
  set (r := fresh (dom (∅ : gmap addr RadixTreeNode))).
  set (n := mkNode None (Some RADIX_TREE_ROOT_TXT) None
              (replicate RADIX_TREE_NUMBER_OF_SONS None) 0).
  assert (({[r := n]} : gmap addr RadixTreeNode) !! r = Some n) as Hr
    by apply lookup_singleton_eq.
  exists r. split; [done|].
  split. { rewrite (isRoot_lookup _ _ _ Hr). cbn [txt n]. now rewrite bool_decide_true. }
  split. { unfold radixTreeHowManySons. rewrite (load_Some _ _ _ Hr). cbn [bindR sons n].
           rewrite decide_True by apply length_replicate.
           now rewrite filter_replicate_None. }
  split. { unfold radixTreeGetNodeData. now rewrite (load_Some _ _ _ Hr). }
  split. { unfold radixTreeFather. now rewrite (load_Some _ _ _ Hr). }
  intros K fuel HK Hv Hfuel. destruct K as [|c t0]; [done|]. destruct fuel; [lia|].
  assert (valid_sym c) as Hc by (now inversion Hv).
  unfold radixTreeFind. rewrite (load_Some _ _ _ Hr). cbn [bindR txt n nonnull].
  cbn [find_loop].
  rewrite (move_stay _ r n (c :: t0) _ Hr); try done.
  - cbn [bindR]. rewrite (load_Some _ _ _ Hr). cbn [bindR txt n nonnull].
    unfold stringEnd. rewrite decide_False by lia.
    rewrite bool_decide_true by done. now rewrite bool_decide_false by done.
  - cbn [first_char sons n]. apply lookup_replicate. split; [done|]. now apply slot_lt.
Qed.

(** ** Payloads *)

Lemma load_set_data h a n d x :
  h !! a = Some n ->
  load (<[a := set_data d n]> h) x
  = let* m := load h x in Ok (if decide (x = a) then set_data d m else m).
Proof.
  intros Ha. unfold load. rewrite lookup_insert. case_decide as E.
  - subst x. rewrite Ha. cbn [bindR]. now rewrite decide_True.
  - destruct (h !! x); [|done]. cbn [bindR]. now rewrite decide_False by congruence.
Qed.

Ltac set_data_same Ha :=
  rewrite (load_set_data _ _ _ _ _ Ha);
  match goal with
  | |- context [load ?h ?x] => destruct (load h x); [|reflexivity]
  end;
  cbn [bindR]; case_decide; reflexivity.

Lemma isRoot_set_data h a n d x :
  h !! a = Some n ->
  radixTreeIsRoot (<[a := set_data d n]> h) x = radixTreeIsRoot h x.
Proof. intros Ha. unfold radixTreeIsRoot. set_data_same Ha. Qed.

Lemma hasSon_set_data h a n d x c :
  h !! a = Some n ->
  radixTreeHasSon (<[a := set_data d n]> h) x c = radixTreeHasSon h x c.
Proof. intros Ha. unfold radixTreeHasSon. set_data_same Ha. Qed.

Lemma moveToSon_set_data h a n d x c :
  h !! a = Some n ->
  radixTreeMoveToSon (<[a := set_data d n]> h) x c = radixTreeMoveToSon h x c.
Proof.
  intros Ha. unfold radixTreeMoveToSon. rewrite (hasSon_set_data _ _ _ _ _ _ Ha).
  destruct (radixTreeHasSon h x c) as [b|]; [|reflexivity]. cbn [bindR].
  destruct (assertR b); [|reflexivity]. cbn [bindR]. set_data_same Ha.
Qed.

Lemma moveTxt_set_data h a n d x t :
  h !! a = Some n ->
  radixTreeMoveTxt (<[a := set_data d n]> h) x t = radixTreeMoveTxt h x t.
Proof.
  intros Ha. unfold radixTreeMoveTxt. rewrite (isRoot_set_data _ _ _ _ _ Ha).
  set_data_same Ha.
Qed.

Lemma move_set_data h a n d x t i :
  h !! a = Some n ->
  radixTreeMove (<[a := set_data d n]> h) x t i = radixTreeMove h x t i.
Proof.
  intros Ha. unfold radixTreeMove.
  rewrite (hasSon_set_data _ _ _ _ _ _ Ha), (moveToSon_set_data _ _ _ _ _ _ Ha).
  destruct (assertR _); [|reflexivity]. cbn [bindR].
  destruct (radixTreeHasSon h x (first_char t)) as [[]|]; try reflexivity. cbn [bindR negb].
  destruct (radixTreeMoveToSon h x (first_char t)) as [[x'|]|]; try reflexivity.
  cbn [bindR nonnull]. now rewrite (moveTxt_set_data _ _ _ _ _ _ Ha).
Qed.

Lemma find_loop_set_data h a n d :
  h !! a = Some n ->
  forall fuel x t i,
    find_loop fuel (<[a := set_data d n]> h) x t i = find_loop fuel h x t i.
Proof.
  intros Ha. induction fuel as [|fuel IH]; intros x t i; destruct t as [|c t]; try reflexivity.
  cbn [find_loop]. rewrite (move_set_data _ _ _ _ _ _ _ Ha).
  destruct (radixTreeMove h x (c :: t) i) as [[[[[] x'] t'] i']|]; cbn [bindR];
    [apply IH|reflexivity|reflexivity].
Qed.

Lemma find_set_data h a n d fuel r K :
  h !! a = Some n ->
  radixTreeFind fuel (<[a := set_data d n]> h) r K = radixTreeFind fuel h r K.
Proof.
  intros Ha. unfold radixTreeFind. rewrite (load_set_data _ _ _ _ _ Ha).
  destruct (load h r) as [nr|]; [|reflexivity]. cbn [bindR].
  replace (txt (if decide (r = a) then set_data d nr else nr)) with (txt nr)
    by (now case_decide).
  destruct (nonnull (txt nr)) as [l|]; [|reflexivity]. cbn [bindR].
  rewrite (find_loop_set_data _ _ _ _ Ha).
  destruct (find_loop fuel h r K (stringEnd l)) as [[[p t'] i]|]; [|reflexivity].
  cbn [bindR]. rewrite (load_set_data _ _ _ _ _ Ha).
  destruct (load h p) as [np|]; [|reflexivity]. cbn [bindR].
  now replace (txt (if decide (p = a) then set_data d np else np)) with (txt np)
    by (now case_decide).
Qed.

(** X8. [radixTreeSetData] stores the payload, which [radixTreeGetNodeData]
    reads back, and touches nothing else: the payloads of the other nodes,
    the fathers, and the outcome of every lookup are what they were. *)
Theorem setData_keeps_lookups h o tr a n d :
  h !! a = Some n ->
  exists h',
    radixTreeSetData a d (mkState h o tr) = Ok (tt, mkState h' o tr)
    /\ radixTreeGetNodeData h' a = Ok d
    /\ (forall b, b <> a -> radixTreeGetNodeData h' b = radixTreeGetNodeData h b)
    /\ (forall b, radixTreeFather h' b = radixTreeFather h b)
    /\ (forall fuel r K, radixTreeFind fuel h' r K = radixTreeFind fuel h r K).
Proof.
  intros Ha. exists (<[a := set_data d n]> h).
  split. { unfold radixTreeSetData. msimpl. now rewrite Ha. }
  split. { unfold radixTreeGetNodeData. rewrite (load_set_data _ _ _ _ _ Ha).
           rewrite (load_Some _ _ _ Ha). cbn [bindR]. now rewrite decide_True. }
  split. { intros b Hb. unfold radixTreeGetNodeData.
           rewrite (load_set_data _ _ _ _ _ Ha).
           destruct (load h b); [|reflexivity]. cbn [bindR].
           now rewrite decide_False. }
  split. { intros b. unfold radixTreeFather. set_data_same Ha. }
  intros fuel r K. now apply find_set_data.
Qed.

(** ** What an insertion allocates *)

Lemma extends_refl h : extends h h [].
Proof.
  split; [constructor|]. split; [eauto|]. split; [|done].
  intros a Ha. by apply elem_of_nil in Ha.
Qed.

Lemma extends_trans h h1 h2 n1 n2 :
  extends h h1 n1 -> extends h1 h2 n2 -> extends h h2 (n1 ++ n2).
Proof.
  intros (Hd1 & Ho1 & Hn1 & Hx1) (Hd2 & Ho2 & Hn2 & Hx2).
  split; [|split; [|split]].
  - apply NoDup_app. split; [done|]. split; [|done].
    intros a Ha1 Ha2. destruct (Hn1 a Ha1) as (_ & n' & Hn' & _).
    destruct (Hn2 a Ha2) as (E & _). congruence.
  - intros a n Ha. destruct (Ho1 a n Ha) as (n' & Hn' & Hdn').
    destruct (Ho2 a n' Hn') as (n'' & Hn'' & Hdn''). exists n''. split; [done|congruence].
  - intros a [Ha|Ha]%elem_of_app.
    + destruct (Hn1 a Ha) as (E & n' & Hn' & Hdn'). split; [done|].
      destruct (Ho2 a n' Hn') as (n'' & Hn'' & Hdn''). exists n''. split; [done|congruence].
    + destruct (Hn2 a Ha) as (E & n' & Hn' & Hdn'). split; [|eauto].
      destruct (h !! a) as [n|] eqn:Hn; [|done].
      destruct (Ho1 a n Hn) as (? & ? & _). congruence.
  - intros a Ha Hnew. apply Hx2.
    + apply Hx1; [done|]. intros ?. apply Hnew, elem_of_app. now left.
    + intros ?. apply Hnew, elem_of_app. now right.
Qed.

Lemma extends_insert_old h h' new a n n' :
  extends h h' new -> h' !! a = Some n -> data n' = data n ->
  extends h (<[a := n']> h') new.
Proof.
  intros (Hd & Ho & Hn & Hx) Ha Hdata. split; [done|]. split; [|split].
  - intros x nx Hxh. destruct (Ho x nx Hxh) as (nx' & Hnx' & Hdx).
    rewrite lookup_insert. case_decide as E; [|eauto].
    subst x. exists n'. split; [done|congruence].
  - intros x Hxn. destruct (Hn x Hxn) as (E & nx' & Hnx' & Hdx). split; [done|].
    rewrite lookup_insert. case_decide as E'; [|eauto].
    subst x. exists n'. split; [done|congruence].
  - intros x Hxh Hxn. rewrite lookup_insert_ne; [now apply Hx|].
    intros <-. rewrite (Hx a Hxh Hxn) in Ha. done.
Qed.

Lemma extends_insert_new (h : gmap addr RadixTreeNode) a n :
  h !! a = None -> data n = None -> extends h (<[a := n]> h) [a].
Proof.
  intros Ha Hd. split; [apply NoDup_singleton|]. split; [|split].
  - intros x nx Hx. exists nx. split; [|done]. rewrite lookup_insert_ne; [done|congruence].
  - intros x ->%list_elem_of_singleton. split; [done|]. exists n.
    now rewrite lookup_insert_eq.
  - intros x Hx Hxa. rewrite lookup_insert_ne; [done|].
    intros <-. apply Hxa. now apply list_elem_of_singleton.
Qed.

(** One step of a run: a case distinction on the first test it makes. *)
Ltac run_step :=
  match goal with
  | |- context [match ?x with _ => _ end] =>
      lazymatch x with
      | context [match _ with _ => _ end] => fail
      | _ => destruct x eqn:?; msimpl; cbn [hd tail andb]; try done;
             try (intros [= <- <-]; done)
      end
  end.

(** The allocations of a split and of the insertion of a leaf. *)
Lemma split_oracle q i h o tr st s1 :
  radixTreeSplitNode q i (mkState h o tr) = Ok (st, s1) ->
  st = (if mallocs_ok 3 o then RADIX_TREE_OPERATION_SUCCESS else RADIX_TREE_OPERATION_FAIL)
  /\ (st = RADIX_TREE_OPERATION_SUCCESS -> oracle s1 = tail (tail (tail o))).
Proof.
  unfold radixTreeSplitNode, radixTreeCreateNode, alloc_node, radixTreeChangeSon,
    radixTreeFreeNode.
  msimpl. cbn [mallocs_ok].
  repeat run_step.
  all: intros [= <- <-]; repeat match goal with b : bool |- _ => destruct b end;
    simpl in *; try done.
Qed.

Lemma insertLeaf_oracle q t h o tr res s1 :
  radixTreeInsertLeaf q t (mkState h o tr) = Ok (res, s1) ->
  res = None -> mallocs_ok 2 o = false.
Proof.
  unfold radixTreeInsertLeaf, radixTreeCreateNode, alloc_node, radixTreeChangeSon.
  msimpl. cbn [mallocs_ok].
  repeat run_step.
  all: intros [= <- <-]; repeat match goal with b : bool |- _ => destruct b end;
    simpl in *; try done.
Qed.

Lemma mallocs_ok_5 o :
  mallocs_ok 5 o = mallocs_ok 3 o && mallocs_ok 2 (tail (tail (tail o))).
Proof. cbn [mallocs_ok]. now repeat destruct (hd true _). Qed.

Lemma insert_at_end_run h o tr r K fuel st q t' i :
  wf h r -> valid_key K ->
  radixTreeFind (S fuel) h r K = Ok (st, q, t', i) ->
  stop_at_end h r K q t' i ->
  st = match t' with [] => RADIX_TREE_FOUND | _ => RADIX_TREE_NOT_FOUND end ->
  exists res s' new,
    radixTreeInsert (S fuel) r K (mkState h o tr) = Ok (res, s')
    /\ insert_post h r K res s'
    /\ extends h (heap s') new /\ length new <= 1
    /\ (forall a, a ∈ new -> path (heap s') r a K)
    /\ (res = None -> mallocs_ok 2 o = false).
Proof.
  intros Hwf HK Hfind Hend Hst.
  destruct (insert_at_end h o tr r K fuel st q t' i Hwf HK Hfind Hend Hst)
    as (res & s' & Hrun & Hpost).
  destruct Hend as (n & l & s & Hq & Hl & -> & Hp & -> & Hfree). subst st.
  exists res, s'.
  revert Hrun. cbn [radixTreeInsert]. cbn [bind rd heap]. rewrite Hfind.
  destruct t' as [|c t0].
  - msimpl. intros [= <- <-]. exists []. split; [done|]. split; [done|].
    split; [apply extends_refl|]. split; [simpl; lia|].
    split; [|done]. intros a Ha. by apply elem_of_nil in Ha.
  - cbn [bind rd heap]. rewrite (load_Some _ _ _ Hq). msimpl. rewrite Hl. msimpl.
    rewrite decide_False by lia. intros Hrun.
    assert (valid_label (c :: t0)) as Hv.
    { split; [done|]. now apply valid_key_app in HK. }
    destruct (insertLeaf_run h o tr q n (c :: t0) Hq (wf_len _ _ Hwf _ _ Hq)
                ltac:(done) (proj2 Hv) (Hfree ltac:(done)))
      as (res' & s'' & Hrun' & Hres).
    pose proof (insertLeaf_oracle _ _ _ _ _ _ _ Hrun') as Hor.
    rewrite Hrun in Hrun'. injection Hrun' as <- <-.
    destruct Hres as [[-> Hh]|[-> Hh]].
    + exists []. split; [done|]. split; [done|]. rewrite Hh.
      split; [apply extends_refl|]. split; [simpl; lia|].
      split; [|done]. intros a Ha. by apply elem_of_nil in Ha.
    + exists [fresh (dom h)]. split; [done|]. split; [done|].
      split; [|split; [simpl; lia|split; [|done]]].
      * rewrite Hh. apply extends_insert_old with (n := n).
        -- apply extends_insert_new; [apply fresh_None|done].
        -- rewrite lookup_insert_ne; [done|]. exact (fresh_ne h q n Hq).
        -- done.
      * intros a ->%list_elem_of_singleton. destruct Hpost as (_ & _ & Hres). now apply Hres.
Qed.

(** All that an insertion into a well-formed tree does. *)
Lemma insert_run h o tr r K fuel :
  wf h r -> valid_key K -> length K + 2 <= fuel ->
  exists res s' new,
    radixTreeInsert fuel r K (mkState h o tr) = Ok (res, s')
    /\ insert_post h r K res s'
    /\ extends h (heap s') new /\ length new <= 2
    /\ (forall a, a ∈ new -> exists u, u `prefix_of` K /\ path (heap s') r a u)
    /\ (res = None -> mallocs_ok 5 o = false).
Proof.
  intros Hwf HK Hfuel.
  destruct fuel as [|fuel]; [lia|].
  destruct (find_spec h r (S fuel) K Hwf HK ltac:(lia))
    as (st & q & t' & i & Hfind & [[Hend Hst]|[Hin Hst]]).
  { destruct (insert_at_end_run h o tr r K fuel st q t' i Hwf HK Hfind Hend Hst)
      as (res & s' & new & Hrun & Hpost & Hext & Hlen & Hnew & Hor).
    exists res, s', new. split; [done|]. split; [done|]. split; [done|].
    split; [lia|]. split; [intros a Ha; exists K; split; [done|now apply Hnew]|].
    intros Hres. rewrite mallocs_ok_5.
    pose proof (Hor Hres) as E. cbn [mallocs_ok] in E |- *.
    revert E. now repeat destruct (hd true _). }
  destruct (insert_spec h o tr r K (S fuel) Hwf HK Hfuel) as (res & s' & Hrun & Hpost).
  exists res, s'.
  destruct Hin as (nq & l & p & s & Hq & Hl & Hi & Hp & He & HKeq & Hmis).
  destruct (split_inside h o tr r q i nq l p s Hwf Hq Hl Hi Hp He)
    as (sr & s1 & Hsplit & Hsres).
  destruct (split_oracle _ _ _ _ _ _ _ Hsplit) as (Hsr & Hso).
  assert (sr = RADIX_TREE_OPERATION_SUCCESS ->
          extends h (heap s1) [fresh (dom h)]) as Hext1.
  { intros ->.
    pose proof (edge_label _ _ _ _ _ Hwf He) as Hv.
    destruct (edge_father _ _ _ _ _ Hwf He) as (m & Hm & Hf).
    assert (m = nq) as -> by congruence.
    assert (p <> q) as Hpq.
    { intros ->. exact (edge_irrefl h r q s l Hwf Hp He). }
    destruct He as (np & nq0 & Hnp & Hson & Hq0 & Hl0).
    destruct (split_run h o tr q i nq l p np Hq Hl Hf Hnp Hpq (wf_len _ _ Hwf _ _ Hnp)
                Hi (proj2 Hv)) as (st' & s1' & Hrun' & _ & Hres).
    rewrite Hsplit in Hrun'. injection Hrun' as <- <-.
    destruct Hres as [[[=] _]|[_ ->]].
    eapply extends_trans with (n1 := []); cycle 1.
    - apply extends_insert_new; [|done].
      rewrite !lookup_insert_ne
        by (intros E; symmetry in E; revert E;
            first [exact (fresh_ne h p np Hnp) | exact (fresh_ne h q nq Hq)]).
      apply fresh_None.
    - apply extends_insert_old with (n := nq); [|rewrite lookup_insert_ne by done; exact Hq|done].
      apply extends_insert_old with (n := np); [apply extends_refl|done|done]. }
  revert Hrun. cbn [radixTreeInsert]. cbn [bind rd heap]. rewrite Hfind.
  destruct t' as [|c t0]; subst st.
  - cbn [bind]. rewrite Hsplit.
    destruct Hsres as [[-> Hh]|(-> & Hwf1 & Hpaths & M & nM & nq' & HM & HlM
                                  & HMh & HpM & Hq' & Hfq' & _)].
    + msimpl. intros [= <- <-]. exists []. split; [done|]. split; [done|]. rewrite Hh.
      split; [apply extends_refl|]. split; [simpl; lia|].
      split; [intros a Ha; by apply elem_of_nil in Ha|].
      intros _. rewrite mallocs_ok_5. now destruct (mallocs_ok 3 o).
    + msimpl. rewrite (load_Some _ _ _ Hq'). msimpl. rewrite Hfq'. intros [= <- <-].
      exists [fresh (dom h)]. split; [done|]. split; [done|].
      split; [now apply Hext1|]. split; [simpl; lia|]. split; [|done].
      intros a ->%list_elem_of_singleton.
      assert (M = fresh (dom h)) as <-.
      { destruct (Hext1 eq_refl) as (_ & _ & _ & Hx).
        destruct (decide (M = fresh (dom h))) as [E|E]; [done|].
        rewrite Hx in HM; [done|done|]. now intros ?%list_elem_of_singleton. }
      exists (s ++ take i l). split; [|done]. exists []. now rewrite HKeq, !app_nil_r.
  - cbn [bind rd heap]. rewrite (load_Some _ _ _ Hq). msimpl. rewrite Hl. msimpl.
    rewrite decide_True by lia. cbn [bind]. rewrite Hsplit.
    destruct Hsres as [[-> Hh]|(-> & Hwf1 & Hpaths & M & nM & nq' & HM & HlM
                                  & HMh & HpM & Hq' & Hfq' & Hsons)].
    + msimpl. intros [= <- <-]. exists []. split; [done|]. split; [done|]. rewrite Hh.
      split; [apply extends_refl|]. split; [simpl; lia|].
      split; [intros a Ha; by apply elem_of_nil in Ha|].
      intros _. rewrite mallocs_ok_5. now destruct (mallocs_ok 3 o).
    + destruct fuel as [|fuel]; [lia|]. destruct s1 as [h1 o1 tr1]. cbn [heap oracle] in *.
      assert (M = fresh (dom h)) as EM.
      { destruct (Hext1 eq_refl) as (_ & _ & _ & Hx).
        destruct (decide (M = fresh (dom h))) as [E|E]; [done|].
        rewrite Hx in HM; [done|done|]. now intros ?%list_elem_of_singleton. }
      rewrite app_assoc in HKeq.
      assert (valid_sym c) as Hc.
      { rewrite HKeq in HK. apply valid_key_app in HK as [_ HK]. now inversion HK. }
      assert (sons nM !! slot c = Some None) as Hfree.
      { apply Hsons; [done|]. apply Hmis. done. }
      assert (radixTreeFind (S fuel) h1 r K
              = Ok (RADIX_TREE_NOT_FOUND, M, c :: t0, length (take i l))) as Hfind1.
      { rewrite HKeq. apply (find_missing_son h1 r M (s ++ take i l) nM); try done.
        rewrite <- HKeq. lia. }
      destruct (insert_at_end_run h1 o1 tr1 r K fuel _ M (c :: t0) _ Hwf1 HK Hfind1)
        as (res2 & s2 & new2 & Hrun2 & Hpost2 & Hext2 & Hlen2 & Hnew2 & Hor2); [|done|].
      { exists nM, (take i l), (s ++ take i l). repeat split; try done. }
      rewrite Hrun2. intros [= <- <-].
      exists ([fresh (dom h)] ++ new2). split; [done|]. split; [done|].
      split; [eapply extends_trans; [now apply Hext1|done]|].
      split; [rewrite length_app; simpl; lia|]. split.
      * intros a [->%list_elem_of_singleton|Ha]%elem_of_app.
        -- exists (s ++ take i l). split; [exists (c :: t0); now rewrite HKeq|].
           destruct Hpost2 as (_ & Hp2 & _). apply Hp2. now rewrite <- EM.
        -- exists K. split; [done|]. now apply Hnew2.
      * intros Hres. rewrite mallocs_ok_5. destruct (mallocs_ok 3 o); [|done].
        cbn [andb]. rewrite <- (Hso eq_refl). now apply Hor2.
Qed.

(** The allocations of an insertion: it returns NULL exactly when one of
    those it asks for fails, and consumes them all when it returns a node. *)
Lemma insertLeaf_result q t h o tr res s1 :
  radixTreeInsertLeaf q t (mkState h o tr) = Ok (res, s1) ->
  (res = None <-> mallocs_ok 2 o = false)
  /\ (res <> None -> oracle s1 = drop 2 o).
Proof.
  unfold radixTreeInsertLeaf, radixTreeCreateNode, alloc_node, radixTreeChangeSon.
  msimpl. cbn [mallocs_ok].
  destruct o as [|b1 [|b2 o]]; cbn [hd tail drop andb];
    repeat run_step.
  all: intros [= <- <-]; repeat match goal with b : bool |- _ => destruct b end;
    simpl in *; try done.
Qed.

Lemma insert_oracle h o tr r K fuel res s' :
  wf h r -> valid_key K -> length K + 2 <= fuel ->
  radixTreeInsert fuel r K (mkState h o tr) = Ok (res, s') ->
  (res = None <-> mallocs_ok (allocations fuel h r K) o = false)
  /\ (res <> None -> oracle s' = drop (allocations fuel h r K) o).
Proof.
  intros Hwf HK Hfuel Hrun.
  destruct fuel as [|fuel]; [lia|].
  destruct (find_spec h r (S fuel) K Hwf HK ltac:(lia))
    as (st & q & t' & i & Hfind & Hpost).
  unfold allocations. rewrite Hfind.
  revert Hrun. cbn [radixTreeInsert]. cbn [bind rd heap]. rewrite Hfind.
  destruct Hpost as [[Hend Hst]|[Hin Hst]].
  { destruct Hend as (n & l & s & Hq & Hl & -> & Hp & -> & Hfree).
    destruct t' as [|c t0]; subst st.
    - msimpl. intros [= <- <-]. done.
    - unfold radixTreeHowManyChars. rewrite (load_Some _ _ _ Hq). cbn [bindR].
      rewrite Hl. cbn [nonnull bindR]. rewrite decide_False by lia.
      cbn [bind rd heap]. rewrite (load_Some _ _ _ Hq). msimpl. rewrite Hl. msimpl.
      rewrite decide_False by lia. apply insertLeaf_result. }
  destruct Hin as (nq & l & p & s & Hq & Hl & Hi & Hp & He & HKeq & Hmis).
  destruct (split_inside h o tr r q i nq l p s Hwf Hq Hl Hi Hp He)
    as (sr & s1 & Hsplit & Hsres).
  destruct (split_oracle _ _ _ _ _ _ _ Hsplit) as (Hsr & Hso).
  assert (tail (tail (tail o)) = drop 3 o) as Hd3 by (now destruct o as [|? [|? [|? ?]]]).
  destruct t' as [|c t0]; subst st.
  - cbn [bind]. rewrite Hsplit.
    destruct Hsres as [[-> Hh]|(-> & Hwf1 & Hpaths & M & nM & nq' & HM & HlM
                                  & HMh & HpM & Hq' & Hfq' & _)].
    + msimpl. intros [= <- <-]. destruct (mallocs_ok 3 o); done.
    + msimpl. rewrite (load_Some _ _ _ Hq'). msimpl. rewrite Hfq'. intros [= <- <-].
      destruct (mallocs_ok 3 o); [|done]. split; [done|]. intros _.
      rewrite <- Hd3. now apply Hso.
  - unfold radixTreeHowManyChars. rewrite (load_Some _ _ _ Hq). cbn [bindR].
    rewrite Hl. cbn [nonnull bindR]. rewrite decide_True by lia.
    cbn [bind rd heap]. rewrite (load_Some _ _ _ Hq). msimpl. rewrite Hl. msimpl.
    rewrite decide_True by lia. cbn [bind]. rewrite Hsplit.
    rewrite mallocs_ok_5.
    destruct Hsres as [[-> Hh]|(-> & Hwf1 & Hpaths & M & nM & nq' & HM & HlM
                                  & HMh & HpM & Hq' & Hfq' & Hsons)].
    + msimpl. intros [= <- <-]. destruct (mallocs_ok 3 o); done.
    + destruct fuel as [|fuel]; [lia|]. destruct s1 as [h1 o1 tr1]. cbn [heap oracle] in *.
      rewrite app_assoc in HKeq.
      assert (valid_sym c) as Hc.
      { rewrite HKeq in HK. apply valid_key_app in HK as [_ HK]. now inversion HK. }
      assert (sons nM !! slot c = Some None) as Hfree.
      { apply Hsons; [done|]. apply Hmis. done. }
      assert (radixTreeFind (S fuel) h1 r K
              = Ok (RADIX_TREE_NOT_FOUND, M, c :: t0, length (take i l))) as Hfind1.
      { rewrite HKeq. apply (find_missing_son h1 r M (s ++ take i l) nM); try done.
        rewrite <- HKeq. lia. }
      cbn [radixTreeInsert]. cbn [bind rd heap]. rewrite Hfind1.
      cbn [bind rd heap]. rewrite (load_Some _ _ _ HM). msimpl. rewrite HlM. msimpl.
      rewrite decide_False by lia. intros Hleaf.
      apply insertLeaf_result in Hleaf as [Hnone Hsome].
      rewrite (Hso eq_refl) in Hnone, Hsome.
      destruct (mallocs_ok 3 o); [|done]. cbn [andb]. split; [done|].
      intros Hres. rewrite (Hsome Hres), Hd3, drop_drop. done.
Qed.

(** X9. An insertion creates at most two nodes, none of them with a
    payload, and each with a text that starts the inserted key. The nodes
    that were there stay allocated, keep their payloads and keep their
    texts. *)
Theorem insert_adds_at_most_two_nodes h o tr r K fuel :
  wf h r -> valid_key K -> length K + 2 <= fuel ->
  exists res s' new,
    radixTreeInsert fuel r K (mkState h o tr) = Ok (res, s')
    /\ length new <= 2
    /\ extends h (heap s') new
    /\ (forall a, a ∈ new ->
          exists u, u `prefix_of` K
            /\ radixGetFullText fuel a (mkState (heap s') [] [])
               = Ok (Some u, mkState (heap s') [] []))
    /\ (forall a u f,
          radixGetFullText f a (mkState h [] []) = Ok (Some u, mkState h [] []) ->
          forall f', length u < f' ->
            radixGetFullText f' a (mkState (heap s') [] [])
            = Ok (Some u, mkState (heap s') [] [])).
Proof.
  intros Hwf HK Hfuel.
  destruct (insert_run h o tr r K fuel Hwf HK Hfuel)
    as (res & s' & new & Hrun & (Hwf' & Hpaths & _) & Hext & Hlen & Hnew & _).
  exists res, s', new. do 3 (split; [done|]). split.
  - intros a Ha. destruct (Hnew a Ha) as (u & Hu & Hp). exists u. split; [done|].
    apply (getFullText_path _ [] [] r a u); try done.
    apply prefix_length in Hu. lia.
  - intros a u f Hget f' Hf'.
    destruct (getFullText_inv _ _ _ _ _ _ _ _ Hwf Hget)
      as (_ & [[[=] _]|(K' & [= <-] & _ & Hp)]).
    apply (getFullText_path _ [] [] r a u); try done. now apply Hpaths.
Qed.

(** X10. An insertion returns NULL exactly when one of the allocations it
    asks for fails: none when the key is there, three for a split, two for
    a leaf, five for a split and a leaf. When it returns a node it has
    consumed exactly these. Whatever it returns, the tree is well formed
    afterwards and every lookup that ended with FOUND at a node still does. *)
Theorem insert_fails_only_without_memory h o tr r K fuel :
  wf h r -> valid_key K -> length K + 2 <= fuel ->
  exists res s',
    radixTreeInsert fuel r K (mkState h o tr) = Ok (res, s')
    /\ (res = None <-> mallocs_ok (allocations fuel h r K) o = false)
    /\ (res <> None -> oracle s' = drop (allocations fuel h r K) o)
    /\ wf (heap s') r
    /\ forall K' a f,
         valid_key K' -> length K' < f ->
         (exists t' i, radixTreeFind f h r K' = Ok (RADIX_TREE_FOUND, a, t', i)) ->
         exists i', radixTreeFind f (heap s') r K' = Ok (RADIX_TREE_FOUND, a, [], i').
Proof.
  intros Hwf HK Hfuel.
  destruct (insert_run h o tr r K fuel Hwf HK Hfuel)
    as (res & s' & new & Hrun & (Hwf' & Hpaths & _) & _).
  destruct (insert_oracle h o tr r K fuel res s' Hwf HK Hfuel Hrun) as [Hnone Hsome].
  exists res, s'. do 4 (split; [done|]).
  intros K' a f HK' Hf (t' & i & Hfind).
  destruct (find_spec h r f K' Hwf HK' Hf) as (st & q & t'' & i'' & Hrun' & Hpost).
  rewrite Hfind in Hrun'. injection Hrun' as <- <- <- <-.
  destruct Hpost as [[(n & l & s & _ & _ & _ & Hp & -> & _) Hst]|[_ Hst]];
    [|now destruct t'].
  destruct t' as [|c t']; [|done]. rewrite app_nil_r in Hf |- *.
  destruct (find_path (heap s') r a s f Hwf' (Hpaths _ _ Hp) Hf) as (n' & l' & _ & _ & Hf').
  eauto.
Qed.

(** ** What a deletion leaves *)

(** The lookup of a key that ends in the label of a node, or at its end. *)
Lemma find_into_label h r p s c l k u fuel :
  wf h r -> path h r p s -> edge h p c l -> l = k ++ u -> k <> [] ->
  length (s ++ k) < fuel ->
  radixTreeFind fuel h r (s ++ k)
  = Ok (if decide (length k = length l) then RADIX_TREE_FOUND else RADIX_TREE_SUBSTR,
        c, [], length k).
Proof.
  intros Hwf Hp He Hl Hk Hfuel.
  pose proof (edge_label _ _ _ _ _ Hwf He) as Hv.
  destruct (find_loop_path h r Hwf p s Hp k fuel Hfuel)
    as (n & lp & nr & lr & fuel' & Hn & Hlp & Hr & Hlr & Hf & Hrun).
  destruct He as (np & m & Hnp & Hs & Hc & Hm).
  assert (np = n) as -> by congruence.
  destruct k as [|a k]; [done|].
  assert (first_char l = a) as Hfc by (now rewrite Hl).
  destruct fuel' as [|fuel']; [simpl in Hf; lia|].
  assert (find_loop (S fuel') h p (a :: k) (length lp) = Ok (c, [], length (a :: k))) as Hloop.
  { cbn [find_loop].
    rewrite (move_down h p n c m l (a :: k) (length lp)); try done.
    - rewrite Hl, (match_txt_key_prefix (a :: k) u 0). cbn [fst snd bindR].
      case_decide; [|reflexivity]. now destruct fuel'.
    - cbn [first_char]. rewrite <- Hfc. now apply first_char_valid.
    - cbn [first_char]. now rewrite <- Hfc. }
  unfold radixTreeFind. rewrite (load_Some _ _ _ Hr). cbn [bindR]. rewrite Hlr.
  cbn [nonnull bindR]. unfold stringEnd. rewrite Hrun, Hloop. cbn [bindR].
  rewrite (load_Some _ _ _ Hc). cbn [bindR]. rewrite Hm. cbn [nonnull bindR].
  rewrite decide_False by (rewrite Hl, length_app; lia).
  rewrite (bool_decide_true ([] = [])) by done. rewrite andb_true_r.
  case_bool_decide; [now rewrite decide_True|now rewrite decide_False].
Qed.

(** A subtree holds the sons of its nodes. *)
Lemma subtree_closed f :
  forall h a l, subtree_nodes f h a = Some l ->
    forall x nx i c, x ∈ l -> h !! x = Some nx -> sons nx !! i = Some (Some c) -> c ∈ l.
Proof.
  induction f as [|f IH]; intros h a l Hl x nx i c Hx Hnx Hi; [done|].
  destruct (subtree_nodes_inv _ _ _ _ Hl) as (f' & n & ls & [= <-] & Hn & Hlen & Hs & ->).
  assert (forall rest i0 ls0, sons_nodes (subtree_nodes f h) h a i0 rest = Some ls0 ->
            (forall j c0, rest !! j = Some (Some c0) -> c0 ∈ ls0)
            /\ (forall y ny j c0, y ∈ ls0 -> h !! y = Some ny ->
                  sons ny !! j = Some (Some c0) -> c0 ∈ ls0)) as Hin.
  { induction rest as [|[c1|] rest IHr]; intros i0 ls0 Hs0.
    - injection Hs0 as <-. split; [done|]. intros y ny j c0 Hy. by apply elem_of_nil in Hy.
    - destruct (sons_nodes_cons_inv _ _ _ _ _ _ _ Hs0)
        as (m & lbl & lc & ls' & Hc & Hlbl & Hf & Hcv & Hrec & Hrest & ->).
      destruct (IHr _ _ Hrest) as [HA HB]. split.
      + intros [|j] c0 Hj.
        * injection Hj as <-.
          destruct (subtree_nodes_inv _ _ _ _ Hrec) as (? & ? & ? & _ & _ & _ & _ & ->).
          in_list.
        * specialize (HA j c0 Hj). in_list.
      + intros y ny j c0 [Hy|Hy]%elem_of_app Hny Hj.
        * pose proof (IH h c1 lc Hrec y ny j c0 Hy Hny Hj). in_list.
        * pose proof (HB y ny j c0 Hy Hny Hj). in_list.
    - simpl in Hs0. destruct (IHr _ _ Hs0) as [HA HB]. split; [|done].
      intros [|j] c0 Hj; [done|]. exact (HA j c0 Hj). }
  destruct (Hin _ _ _ Hs) as [HA HB].
  apply elem_of_app in Hx as [Hx|Hx%list_elem_of_singleton].
  - pose proof (HB x nx i c Hx Hnx Hi). in_list.
  - subst x. assert (nx = n) as -> by congruence. pose proof (HA i c Hi). in_list.
Qed.

Lemma subtree_top f h a l : subtree_nodes f h a = Some l -> a ∈ l.
Proof.
  intros Hl. destruct (subtree_nodes_inv _ _ _ _ Hl) as (? & ? & ? & _ & _ & _ & _ & ->).
  in_list.
Qed.

(** The nodes whose text starts with the text of [N] are those of the
    subtree of [N]. *)
Lemma below_in_subtree h r f N l sN :
  wf h r -> subtree_nodes f h N = Some l -> path h r N sN ->
  forall x W, path h r x W -> sN `prefix_of` W -> x ∈ l.
Proof.
  intros Hwf Hl HN. pose proof (subtree_top _ _ _ _ Hl) as HNl.
  induction 1 as [|p0 c s0 l0 Hp0 IH He]; intros [u Hu].
  - symmetry in Hu. apply app_eq_nil in Hu as [-> ->].
    now rewrite <- (path_node_unique h r N r [] Hwf HN (path_root _ _)).
  - assert (p0 ∈ l -> c ∈ l) as Hdown.
    { intros Hp0l. destruct He as (n0 & m & Hn0 & Hs & _).
      exact (subtree_closed f h N l Hl p0 n0 _ c Hp0l Hn0 Hs). }
    apply app_eq_inv in Hu as [(k & Hs0 & _)|(k & HsN & Hl0)].
    { apply Hdown, IH. now exists k. }
    destruct k as [|a k].
    { apply Hdown, IH. exists []. now rewrite HsN, !app_nil_r. }
    pose proof (find_into_label h r p0 s0 c l0 (a :: k) u (S (length sN)) Hwf Hp0 He Hl0
                  ltac:(done) ltac:(rewrite HsN; lia)) as E1.
    destruct (find_path h r N sN (S (length sN)) Hwf HN ltac:(lia)) as (? & ? & _ & _ & E2).
    rewrite <- HsN in E1. rewrite E2 in E1. now injection E1 as _ <- _.
Qed.

Section RemoveInvariant.

(** The heap [h'] is the heap [h] of a well-formed tree without the
    subtree of the node [N], which hung below [p]. *)
Variables (h h' : gmap addr RadixTreeNode) (r N p : addr) (n np : RadixTreeNode).
Variables (lbl : list ascii) (l : list addr) (f : nat).
Hypothesis Hwf : wf h r.
Hypothesis HN : h !! N = Some n.
Hypothesis Hlbl : txt n = Some lbl.
Hypothesis Hfather : father n = Some p.
Hypothesis Hp : h !! p = Some np.
Hypothesis Hl : subtree_nodes f h N = Some l.
Hypothesis Hgone : forall x, x ∈ l -> h' !! x = None.
Hypothesis Hp' :
  h' !! p = Some (set_sons (<[slot (first_char lbl) := None]> (sons np)) np).
Hypothesis Hsame : forall x, x ∉ l -> x <> p -> h' !! x = h !! x.

Let sl := slot (first_char lbl).

Local Lemma rem_edge : edge h p N lbl.
Proof. exact (edge_of_son h r p N n lbl Hwf HN Hlbl Hfather). Qed.

Local Lemma rem_p_notin : p ∉ l.
Proof. exact (father_not_in_subtree h r f N n l p Hwf Hl HN Hfather). Qed.

Local Lemma rem_old x nx :
  h !! x = Some nx -> x ∉ l ->
  exists nx', h' !! x = Some nx' /\ txt nx' = txt nx /\ father nx' = father nx
              /\ data nx' = data nx
              /\ sons nx' = if decide (x = p) then <[sl := None]> (sons nx) else sons nx.
Proof.
  intros Hx Hxl. destruct (decide (x = p)) as [E|E].
  - rewrite E in Hx |- *. assert (nx = np) as Enp by congruence. rewrite Enp.
    eexists. split; [exact Hp'|done].
  - exists nx. rewrite Hsame by done. done.
Qed.

Local Lemma rem_new x nx' :
  h' !! x = Some nx' ->
  (x ∉ l) /\ exists nx, h !! x = Some nx /\ txt nx' = txt nx /\ father nx' = father nx
              /\ data nx' = data nx
              /\ sons nx' = if decide (x = p) then <[sl := None]> (sons nx) else sons nx.
Proof.
  intros Hx.
  assert (x ∉ l) as Hxl by (intros Hxl; rewrite (Hgone x Hxl) in Hx; done).
  split; [done|]. destruct (decide (x = p)) as [E|E].
  - rewrite E in Hx. rewrite Hp' in Hx. injection Hx as <-. exists np.
    rewrite E. done.
  - rewrite Hsame in Hx by done. exists nx'. done.
Qed.

Local Lemma rem_son x nx i c :
  h !! x = Some nx -> sons nx !! i = Some (Some c) -> x ∉ l -> c ∈ l ->
  x = p /\ c = N /\ i = sl.
Proof.
  intros Hx Hi Hxl Hcl.
  destruct (wf_son _ _ Hwf _ _ _ _ Hx Hi) as (m & lc & Hc & Hlc & _ & Hsl & Hfc).
  destruct (decide (c = N)) as [E|E].
  - rewrite E in Hc. assert (m = n) as Em by congruence. rewrite Em in *.
    split; [congruence|]. split; [done|]. unfold sl. congruence.
  - destruct (subtree_father _ h N _ Hl c Hcl E) as (m' & y & Hm' & Hfy & Hy).
    exfalso. apply Hxl. congruence.
Qed.

Local Lemma rem_edge_old a c l0 : edge h a c l0 -> c ∉ l -> edge h' a c l0.
Proof.
  intros (na & nc & Ha & Hs & Hc & Hl0) Hcl.
  assert (a ∉ l) as Hal.
  { intros Hal. apply Hcl. exact (subtree_closed f h N l Hl a na _ c Hal Ha Hs). }
  destruct (rem_old a na Ha Hal) as (na' & Ha' & _ & _ & _ & Hsa).
  destruct (rem_old c nc Hc Hcl) as (nc' & Hc' & Hlc & _).
  exists na', nc'. split; [done|]. split; [|split; [done|congruence]].
  rewrite Hsa. case_decide as E; [|done].
  rewrite list_lookup_insert_ne; [done|].
  intros Esl. destruct rem_edge as (np0 & n0 & Hp0 & Hs0 & _).
  rewrite E in Ha. assert (np0 = na) as Ena by congruence. rewrite Ena in Hs0.
  fold sl in Hs0. rewrite Esl in Hs0. apply Hcl.
  assert (c = N) as -> by congruence. exact (subtree_top _ _ _ _ Hl).
Qed.

Local Lemma rem_edge_new a c l0 : edge h' a c l0 -> edge h a c l0.
Proof.
  intros (na' & nc' & Ha' & Hs & Hc' & Hl0).
  destruct (rem_new a na' Ha') as (_ & na & Ha & _ & _ & _ & Hsa).
  destruct (rem_new c nc' Hc') as (_ & nc & Hc & Hlc & _).
  exists na, nc. split; [done|]. split; [|split; [done|congruence]].
  rewrite Hsa in Hs. case_decide; [|done].
  apply list_lookup_insert_Some in Hs as [(_ & [=] & _)|(_ & Hs)]. done.
Qed.

Local Lemma rem_path x u : path h r x u -> x ∉ l -> path h' r x u.
Proof.
  induction 1 as [|p0 c s l0 Hp0 IH He]; intros Hxl; [constructor|].
  apply (path_step h' r p0 c s l0); [|now apply rem_edge_old]. apply IH.
  intros Hp0l. apply Hxl. destruct He as (n0 & m & Hn0 & Hs & _).
  exact (subtree_closed f h N l Hl p0 n0 _ c Hp0l Hn0 Hs).
Qed.

Local Lemma rem_path_back x u : path h' r x u -> path h r x u.
Proof.
  induction 1 as [|p0 c s l0 Hp0 IH He]; [constructor|].
  eapply path_step; [exact IH|now apply rem_edge_new].
Qed.

Local Lemma rem_root_notin : r ∉ l.
Proof.
  intros Hr. destruct (wf_root _ _ Hwf) as (nr & Hnr & _ & Hfr).
  destruct (decide (r = N)) as [E|E].
  - rewrite E in Hnr. congruence.
  - destruct (subtree_father _ h N _ Hl r Hr E) as (m & y & Hm & Hfy & _). congruence.
Qed.

Local Lemma rem_wf : wf h' r.
Proof.
  split.
  - destruct (wf_root _ _ Hwf) as (nr & Hnr & Ht & Hfr).
    destruct (rem_old r nr Hnr rem_root_notin) as (nr' & Hnr' & Ht' & Hf' & _).
    exists nr'. split; [done|]. split; congruence.
  - intros a na' Ha'. destruct (rem_new a na' Ha') as (_ & na & Ha & _ & _ & _ & Hsa).
    rewrite Hsa. case_decide; [rewrite length_insert|]; exact (wf_len _ _ Hwf _ _ Ha).
  - intros a na' i c Ha' Hi.
    destruct (rem_new a na' Ha') as (Hal & na & Ha & _ & _ & _ & Hsa).
    assert (sons na !! i = Some (Some c) /\ (a = p -> i <> sl)) as [Hi0 Hisl].
    { rewrite Hsa in Hi. case_decide as E; [|done].
      apply list_lookup_insert_Some in Hi as [(_ & [=] & _)|(Hne & Hi)]. split; [done|].
      intros _ E'. now apply Hne. }
    destruct (wf_son _ _ Hwf _ _ _ _ Ha Hi0) as (m & lc & Hc & Hlc & Hv & Hsl & Hfc).
    assert (c ∉ l) as Hcl.
    { intros Hcl. destruct (rem_son a na i c Ha Hi0 Hal Hcl) as (E1 & _ & E3).
      now apply Hisl. }
    destruct (rem_old c m Hc Hcl) as (m' & Hm' & Ht' & Hf' & _).
    exists m', lc. split; [done|]. split; [congruence|]. do 2 (split; [done|]). congruence.
  - intros a [na' Ha']. destruct (rem_new a na' Ha') as (Hal & na & Ha & _).
    destruct (wf_reach _ _ Hwf a ltac:(eauto)) as [u Hu].
    exists u. now apply rem_path.
Qed.

End RemoveInvariant.

Lemma delete_run h o tr r :
  wf h r ->
  exists l,
    NoDup l /\ (forall x, x ∈ l <-> is_Some (h !! x))
    /\ finalized (events h l) = omap (payload h) l
    /\ exists k, forall fuel, k <= fuel ->
         radixTreeDelete fuel r (mkState h o tr)
         = Ok (tt, mkState ∅ o (tr ++ events h l)).
Proof.
  intros Hwf.
  destruct (wf_root _ _ Hwf) as (n & Hn & Ht & Hf).
  destruct (path_bound h r Hwf) as [B HB].
  destruct (subtree_nodes_exists h r B Hwf HB B r [] (path_root _ _) ltac:(lia)) as [l Hl].
  pose proof (subtree_NoDup h r Hwf _ _ _ _ Hl (path_root _ _)) as Hnd.
  assert (forall x, x ∈ l <-> is_Some (h !! x)) as Hall.
  { intros x. split.
    - intros Hx. destruct (subtree_path h r Hwf _ r l [] Hl (path_root _ _) x Hx) as [u Hu].
      destruct (path_node h r x _ Hwf Hu) as (nx & ? & Hnx & _). eauto.
    - intros Hx. destruct (wf_reach _ _ Hwf x Hx) as [u Hu].
      apply (below_in_subtree h r _ r l [] Hwf Hl (path_root _ _) x u Hu).
      apply prefix_nil. }
  destruct (delete_loop_run _ h o tr r n l Hl Hnd Hn)
    as (k & h2 & ls & -> & (HN2 & Hgone & Hsame) & Hrun).
  exists (ls ++ [r]). do 2 (split; [done|]). split; [apply finalized_events|].
  exists k. intros fuel Hfuel. unfold radixTreeDelete, radixTreeDeleteSubTree.
  rewrite Hrun by done.
  assert (events h (ls ++ [r]) = events h ls ++ fin_events n ++ [EvFree r]) as Hev.
  { rewrite events_app. f_equal. change (events h [r]) with (node_events h r ++ []).
    unfold node_events. now rewrite Hn, app_nil_r. }
  cbn [bind rd heap]. rewrite (isRoot_lookup _ _ _ HN2). cbn [txt].
  rewrite Ht. rewrite bool_decide_true by done. cbn [negb bind ret].
  erewrite freeNode_run; [|exact HN2|now left].
  rewrite Hev, <- !app_assoc. do 3 f_equal.
  apply map_eq. intros x. rewrite lookup_empty.
  destruct (decide (x = r)) as [->|Hxr]; [apply lookup_delete_eq|].
  rewrite lookup_delete_ne by done.
  destruct (decide (x ∈ ls)) as [Hx|Hx]; [now apply Hgone|].
  rewrite Hsame by done. destruct (h !! x) as [nx|] eqn:Hnx; [|done].
  exfalso. assert (x ∈ ls ++ [r]) as Hxl by (apply Hall; eauto).
  revert Hxl Hx Hxr. clear. in_list.
Qed.

(** X11. [radixTreeDelete] on a tree releases every node of it, each once,
    and hands every payload to the finalizer once: the heap is empty
    afterwards. *)
Theorem delete_frees_the_whole_tree h o tr r :
  wf h r ->
  exists l,
    NoDup l /\ (forall x, x ∈ l <-> is_Some (h !! x))
    /\ finalized (events h l) = omap (payload h) l
    /\ exists k, forall fuel, k <= fuel ->
         radixTreeDelete fuel r (mkState h o tr)
         = Ok (tt, mkState ∅ o (tr ++ events h l)).
Proof. apply delete_run. Qed.

(** X12. [radixTreeDeleteSubTree] at a node other than the root removes the
    nodes whose text starts with the text [sN] of the node, and only them:
    the tree stays well formed, the other nodes keep text and payload, a
    lookup of a key that starts with [sN] ends with NOT_FOUND, and a lookup
    of another key that ended with FOUND still does, at the same node. *)
Theorem deleteSubTree_keeps_the_rest h o tr r N n :
  wf h r -> h !! N = Some n -> N <> r ->
  exists sN k,
    (forall f, length sN < f ->
       radixGetFullText f N (mkState h [] []) = Ok (Some sN, mkState h [] []))
    /\ forall fuel, k <= fuel ->
       exists s',
         radixTreeDeleteSubTree fuel N (mkState h o tr) = Ok (tt, s')
         /\ wf (heap s') r
         /\ (forall x W f,
               radixGetFullText f x (mkState h [] []) = Ok (Some W, mkState h [] []) ->
               (sN `prefix_of` W -> heap s' !! x = None)
               /\ (~ sN `prefix_of` W ->
                   radixTreeGetNodeData (heap s') x = radixTreeGetNodeData h x
                   /\ forall f', length W < f' ->
                        radixGetFullText f' x (mkState (heap s') [] [])
                        = Ok (Some W, mkState (heap s') [] [])))
         /\ (forall K f, valid_key K -> length K < f -> sN `prefix_of` K ->
               exists q t' i,
                 radixTreeFind f (heap s') r K = Ok (RADIX_TREE_NOT_FOUND, q, t', i))
         /\ (forall K f a, valid_key K -> length K < f -> ~ sN `prefix_of` K ->
               (exists t' i, radixTreeFind f h r K = Ok (RADIX_TREE_FOUND, a, t', i)) ->
               exists i', radixTreeFind f (heap s') r K
                          = Ok (RADIX_TREE_FOUND, a, [], i')).
Proof.
  intros Hwf Hn HNr.
  destruct (path_bound h r Hwf) as [B HB].
  destruct (node_label h r N n Hwf Hn HNr) as (p & sp & lbl & Hsp & He & Hlbl & Hv).
  pose proof (path_step _ _ _ _ _ _ Hsp He) as HsN.
  destruct (subtree_nodes_exists h r B Hwf HB B N _ HsN ltac:(lia)) as [l Hl].
  pose proof (subtree_NoDup h r Hwf _ _ _ _ Hl HsN) as Hnd.
  destruct (delete_loop_run _ h o tr N n l Hl Hnd Hn)
    as (k & h2 & ls & El & (HN2 & Hgone & Hsame) & Hrun).
  destruct (edge_father _ _ _ _ _ Hwf He) as (n' & Hn' & Hf).
  assert (n' = n) as -> by congruence.
  pose proof (father_not_in_subtree h r _ N n _ p Hwf Hl Hn Hf) as Hpl.
  pose proof He as (np & nN & Hp & Hson & _).
  assert (p <> N) as HpN by (intros ->; apply Hpl; exact (subtree_top _ _ _ _ Hl)).
  assert (h2 !! p = Some np) as Hp2.
  { rewrite Hsame; [done|done|]. intros Hpls. apply Hpl. rewrite El. in_list. }
  set (np' := set_sons (<[slot (first_char lbl) := None]> (sons np)) np).
  set (h' := delete N (<[p := np']> h2)).
  assert (forall x, x ∈ l -> h' !! x = None) as Hgone'.
  { intros x Hx. unfold h'. destruct (decide (x = N)) as [->|HxN]; [apply lookup_delete_eq|].
    rewrite lookup_delete_ne by done.
    rewrite lookup_insert_ne by (intros ->; done).
    apply Hgone. rewrite El in Hx. revert Hx HxN. clear. in_list. }
  assert (h' !! p = Some np') as Hp'.
  { unfold h'. rewrite lookup_delete_ne by done. apply lookup_insert_eq. }
  assert (forall x, x ∉ l -> x <> p -> h' !! x = h !! x) as Hsame'.
  { intros x Hx Hxp. unfold h'.
    assert (x <> N) as HxN by (intros ->; apply Hx; exact (subtree_top _ _ _ _ Hl)).
    rewrite lookup_delete_ne by done. rewrite lookup_insert_ne by done.
    apply Hsame; [done|]. intros Hxls. apply Hx. rewrite El. in_list. }
  pose proof (rem_wf h h' r N p n np lbl l _ Hwf Hn Hlbl Hf Hp Hl Hgone' Hp' Hsame') as Hwf'.
  pose proof (rem_path h h' r N p n np lbl l _ Hwf Hn Hlbl Hf Hp Hl Hp' Hsame')
    as Hpath'.
  assert (forall x W, path h r x W -> ~ (sp ++ lbl) `prefix_of` W -> x ∉ l) as Hout.
  { intros x W HW Hnp Hxl.
    destruct (subtree_path h r Hwf _ N l _ Hl HsN x Hxl) as [u Hu].
    apply Hnp. exists u. exact (path_unique h r x _ _ Hwf HW Hu). }
  exists (sp ++ lbl), k. split.
  { intros f Hf'. now apply (getFullText_path h [] [] r N (sp ++ lbl) f). }
  intros fuel Hfuel. exists (mkState h' o (tr ++ events h l)).
  split.
  { unfold radixTreeDeleteSubTree. rewrite Hrun by done.
    assert (events h l = events h ls ++ fin_events n ++ [EvFree N]) as Hev.
    { rewrite El, events_app. f_equal. change (events h [N]) with (node_events h N ++ []).
      unfold node_events. now rewrite Hn, app_nil_r. }
    cbn [bind rd heap]. rewrite (isRoot_lookup _ _ _ HN2). cbn [txt].
    rewrite Hlbl.
    rewrite bool_decide_false by (now apply valid_label_not_root).
    cbn [negb bind rd heap lift nonnull]. rewrite (load_Some _ _ _ HN2). cbn [txt].
    rewrite Hlbl. cbn [father]. rewrite Hf. cbn [bind nonnull].
    erewrite changeSon_run;
      [|exact Hp2|now apply first_char_valid|exact (wf_len _ _ Hwf _ _ Hp)].
    cbn [bind].
    erewrite freeNode_run; [|rewrite lookup_insert_ne by done; exact HN2|now left].
    now rewrite Hev, <- !app_assoc. }
  cbn [heap]. split; [exact Hwf'|]. split; [|split].
  - intros x W f Hget.
    destruct (getFullText_inv _ _ _ _ _ _ _ _ Hwf Hget)
      as (_ & [[[=] _]|(W' & [= <-] & _ & HW)]).
    split.
    + intros Hpre. apply Hgone'.
      exact (below_in_subtree h r _ N l _ Hwf Hl HsN x W HW Hpre).
    + intros Hnpre. pose proof (Hout x W HW Hnpre) as Hxl.
      destruct (path_node h r x W Hwf HW) as (nx & ? & Hnx & _).
      destruct (rem_old h h' p np lbl l Hp Hp' Hsame' x nx Hnx Hxl)
        as (nx' & Hnx' & _ & _ & Hd & _).
      split.
      * unfold radixTreeGetNodeData.
        rewrite (load_Some _ _ _ Hnx), (load_Some _ _ _ Hnx'). cbn [bindR]. now f_equal.
      * intros f' Hf'. apply (getFullText_path h' [] [] r x W f'); try done.
        now apply Hpath'.
  - intros K f HK Hf' [u ->].
    destruct (path_node h r p sp Hwf Hsp) as (np0 & lp & Hnp0 & Hlp).
    assert (np0 = np) as -> by congruence.
    rewrite <- app_assoc in Hf' |- *.
    destruct (lbl ++ u) as [|c t0] eqn:Elu.
    { destruct Hv as [Hne _]. now destruct lbl. }
    assert (first_char lbl = c) as Hfc.
    { destruct Hv as [Hne _]. destruct lbl; [done|]. now injection Elu as -> _. }
    eexists _, _, _.
    apply (find_missing_son h' r p sp np' lp c t0 f); try done.
    + now apply Hpath'.
    + rewrite <- Hfc. now apply first_char_valid.
    + unfold np'. cbn [sons]. rewrite <- Hfc. apply list_lookup_insert_eq.
      rewrite (wf_len _ _ Hwf _ _ Hp). apply slot_lt. now apply first_char_valid.
  - intros K f a HK Hf' Hnpre (t' & i & Hfind).
    destruct (find_spec h r f K Hwf HK Hf') as (st & q & t'' & i'' & Hrun' & Hpost).
    rewrite Hfind in Hrun'. injection Hrun' as <- <- <- <-.
    destruct Hpost as [[(na & la & s & _ & _ & _ & Hpa & -> & _) Hst]|[_ Hst]];
      [|now destruct t'].
    destruct t' as [|c t']; [|done]. rewrite app_nil_r in Hf', Hnpre |- *.
    destruct (find_path h' r a s f Hwf' (Hpath' _ _ Hpa (Hout _ _ Hpa Hnpre)) Hf')
      as (? & ? & _ & _ & E).
    eauto.
Qed.

(** *** A leaf that holds nothing *)

Lemma sons_nodes_none rec h a rest :
  filter (fun o : option addr => o <> None) rest = [] ->
  forall i, sons_nodes rec h a i rest = Some [].
Proof.
  induction rest as [|[c|] rest IH]; intros Hfil i; [done| |].
  - rewrite filter_cons_True in Hfil by done. done.
  - rewrite filter_cons_False in Hfil by (intros H; now apply H). simpl. now apply IH.
Qed.

Lemma redundant_inv h pos :
  radixTreeIsNodeRedundant h pos = Ok true ->
  exists n, h !! pos = Some n /\ radixTreeIsRoot h pos = Ok false
            /\ length (sons n) = RADIX_TREE_NUMBER_OF_SONS
            /\ filter (fun o : option addr => o <> None) (sons n) = []
            /\ data n = None.
Proof.
  unfold radixTreeIsNodeRedundant, radixTreeHasSons, radixTreeHowManySons.
  destruct (radixTreeIsRoot h pos) as [[]|] eqn:Hr; try done. cbn [bindR negb].
  unfold load. destruct (h !! pos) as [n|] eqn:Hn; [|done]. cbn [bindR].
  case_decide as Hlen; [|done]. cbn [bindR].
  destruct (filter _ (sons n)) as [|? ?] eqn:Hfil; [|done]. cbn [length Nat.eqb negb].
  case_bool_decide; [|done]. intros _. exists n. done.
Qed.

(** What a turn of the loop of [radixTreeBalance] does at a redundant
    node. *)
Lemma redundant_step h o tr r pos skipped :
  wf h r -> radixTreeIsNodeRedundant h pos = Ok true ->
  exists p sp lbl n h',
    h !! pos = Some n /\ father n = Some p /\ data n = None /\ valid_label lbl
    /\ path h r p sp /\ path h r pos (sp ++ lbl)
    /\ balance_step pos skipped (mkState h o tr)
       = Ok ((Some p, skipped), mkState h' o (tr ++ [EvFree pos]))
    /\ h' !! pos = None
    /\ wf h' r
    /\ (forall x nx, h !! x = Some nx -> x <> pos ->
          exists nx', h' !! x = Some nx' /\ data nx' = data nx)
    /\ (forall x, is_Some (h' !! x) -> is_Some (h !! x))
    /\ (forall x u, path h r x u -> x <> pos -> path h' r x u)
    /\ (forall x u, path h' r x u -> path h r x u).
Proof.
  intros Hwf Hred.
  destruct (redundant_inv h pos Hred) as (n & Hn & Hroot & Hlen & Hfil & Hd).
  assert (pos <> r) as Hposr.
  { intros ->. rewrite (isRoot_root _ _ Hwf) in Hroot. done. }
  destruct (node_label h r pos n Hwf Hn Hposr) as (p & sp & lbl & Hsp & He & Hlbl & Hv).
  destruct (edge_father _ _ _ _ _ Hwf He) as (n' & Hn' & Hf).
  assert (n' = n) as -> by congruence.
  pose proof He as (np & nN & Hp & Hson & _).
  assert (subtree_nodes 1 h pos = Some [pos]) as Hl.
  { rewrite subtree_nodes_S, Hn. rewrite decide_True by done.
    now rewrite (sons_nodes_none _ _ _ _ Hfil). }
  pose proof (father_not_in_subtree h r _ pos n _ p Hwf Hl Hn Hf) as Hpl.
  assert (p <> pos) as Hppos.
  { intros ->. apply Hpl. now apply list_elem_of_singleton. }
  set (np' := set_sons (<[slot (first_char lbl) := None]> (sons np)) np).
  set (h' := delete pos (<[p := np']> h)).
  assert (forall x, x ∈ [pos] -> h' !! x = None) as Hgone'.
  { intros x ->%list_elem_of_singleton. apply lookup_delete_eq. }
  assert (h' !! p = Some np') as Hp'.
  { unfold h'. rewrite lookup_delete_ne by done. apply lookup_insert_eq. }
  assert (forall x, x ∉ [pos] -> x <> p -> h' !! x = h !! x) as Hsame'.
  { intros x Hx Hxp. unfold h'.
    rewrite lookup_delete_ne by (intros ->; apply Hx; now apply list_elem_of_singleton).
    now rewrite lookup_insert_ne. }
  exists p, sp, lbl, n, h'. do 4 (split; [done|]). split; [done|].
  split; [exact (path_step _ _ _ _ _ _ Hsp He)|]. split.
  { unfold balance_step. cbn [bind rd heap]. rewrite (load_Some _ _ _ Hn).
    cbn [bind rd heap]. rewrite Hred. cbn [bind rd heap lift]. rewrite Hlbl.
    cbn [nonnull bind]. rewrite Hf.
    erewrite changeSon_run;
      [|exact Hp|now apply first_char_valid|exact (wf_len _ _ Hwf _ _ Hp)].
    cbn [bind].
    erewrite freeNode_run; [|rewrite lookup_insert_ne by done; exact Hn|now left].
    reflexivity. }
  split; [apply lookup_delete_eq|].
  split; [exact (rem_wf h h' r pos p n np lbl _ _ Hwf Hn Hlbl Hf Hp Hl Hgone' Hp' Hsame')|].
  split; [|split; [|split]].
  - intros x nx Hnx Hx.
    destruct (rem_old h h' p np lbl _ Hp Hp' Hsame' x nx Hnx)
      as (nx' & Hnx' & _ & _ & Hdx & _); [|eauto].
    now intros ?%list_elem_of_singleton.
  - intros x [nx' Hnx'].
    destruct (rem_new h h' p np lbl _ Hp Hgone' Hp' Hsame' x nx' Hnx')
      as (_ & nx & Hnx0 & _). eauto.
  - intros x u Hu Hx.
    apply (rem_path h h' r pos p n np lbl _ _ Hwf Hn Hlbl Hf Hp Hl Hp' Hsame' x u Hu).
    now intros ?%list_elem_of_singleton.
  - exact (rem_path_back h h' r p np lbl _ Hp Hgone' Hp' Hsame').
Qed.

(** X13. At a node that is redundant (not the root, without sons and
    without payload) a turn of the loop of [radixTreeBalance] releases the
    node, takes it out of its father and goes on at the father without
    counting a skipped node. The tree stays well formed, the other nodes
    keep their payloads, and every other lookup that ended with FOUND still
    does, at the same node. *)
Theorem balance_drops_a_redundant_leaf h o tr r pos skipped :
  wf h r -> radixTreeIsNodeRedundant h pos = Ok true ->
  exists p h',
    radixTreeFather h pos = Ok (Some p)
    /\ balance_step pos skipped (mkState h o tr)
       = Ok ((Some p, skipped), mkState h' o (tr ++ [EvFree pos]))
    /\ h' !! pos = None
    /\ wf h' r
    /\ (forall x, x <> pos -> radixTreeGetNodeData h' x = radixTreeGetNodeData h x)
    /\ (forall K f a, valid_key K -> length K < f -> a <> pos ->
          (exists t' i, radixTreeFind f h r K = Ok (RADIX_TREE_FOUND, a, t', i)) ->
          exists i', radixTreeFind f h' r K = Ok (RADIX_TREE_FOUND, a, [], i')).
Proof.
  intros Hwf Hred.
  destruct (redundant_step h o tr r pos skipped Hwf Hred)
    as (p & sp & lbl & n & h' & Hn & Hf & _ & _ & _ & _ & Hrun & Hgone & Hwf'
        & Hold & Hnew & Hpath & _).
  exists p, h'. split.
  { unfold radixTreeFather. rewrite (load_Some _ _ _ Hn). cbn [bindR]. now rewrite Hf. }
  do 3 (split; [done|]). split.
  - intros x Hx. unfold radixTreeGetNodeData, load.
    destruct (h !! x) as [nx|] eqn:Hnx.
    + destruct (Hold x nx Hnx Hx) as (nx' & Hnx' & Hdx).
      rewrite Hnx'. cbn [bindR]. now f_equal.
    + destruct (h' !! x) as [nx'|] eqn:Hnx'; [|done].
      destruct (Hnew x ltac:(eauto)) as [? ?]. congruence.
  - intros K f a HK Hf' Ha (t' & i & Hfind).
    destruct (find_spec h r f K Hwf HK Hf') as (st & q & t'' & i'' & Hrun' & Hpost).
    rewrite Hfind in Hrun'. injection Hrun' as <- <- <- <-.
    destruct Hpost as [[(na & la & s & _ & _ & _ & Hpa & -> & _) Hst]|[_ Hst]];
      [|now destruct t'].
    destruct t' as [|c t']; [|done]. rewrite app_nil_r in Hf' |- *.
    destruct (find_path h' r a s f Hwf') as (? & ? & _ & _ & E); [|done|eauto].
    now apply Hpath.
Qed.

(** ** Compaction of a chain *)

Section MergeInvariant.

(** The node [a], below [p], has no payload and the one son [b]; the heap
    [h'] is [h] once [a] has been merged into [b]. *)
Variables (h : gmap addr RadixTreeNode) (r a b p : addr) (na nb np : RadixTreeNode).
Variables (la lb : list ascii).
Hypothesis Hwf : wf h r.
Hypothesis Ha : h !! a = Some na.
Hypothesis Hla : txt na = Some la.
Hypothesis Hfa : father na = Some p.
Hypothesis Hda : data na = None.
Hypothesis Hp : h !! p = Some np.
Hypothesis Hb : h !! b = Some nb.
Hypothesis Hlb : txt nb = Some lb.
Hypothesis Hfb : father nb = Some a.
Hypothesis Honly : forall i c, sons na !! i = Some (Some c) -> c = b.

Let sa := slot (first_char la).
Let nb' := set_father (Some p) (set_txt (Some (la ++ lb)) nb).
Let np' := set_sons (<[sa := Some b]> (sons np)) np.
Let h' := delete a (<[p := np']> (<[b := nb']> h)).

Local Lemma mrg_edge_pa : edge h p a la.
Proof. exact (edge_of_son h r p a na la Hwf Ha Hla Hfa). Qed.

Local Lemma mrg_edge_ab : edge h a b lb.
Proof. exact (edge_of_son h r a b nb lb Hwf Hb Hlb Hfb). Qed.

Local Lemma mrg_la : valid_label la.
Proof. exact (edge_label _ _ _ _ _ Hwf mrg_edge_pa). Qed.

Local Lemma mrg_lb : valid_label lb.
Proof. exact (edge_label _ _ _ _ _ Hwf mrg_edge_ab). Qed.

Local Lemma mrg_paths :
  exists sp, path h r p sp /\ path h r a (sp ++ la) /\ path h r b ((sp ++ la) ++ lb).
Proof.
  destruct (wf_reach _ _ Hwf p ltac:(eauto)) as [sp Hsp]. exists sp.
  pose proof (path_step _ _ _ _ _ _ Hsp mrg_edge_pa) as Hsa.
  split; [done|]. split; [done|]. exact (path_step _ _ _ _ _ _ Hsa mrg_edge_ab).
Qed.

Local Lemma mrg_ab : a <> b.
Proof.
  intros E. destruct mrg_paths as (sp & _ & Hsa & _).
  apply (edge_irrefl h r a _ lb Hwf Hsa). rewrite E at 2. exact mrg_edge_ab.
Qed.

Local Lemma mrg_pa : p <> a.
Proof.
  intros E. destruct mrg_paths as (sp & Hsp & _).
  apply (edge_irrefl h r p _ la Hwf Hsp). rewrite E at 2. exact mrg_edge_pa.
Qed.

Local Lemma mrg_pb : p <> b.
Proof.
  intros E. destruct mrg_paths as (sp & Hsp & _ & Hsb). rewrite <- E in Hsb.
  pose proof (path_unique h r p _ _ Hwf Hsp Hsb) as El.
  apply (f_equal length) in El. rewrite !length_app in El.
  destruct mrg_la as [Hne _]. destruct la; [done|]. simpl in El. lia.
Qed.

Local Lemma mrg_label : valid_label (la ++ lb) /\ first_char (la ++ lb) = first_char la.
Proof.
  destruct mrg_la as [Hne Hv], mrg_lb as [_ Hv']. split; [split|].
  - now destruct la.
  - apply valid_key_app. done.
  - now apply first_char_app.
Qed.

Local Lemma mrg_lookup x :
  h' !! x = if decide (x = a) then None
            else if decide (x = p) then Some np'
            else if decide (x = b) then Some nb'
            else h !! x.
Proof.
  unfold h'. case_decide as E1; [rewrite E1; apply lookup_delete_eq|].
  rewrite lookup_delete_ne by congruence. rewrite !lookup_insert.
  repeat case_decide; congruence.
Qed.

Local Lemma mrg_old x nx :
  h !! x = Some nx -> x <> a ->
  exists nx', h' !! x = Some nx' /\ data nx' = data nx
    /\ txt nx' = (if decide (x = b) then Some (la ++ lb) else txt nx)
    /\ father nx' = (if decide (x = b) then Some p else father nx)
    /\ sons nx' = (if decide (x = p) then <[sa := Some b]> (sons nx) else sons nx).
Proof.
  intros Hx Hxa. rewrite mrg_lookup. rewrite decide_False by done.
  pose proof mrg_pb as Hpb.
  destruct (decide (x = p)) as [E|E].
  - rewrite E in Hx. assert (nx = np) as Enp by congruence. rewrite Enp.
    exists np'. rewrite !decide_False by congruence. done.
  - destruct (decide (x = b)) as [E'|E'].
    + rewrite E' in Hx. assert (nx = nb) as Enb by congruence. rewrite Enb.
      exists nb'. done.
    + exists nx. done.
Qed.

Local Lemma mrg_new x nx' :
  h' !! x = Some nx' ->
  x <> a /\ exists nx, h !! x = Some nx /\ data nx' = data nx
    /\ txt nx' = (if decide (x = b) then Some (la ++ lb) else txt nx)
    /\ father nx' = (if decide (x = b) then Some p else father nx)
    /\ sons nx' = (if decide (x = p) then <[sa := Some b]> (sons nx) else sons nx).
Proof.
  rewrite mrg_lookup. case_decide as E1; [done|]. intros Hx. split; [done|].
  pose proof mrg_pb as Hpb.
  destruct (decide (x = p)) as [E|E].
  - injection Hx as <-. exists np. rewrite E. rewrite !decide_False by congruence. done.
  - destruct (decide (x = b)) as [E'|E'].
    + injection Hx as <-. exists nb. rewrite E'. done.
    + exists nx'. done.
Qed.

Local Lemma mrg_sa : sa < length (sons np).
Proof.
  rewrite (wf_len _ _ Hwf _ _ Hp). apply slot_lt, first_char_valid, mrg_la.
Qed.

Local Lemma mrg_edge_pb : edge h' p b (la ++ lb).
Proof.
  destruct (mrg_old p np Hp mrg_pa) as (np0 & Hp0 & _ & _ & _ & Hs0).
  destruct (mrg_old b nb Hb ltac:(pose proof mrg_ab; congruence))
    as (nb0 & Hb0 & _ & Ht0 & _).
  rewrite decide_True in Hs0 by done. rewrite decide_True in Ht0 by done.
  exists np0, nb0. split; [done|]. split; [|done].
  rewrite Hs0. destruct mrg_label as [_ ->]. apply list_lookup_insert_eq, mrg_sa.
Qed.

Local Lemma mrg_edge_old x c l0 : edge h x c l0 -> x <> a -> c <> a -> edge h' x c l0.
Proof.
  intros He Hxa Hca.
  destruct (edge_father _ _ _ _ _ Hwf He) as (m & Hm & Hfm).
  destruct He as (nx & nc & Hx & Hs & Hc & Hl0).
  assert (c <> b) as Hcb.
  { intros E. rewrite E in Hm. apply Hxa. congruence. }
  destruct (mrg_old x nx Hx Hxa) as (nx' & Hx' & _ & _ & _ & Hsx).
  destruct (mrg_old c nc Hc Hca) as (nc' & Hc' & _ & Htc & _).
  rewrite decide_False in Htc by done.
  exists nx', nc'. split; [done|]. split; [|split; [done|congruence]].
  rewrite Hsx. case_decide as E; [|done].
  rewrite list_lookup_insert_ne; [done|].
  intros Esl. destruct mrg_edge_pa as (np0 & na0 & Hp0 & Hs0 & _).
  rewrite E in Hx. assert (np0 = nx) as Enx by congruence. rewrite Enx in Hs0.
  fold sa in Hs0. rewrite Esl in Hs0. apply Hca. congruence.
Qed.

Local Lemma mrg_path x u :
  path h r x u ->
  (x <> a -> path h' r x u)
  /\ (x = a -> exists s0, u = s0 ++ la /\ path h' r p s0).
Proof.
  induction 1 as [|p0 c s l0 Hp0 [IH1 IH2] He].
  - split; [constructor|]. intros E. exfalso.
    destruct (wf_root _ _ Hwf) as (nr & Hnr & _ & Hfr). rewrite E in Hnr. congruence.
  - destruct (edge_father _ _ _ _ _ Hwf He) as (m & Hm & Hfm). split.
    + intros Hca. destruct (decide (p0 = a)) as [E|E].
      * destruct (IH2 E) as (s0 & Es & Hs0).
        pose proof He as (n0 & nc & Hn0 & Hs & Hc & Hl0).
        rewrite E in Hn0. assert (n0 = na) as En0 by congruence. rewrite En0 in Hs.
        pose proof (Honly _ _ Hs) as Ecb.
        rewrite Ecb in Hc |- *. assert (l0 = lb) as -> by congruence.
        rewrite Es, <- app_assoc.
        exact (path_step _ _ _ _ _ _ Hs0 mrg_edge_pb).
      * apply (path_step h' r p0 c s l0); [now apply IH1|now apply mrg_edge_old].
    + intros E. rewrite E in Hm, He.
      assert (p0 = p) as Ep by congruence.
      assert (l0 = la) as ->.
      { destruct He as (? & ? & _ & _ & ? & ?). congruence. }
      exists s. split; [done|]. rewrite <- Ep. apply IH1. rewrite Ep. exact mrg_pa.
Qed.

Local Lemma mrg_wf : wf h' r.
Proof.
  pose proof mrg_ab as Hab. pose proof mrg_pa as Hpa. pose proof mrg_pb as Hpb.
  split.
  - destruct (wf_root _ _ Hwf) as (nr & Hnr & Ht & Hfr).
    assert (r <> a) as Hra by (intros E; rewrite E in Hnr; congruence).
    assert (r <> b) as Hrb by (intros E; rewrite E in Hnr; congruence).
    destruct (mrg_old r nr Hnr Hra) as (nr' & Hnr' & _ & Ht' & Hf' & _).
    rewrite decide_False in Ht' by done. rewrite decide_False in Hf' by done.
    exists nr'. split; [done|]. split; congruence.
  - intros x nx' Hx'. destruct (mrg_new x nx' Hx') as (_ & nx & Hx & _ & _ & _ & Hsx).
    rewrite Hsx. case_decide; [rewrite length_insert|]; exact (wf_len _ _ Hwf _ _ Hx).
  - intros x nx' i c Hx' Hi.
    destruct (mrg_new x nx' Hx') as (Hxa & nx & Hx & _ & _ & _ & Hsx).
    rewrite Hsx in Hi. destruct (decide (x = p)) as [E|E].
    + apply list_lookup_insert_Some in Hi as [(<- & [= <-] & _)|(Hne & Hi)].
      * destruct (mrg_old b nb Hb ltac:(congruence)) as (nb0 & Hb0 & _ & Ht0 & Hf0 & _).
        rewrite decide_True in Ht0 by done. rewrite decide_True in Hf0 by done.
        destruct mrg_label as [Hv Hfc].
        exists nb0, (la ++ lb). split; [done|]. split; [done|]. split; [done|].
        split; [now rewrite Hfc|congruence].
      * destruct (wf_son _ _ Hwf _ _ _ _ Hx Hi) as (m & lc & Hc & Hlc & Hv & Hsl & Hfc).
        assert (c <> a) as Hca.
        { intros Eca. rewrite Eca in Hc. assert (m = na) as Em by congruence.
          rewrite Em in Hlc. apply Hne. unfold sa. congruence. }
        assert (c <> b) as Hcb.
        { intros Ecb. rewrite Ecb in Hc. assert (m = nb) as Em by congruence.
          rewrite Em in Hfc. apply Hpa. congruence. }
        destruct (mrg_old c m Hc Hca) as (m' & Hm' & _ & Ht' & Hf' & _).
        rewrite decide_False in Ht' by done. rewrite decide_False in Hf' by done.
        exists m', lc. split; [done|]. split; [congruence|].
        do 2 (split; [done|]). congruence.
    + destruct (wf_son _ _ Hwf _ _ _ _ Hx Hi) as (m & lc & Hc & Hlc & Hv & Hsl & Hfc).
      assert (c <> a) as Hca.
      { intros Eca. rewrite Eca in Hc. assert (m = na) as Em by congruence.
        rewrite Em in Hfc. apply E. congruence. }
      assert (c <> b) as Hcb.
      { intros Ecb. rewrite Ecb in Hc. assert (m = nb) as Em by congruence.
        rewrite Em in Hfc. apply Hxa. congruence. }
      destruct (mrg_old c m Hc Hca) as (m' & Hm' & _ & Ht' & Hf' & _).
      rewrite decide_False in Ht' by done. rewrite decide_False in Hf' by done.
      exists m', lc. split; [done|]. split; [congruence|].
      do 2 (split; [done|]). congruence.
  - intros x [nx' Hx']. destruct (mrg_new x nx' Hx') as (Hxa & nx & Hx & _).
    destruct (wf_reach _ _ Hwf x ltac:(eauto)) as [u Hu].
    exists u. now apply (mrg_path x u Hu).
Qed.

Local Lemma mrg_run o tr :
  radixTreeMerge a (Some b) (mkState h o tr)
  = if hd true o
    then Ok (None, mkState h' (tail o) (tr ++ [EvFree a]))
    else Ok (Some RADIX_TREE_OPERATION_FAIL, mkState h (tail o) tr).
Proof.
  pose proof mrg_ab as Hab. pose proof mrg_pa as Hpa. pose proof mrg_pb as Hpb.
  destruct mrg_label as [Hv Hfc].
  unfold radixTreeMerge. cbn [bind rd lift heap]. rewrite (load_Some _ _ _ Ha).
  cbn [bind rd lift heap]. rewrite Hla. cbn [bind rd lift heap nonnull].
  rewrite (load_Some _ _ _ Hb). cbn [bind rd lift heap]. rewrite Hlb.
  cbn [bind rd lift heap nonnull]. rewrite malloc_run.
  destruct (hd true o); [|reflexivity]. cbn [negb].
  unfold copyText. rewrite !firstn_all.
  msimpl. rewrite Hb. msimpl. rewrite lookup_insert_eq. msimpl. rewrite Hfa.
  cbn [bind].
  erewrite changeSon_run;
    [|rewrite !lookup_insert_ne by congruence; exact Hp
     |now apply first_char_valid|exact (wf_len _ _ Hwf _ _ Hp)].
  cbn [bind].
  erewrite freeNode_run;
    [|rewrite !lookup_insert_ne by congruence; exact Ha|now left].
  do 3 f_equal. unfold h', np', nb', sa. rewrite Hfc. f_equal. f_equal.
  now rewrite insert_insert_eq.
Qed.

End MergeInvariant.

Lemma mergeable_inv h a :
  radixTreeCanBeMergedWithSon h a = Ok true ->
  exists n b, h !! a = Some n /\ radixTreeIsRoot h a = Ok false
            /\ length (sons n) = RADIX_TREE_NUMBER_OF_SONS
            /\ filter (fun o : option addr => o <> None) (sons n) = [Some b]
            /\ data n = None.
Proof.
  unfold radixTreeCanBeMergedWithSon, radixTreeHowManySons.
  destruct (radixTreeIsRoot h a) as [[]|] eqn:Hr; try done. cbn [bindR negb].
  unfold load. destruct (h !! a) as [n|] eqn:Hn; [|done]. cbn [bindR].
  case_decide as Hlen; [|done]. cbn [bindR].
  destruct (filter _ (sons n)) as [|o [|? ?]] eqn:Hfil; try done. cbn [length Nat.eqb].
  case_bool_decide; [|done]. intros _.
  assert (o ∈ filter (fun o : option addr => o <> None) (sons n)) as Ho
    by (rewrite Hfil; now apply list_elem_of_singleton).
  apply list_elem_of_filter in Ho as [Ho _]. destruct o as [b|]; [|done].
  exists n, b. done.
Qed.

Lemma only_son (l : list (option addr)) b i c :
  filter (fun o : option addr => o <> None) l = [Some b] ->
  l !! i = Some (Some c) -> c = b.
Proof.
  intros Hfil Hi.
  assert (Some c ∈ filter (fun o : option addr => o <> None) l) as Hc.
  { apply list_elem_of_filter. split; [done|]. now apply list_elem_of_lookup_2 in Hi. }
  rewrite Hfil in Hc. apply list_elem_of_singleton in Hc. congruence.
Qed.

Lemma only_son_at (l : list (option addr)) b :
  filter (fun o : option addr => o <> None) l = [Some b] ->
  exists i, l !! i = Some (Some b).
Proof.
  intros Hfil.
  assert (Some b ∈ filter (fun o : option addr => o <> None) l) as Hb
    by (rewrite Hfil; now apply list_elem_of_singleton).
  apply list_elem_of_filter in Hb as [_ Hb]. now apply list_elem_of_lookup_1 in Hb.
Qed.

(** All that a merge at a node of a well-formed tree does, when the node
    can be merged with its son. *)
Lemma merge_step h o tr r a :
  wf h r -> radixTreeCanBeMergedWithSon h a = Ok true ->
  exists b p sp (la lb : list ascii) n h',
    h !! a = Some n /\ father n = Some p /\ txt n = Some la /\ la <> RADIX_TREE_ROOT_TXT
    /\ path h r p sp /\ path h r a (sp ++ la)
    /\ radixTreeFristSon h a = Ok (Some b)
    /\ radixTreeHowManyChars h b = Ok (length lb)
    /\ radixTreeMerge a (Some b) (mkState h o tr)
       = (if hd true o
          then Ok (None, mkState h' (tail o) (tr ++ [EvFree a]))
          else Ok (Some RADIX_TREE_OPERATION_FAIL, mkState h (tail o) tr))
    /\ h' !! a = None
    /\ wf h' r
    /\ radixTreeHowManyChars h' b = Ok (length la + length lb)
    /\ radixTreeFather h' b = Ok (Some p)
    /\ (forall x nx, h !! x = Some nx -> x <> a ->
          exists nx', h' !! x = Some nx' /\ data nx' = data nx)
    /\ (forall x, is_Some (h' !! x) -> is_Some (h !! x))
    /\ (forall x u, path h r x u -> x <> a -> path h' r x u).
Proof.
  intros Hwf Hmer.
  destruct (mergeable_inv h a Hmer) as (n & b & Hn & Hroot & Hlen & Hfil & Hd).
  assert (a <> r) as Har.
  { intros ->. rewrite (isRoot_root _ _ Hwf) in Hroot. done. }
  destruct (node_label h r a n Hwf Hn Har) as (p & sp & la & Hsp & He & Hla & Hv).
  destruct (edge_father _ _ _ _ _ Hwf He) as (n' & Hn' & Hf).
  assert (n' = n) as -> by congruence.
  pose proof He as (np & nN & Hp & _).
  destruct (only_son_at _ _ Hfil) as [i Hi].
  destruct (wf_son _ _ Hwf _ _ _ _ Hn Hi) as (nb & lb & Hb & Hlb & Hvb & _ & Hfb).
  pose proof (fun i c => only_son (sons n) b i c Hfil) as Honly.
  set (h' := delete a
               (<[p := set_sons (<[slot (first_char la) := Some b]> (sons np)) np]>
                  (<[b := set_father (Some p) (set_txt (Some (la ++ lb)) nb)]> h))).
  destruct (mrg_old h r a b p n nb np la lb Hwf Hn Hla Hf Hp Hb Hlb Hfb b nb Hb)
    as (nb' & Hb' & _ & Ht' & Hf' & _).
  { intros E. rewrite <- E in Hfb.
    apply (edge_irrefl h r b (sp ++ la) lb Hwf).
    - rewrite E. exact (path_step _ _ _ _ _ _ Hsp He).
    - exact (edge_of_son h r b b nb lb Hwf Hb Hlb Hfb). }
  rewrite decide_True in Ht' by done. rewrite decide_True in Hf' by done.
  exists b, p, sp, la, lb, n, h'.
  do 3 (split; [done|]). split; [now apply valid_label_not_root|].
  split; [done|]. split; [exact (path_step _ _ _ _ _ _ Hsp He)|].
  split.
  { unfold radixTreeFristSon. rewrite (load_Some _ _ _ Hn). cbn [bindR].
    rewrite decide_True by done. now rewrite Hfil. }
  split.
  { unfold radixTreeHowManyChars. rewrite (load_Some _ _ _ Hb). cbn [bindR].
    now rewrite Hlb. }
  split; [exact (mrg_run h r a b p n nb np la lb Hwf Hn Hla Hf Hd Hp Hb Hlb Hfb o tr)|].
  split; [apply lookup_delete_eq|].
  split; [exact (mrg_wf h r a b p n nb np la lb Hwf Hn Hla Hf Hp Hb Hlb Hfb Honly)|].
  split.
  { unfold radixTreeHowManyChars. fold h' in Hb'. rewrite (load_Some _ _ _ Hb').
    cbn [bindR]. rewrite Ht'. cbn [nonnull bindR]. now rewrite length_app. }
  split.
  { unfold radixTreeFather. fold h' in Hb'. rewrite (load_Some _ _ _ Hb').
    cbn [bindR]. now rewrite Hf'. }
  split; [|split].
  - intros x nx Hx Hxa.
    destruct (mrg_old h r a b p n nb np la lb Hwf Hn Hla Hf Hp Hb Hlb Hfb x nx Hx Hxa)
      as (nx' & Hx' & Hdx & _). eauto.
  - intros x [nx' Hx'].
    destruct (mrg_new h r a b p n nb np la lb Hwf Hn Hla Hf Hp Hb Hlb Hfb x nx' Hx')
      as (_ & nx & Hx & _). eauto.
  - intros x u Hu Hxa.
    now apply (mrg_path h r a b p n nb np la lb Hwf Hn Hla Hf Hp Hb Hlb Hfb Honly x u Hu).
Qed.

(** X14. At a node that can be merged with its son (not the root, one son,
    no payload) [radixTreeMerge] leaves the tree alone and returns FAIL
    when its allocation fails. Otherwise it gives the son the two labels
    joined, hangs it below the father of the node and releases the node,
    and then ends without a return value. The tree stays well formed, the
    other nodes keep their payloads, and every other lookup that ended with
    FOUND still does, at the same node. *)
Theorem merge_joins_a_node_with_its_son h o tr r a :
  wf h r -> radixTreeCanBeMergedWithSon h a = Ok true ->
  exists b p h' ka kb,
    radixTreeFristSon h a = Ok (Some b)
    /\ radixTreeFather h a = Ok (Some p)
    /\ radixTreeHowManyChars h a = Ok ka /\ radixTreeHowManyChars h b = Ok kb
    /\ radixTreeMerge a (Some b) (mkState h o tr)
       = (if hd true o
          then Ok (None, mkState h' (tail o) (tr ++ [EvFree a]))
          else Ok (Some RADIX_TREE_OPERATION_FAIL, mkState h (tail o) tr))
    /\ h' !! a = None
    /\ wf h' r
    /\ radixTreeHowManyChars h' b = Ok (ka + kb)
    /\ radixTreeFather h' b = Ok (Some p)
    /\ (forall x, x <> a -> radixTreeGetNodeData h' x = radixTreeGetNodeData h x)
    /\ (forall K f x, valid_key K -> length K < f -> x <> a ->
          (exists t' i, radixTreeFind f h r K = Ok (RADIX_TREE_FOUND, x, t', i)) ->
          exists i', radixTreeFind f h' r K = Ok (RADIX_TREE_FOUND, x, [], i')).
Proof.
  intros Hwf Hmer.
  destruct (merge_step h o tr r a Hwf Hmer)
    as (b & p & sp & la & lb & n & h' & Hn & Hf & Hla & _ & _ & _ & Hson & Hkb & Hrun
        & Hgone & Hwf' & Hk' & Hf' & Hold & Hnew & Hpath).
  exists b, p, h', (length la), (length lb). split; [done|]. split.
  { unfold radixTreeFather. rewrite (load_Some _ _ _ Hn). cbn [bindR]. now rewrite Hf. }
  split.
  { unfold radixTreeHowManyChars. rewrite (load_Some _ _ _ Hn). cbn [bindR].
    now rewrite Hla. }
  do 6 (split; [done|]). split.
  - intros x Hx. unfold radixTreeGetNodeData, load.
    destruct (h !! x) as [nx|] eqn:Hnx.
    + destruct (Hold x nx Hnx Hx) as (nx' & Hnx' & Hdx).
      rewrite Hnx'. cbn [bindR]. now f_equal.
    + destruct (h' !! x) as [nx'|] eqn:Hnx'; [|done].
      destruct (Hnew x ltac:(eauto)) as [? ?]. congruence.
  - intros K f x HK Hf'' Hx (t' & i & Hfind).
    destruct (find_spec h r f K Hwf HK Hf'') as (st & q & t'' & i'' & Hrun' & Hpost).
    rewrite Hfind in Hrun'. injection Hrun' as <- <- <- <-.
    destruct Hpost as [[(na & la' & s & _ & _ & _ & Hpa & -> & _) Hst]|[_ Hst]];
      [|now destruct t'].
    destruct t' as [|c t']; [|done]. rewrite app_nil_r in Hf'' |- *.
    destruct (find_path h' r x s f Hwf') as (? & ? & _ & _ & E); [|done|eauto].
    now apply Hpath.
Qed.

(** ** A run of [radixTreeBalance] *)

Lemma found_path h r K f x :
  wf h r -> valid_key K -> length K < f ->
  (exists t' i, radixTreeFind f h r K = Ok (RADIX_TREE_FOUND, x, t', i)) ->
  path h r x K.
Proof.
  intros Hwf HK Hf (t' & i & Hfind).
  destruct (find_spec h r f K Hwf HK Hf) as (st & q & t'' & i'' & Hrun' & Hpost).
  rewrite Hfind in Hrun'. injection Hrun' as <- <- <- <-.
  destruct Hpost as [[(na & la & s & _ & _ & _ & Hpa & -> & _) Hst]|[_ Hst]];
    [|now destruct t'].
  destruct t' as [|c t']; [|done]. now rewrite app_nil_r.
Qed.







(** ** Matching a label *)

(** X16. At a node other than the root [radixTreeMoveTxt] runs over the
    longest common start of the label and the key: it returns the key
    without these [i] characters and the position [i] in the label, with
    SUCCESS exactly when the whole label has been matched. At the root it
    matches nothing and returns SUCCESS. *)
Theorem moveTxt_matches_the_common_start h node n l t :
  h !! node = Some n -> txt n = Some l ->
  exists i,
    radixTreeMoveTxt h node t
    = Ok (if decide (i = length l) then RADIX_TREE_OPERATION_SUCCESS
          else RADIX_TREE_OPERATION_FAIL,
          if decide (l = RADIX_TREE_ROOT_TXT) then t else drop i t, i)
    /\ i <= length l
    /\ (l = RADIX_TREE_ROOT_TXT -> i = length l)
    /\ (l <> RADIX_TREE_ROOT_TXT ->
        i <= length t /\ take i l = take i t
        /\ (i < length l -> i < length t -> l !! i <> t !! i)).
Proof.
  intros Hn Hl. unfold radixTreeMoveTxt. rewrite (load_Some _ _ _ Hn). cbn [bindR].
  rewrite (isRoot_lookup _ _ _ Hn), Hl. cbn [bindR nonnull].
  case_bool_decide as Hroot.
  - exists (length l). unfold stringEnd. rewrite !decide_True by done.
    split; [done|]. split; [done|]. split; done.
  - destruct (match_txt l t 0) as [i t'] eqn:E.
    destruct (match_txt_spec _ _ _ _ _ E) as (j & -> & Hj & Ht & Hmis). simpl in *.
    exists j. rewrite (decide_False (P := l = RADIX_TREE_ROOT_TXT)) by done.
    assert (length (take j l) = j) as Hlt by (rewrite length_take; lia).
    assert (drop j t = t') as Hdrop.
    { rewrite Ht. rewrite drop_app_length'; done. }
    rewrite Hdrop. split; [now case_decide|]. split; [done|]. split; [done|].
    intros _. split; [|split].
    + rewrite Ht, length_app. lia.
    + rewrite Ht. rewrite take_app_length'; done.
    + intros Hjl Hjt. rewrite Ht. rewrite lookup_app_r by lia. rewrite Hlt, Nat.sub_diag.
      destruct t' as [|c t'].
      * rewrite Ht, length_app in Hjt. simpl in Hjt. lia.
      * simpl. now apply Hmis.
Qed.

(** ** What insertions make found *)

Lemma insert_paths_back h o tr r K fuel :
  wf h r -> valid_key K -> length K + 2 <= fuel ->
  exists res s',
    radixTreeInsert fuel r K (mkState h o tr) = Ok (res, s')
    /\ wf (heap s') r
    /\ (forall x u, path h r x u -> path (heap s') r x u)
    /\ (forall x u, path (heap s') r x u -> path h r x u \/ u `prefix_of` K).
Proof.
  intros Hwf HK Hfuel.
  destruct (insert_run h o tr r K fuel Hwf HK Hfuel)
    as (res & s' & new & Hrun & (Hwf' & Hpaths & _) & (_ & _ & _ & Hx) & _ & Hnew & _).
  exists res, s'. do 3 (split; [done|]). intros x u Hu.
  destruct (h !! x) as [nx|] eqn:Hnx.
  - left. destruct (wf_reach _ _ Hwf x ltac:(eauto)) as [u0 Hu0].
    now rewrite (path_unique _ r x u u0 Hwf' Hu (Hpaths _ _ Hu0)).
  - right. destruct (decide (x ∈ new)) as [Hin|Hin].
    + destruct (Hnew x Hin) as (u' & Hpre & Hu').
      now rewrite (path_unique _ r x u u' Hwf' Hu Hu').
    + destruct (path_node _ r x u Hwf' Hu) as (nx' & ? & Hnx' & _).
      rewrite (Hx x Hnx Hin) in Hnx'. done.
Qed.

(** X17. An insertion makes found only keys that start the inserted key: a
    lookup that ends with FOUND after the insertion of [K] did so before,
    at the same node, unless its key starts [K]. *)
Theorem insert_finds_only_starts_of_the_key h o tr r K fuel :
  wf h r -> valid_key K -> length K + 2 <= fuel ->
  exists res s',
    radixTreeInsert fuel r K (mkState h o tr) = Ok (res, s')
    /\ forall K' f x, valid_key K' -> length K' < f ->
         (exists t' i, radixTreeFind f (heap s') r K' = Ok (RADIX_TREE_FOUND, x, t', i)) ->
         (exists i', radixTreeFind f h r K' = Ok (RADIX_TREE_FOUND, x, [], i'))
         \/ K' `prefix_of` K.
Proof.
  intros Hwf HK Hfuel.
  destruct (insert_paths_back h o tr r K fuel Hwf HK Hfuel)
    as (res & s' & Hrun & Hwf' & _ & Hback).
  exists res, s'. split; [done|]. intros K' f x HK' Hf Hfind.
  pose proof (found_path _ r K' f x Hwf' HK' Hf Hfind) as Hx.
  destruct (Hback x K' Hx) as [Hold|Hpre]; [left|now right].
  destruct (find_path h r x K' f Hwf Hold Hf) as (? & ? & _ & _ & E). eauto.
Qed.

Lemma insert_all_paths_back r fuel ks :
  Forall valid_key ks -> Forall (fun k => length k + 2 <= fuel) ks ->
  forall h o tr, wf h r ->
  exists res s',
    insert_all fuel r ks (mkState h o tr) = Ok (res, s')
    /\ wf (heap s') r
    /\ (forall x u, path (heap s') r x u ->
          path h r x u \/ exists k, k ∈ ks /\ u `prefix_of` k).
Proof.
  induction ks as [|k ks IH]; intros Hv Hf h o tr Hwf.
  - eexists _, _. split; [reflexivity|]. split; [done|]. intros x u Hu. now left.
  - inversion Hv as [|? ? Hk Hks]; subst. inversion Hf as [|? ? Hfk Hfks]; subst.
    destruct (insert_paths_back h o tr r k fuel Hwf Hk Hfk)
      as (a & [h1 o1 tr1] & Hrun & Hwf1 & _ & Hb1).
    destruct (IH Hks Hfks h1 o1 tr1 Hwf1) as (res & s' & Hrun' & Hwf' & Hb').
    cbn [insert_all bind]. rewrite Hrun, Hrun'. msimpl.
    eexists _, _. split; [reflexivity|]. cbn [heap] in *. split; [done|].
    intros x u Hu. destruct (Hb' x u Hu) as [Hu1|(k' & Hk' & Hpre)].
    + destruct (Hb1 x u Hu1) as [Hu0|Hpre]; [now left|right].
      exists k. split; [apply elem_of_cons; now left|done].
    + right. exists k'. split; [apply elem_of_cons; now right|done].
Qed.

(** X18. In a tree built by insertions into a tree just created, a lookup
    ends with FOUND only for the empty key, at the root, and for keys that
    start one of the inserted keys. *)
Theorem only_starts_of_inserted_keys_are_found o tr r s0 ks fuel :
  radixTreeCreate (mkState ∅ o tr) = Ok (Some r, s0) ->
  Forall valid_key ks -> Forall (fun k => length k + 2 <= fuel) ks ->
  exists res s',
    insert_all fuel r ks s0 = Ok (res, s')
    /\ forall K f x, valid_key K -> length K < f ->
         (exists t' i, radixTreeFind f (heap s') r K = Ok (RADIX_TREE_FOUND, x, t', i)) ->
         (K = [] /\ x = r) \/ exists k, k ∈ ks /\ K `prefix_of` k.
Proof.
  intros Hcreate Hv Hf. pose proof (create_wf _ _ _ _ Hcreate) as Hwf0.
  assert (forall x u, path (heap s0) r x u -> u = [] /\ x = r) as Hroot.
  { intros x u Hu. destruct (path_node _ r x u Hwf0 Hu) as (nx & ? & Hnx & _).
    revert Hcreate Hnx. rewrite create_run. destruct (hd true o); [|done].
    intros [= <- <-]. cbn [heap].
    intros [<- _]%lookup_singleton_Some.
    split; [|done]. exact (path_unique _ _ _ _ _ Hwf0 Hu (path_root _ _)). }
  destruct s0 as [h0 o0 tr0].
  destruct (insert_all_paths_back r fuel ks Hv Hf h0 o0 tr0 Hwf0)
    as (res & s' & Hrun & Hwf' & Hback).
  exists res, s'. split; [done|]. intros K f x HK Hf' Hfind.
  pose proof (found_path _ r K f x Hwf' HK Hf' Hfind) as Hx.
  destruct (Hback x K Hx) as [Hold|Hpre]; [left; now apply Hroot|now right].
Qed.

(** ** Taking back an insertion *)

Lemma insertLeaf_state q t h o tr L s1 :
  radixTreeInsertLeaf q t (mkState h o tr) = Ok (Some L, s1) ->
  oracle s1 = tail (tail o) /\ trace s1 = tr.
Proof.
  unfold radixTreeInsertLeaf, radixTreeCreateNode, alloc_node, radixTreeChangeSon.
  msimpl.
  repeat run_step.
  all: intros [= <- <-]; repeat match goal with b : bool |- _ => destruct b end;
    simpl in *; try done.
Qed.

Lemma set_sons_id n : set_sons (sons n) n = n.
Proof. now destruct n. Qed.

(** X19. When the lookup of a key ends at the end of a label, the key is
    inserted as one new leaf below the node where the lookup ended. A turn
    of the loop of [radixTreeBalance] at this leaf, as well as
    [radixTreeDeleteSubTree] of it, then takes the insertion back: the heap
    is the one before the insertion. *)
Theorem inserted_leaf_can_be_taken_back h o tr r K fuel q t' i skipped :
  wf h r -> valid_key K -> length K + 2 <= fuel ->
  radixTreeFind fuel h r K = Ok (RADIX_TREE_NOT_FOUND, q, t', i) ->
  radixTreeHowManyChars h q = Ok i ->
  mallocs_ok 2 o = true ->
  exists L s1,
    radixTreeInsert fuel r K (mkState h o tr) = Ok (Some L, s1)
    /\ h !! L = None
    /\ radixTreeFather (heap s1) L = Ok (Some q)
    /\ balance_step L skipped s1
       = Ok ((Some q, skipped), mkState h (tail (tail o)) (tr ++ [EvFree L]))
    /\ exists k, forall f, k <= f ->
         radixTreeDeleteSubTree f L s1
         = Ok (tt, mkState h (tail (tail o)) (tr ++ [EvFree L])).
Proof.
  intros Hwf HK Hfuel Hfind Hchars Hmem.
  destruct fuel as [|fuel]; [lia|].
  destruct (find_spec h r (S fuel) K Hwf HK ltac:(lia))
    as (st & q0 & t0 & i0 & Hfind' & Hpost).
  rewrite Hfind in Hfind'. injection Hfind' as <- <- <- <-.
  destruct Hpost as [[(n & l & s & Hq & Hl & -> & Hp & -> & Hfree) Hst]
                    |[(n & l & p & s & Hq & Hl & Hi & _) _]].
  2:{ unfold radixTreeHowManyChars in Hchars. rewrite (load_Some _ _ _ Hq) in Hchars.
      cbn [bindR] in Hchars. rewrite Hl in Hchars. cbn [nonnull bindR] in Hchars.
      injection Hchars as <-. lia. }
  destruct t' as [|c t0]; [done|]. clear Hst.
  assert (valid_label (c :: t0)) as Hv.
  { split; [done|]. now apply valid_key_app in HK. }
  pose proof (first_char_valid _ Hv) as Hc.
  pose proof (Hfree ltac:(done)) as Hslot.
  pose proof (wf_len _ _ Hwf _ _ Hq) as Hlen.
  destruct (insertLeaf_run h o tr q n (c :: t0) Hq Hlen ltac:(done) (proj2 Hv) Hslot)
    as (res & s1 & Hrun & Hres).
  pose proof (insertLeaf_oracle _ _ _ _ _ _ _ Hrun) as Hor.
  destruct Hres as [[-> _]|[-> Hh]]; [rewrite Hor in Hmem; done|].
  destruct (insertLeaf_state _ _ _ _ _ _ _ Hrun) as [Ho1 Ht1].
  destruct s1 as [h1 o1 tr1]. cbn [heap oracle trace] in *. subst o1 tr1.
  set (L := fresh (dom h)) in *.
  set (nL := mkNode None (Some (c :: t0)) (Some q)
               (replicate RADIX_TREE_NUMBER_OF_SONS None) 0) in *.
  set (sl := slot (first_char (c :: t0))) in *.
  set (nq' := set_sons (<[sl := Some L]> (sons n)) n) in *.
  pose proof (fresh_None h) as HLnone. fold L in HLnone.
  assert (L <> q) as HLq by (intros E; rewrite E in HLnone; congruence).
  assert (h1 !! L = Some nL) as HL1.
  { rewrite Hh. rewrite lookup_insert_ne by congruence. apply lookup_insert_eq. }
  assert (h1 !! q = Some nq') as Hq1 by (rewrite Hh; apply lookup_insert_eq).
  assert (forall (h2 : gmap addr RadixTreeNode),
            h2 !! q = Some nq' -> (forall x, x <> L -> x <> q -> h2 !! x = h !! x) ->
            delete L (<[q := set_sons (<[sl := None]> (sons nq')) nq']> h2) = h) as Hback.
  { intros h2 Hq2 Hsame. apply map_eq. intros x.
    destruct (decide (x = L)) as [->|HxL]; [now rewrite lookup_delete_eq|].
    rewrite lookup_delete_ne by done.
    destruct (decide (x = q)) as [->|Hxq]; [|rewrite lookup_insert_ne by done; now apply Hsame].
    rewrite lookup_insert_eq, Hq. f_equal. unfold nq'. cbn [sons set_sons data txt father foldI].
    rewrite list_insert_insert_eq, (list_insert_id _ _ _ Hslot). now destruct n. }
  exists L, (mkState h1 (tail (tail o)) tr). split.
  { cbn [radixTreeInsert]. cbn [bind rd heap]. rewrite Hfind.
    cbn [bind rd heap]. rewrite (load_Some _ _ _ Hq). msimpl. rewrite Hl. msimpl.
    rewrite decide_False by lia. exact Hrun. }
  split; [done|]. split.
  { cbn [heap]. unfold radixTreeFather. now rewrite (load_Some _ _ _ HL1). }
  assert (radixTreeIsRoot h1 L = Ok false) as HrootL.
  { rewrite (isRoot_lookup _ _ _ HL1). cbn [txt nL].
    now rewrite bool_decide_false by (now apply valid_label_not_root). }
  split.
  { assert (radixTreeIsNodeRedundant h1 L = Ok true) as Hred.
    { unfold radixTreeIsNodeRedundant, radixTreeHasSons, radixTreeHowManySons.
      rewrite HrootL. cbn [bindR negb]. rewrite (load_Some _ _ _ HL1). cbn [bindR sons nL].
      rewrite decide_True by apply length_replicate.
      rewrite filter_replicate_None. cbn [length Nat.eqb negb bindR data].
      now rewrite bool_decide_true. }
    unfold balance_step. cbn [bind rd heap]. rewrite (load_Some _ _ _ HL1).
    cbn [bind rd heap]. rewrite Hred. cbn [bind rd heap lift txt nL nonnull father].
    erewrite changeSon_run; [|exact Hq1|done|].
    2:{ unfold nq'. cbn [sons set_sons]. now rewrite length_insert. }
    cbn [bind].
    erewrite freeNode_run; [|rewrite lookup_insert_ne by congruence; exact HL1|now left].
    cbn [ret]. do 3 f_equal. apply Hback; [done|].
    intros x HxL Hxq. rewrite Hh. now rewrite !lookup_insert_ne by congruence. }
  assert (subtree_nodes 1 h1 L = Some [L]) as Hsub.
  { rewrite subtree_nodes_S, HL1. cbn [sons nL].
    rewrite decide_True by apply length_replicate.
    now rewrite (sons_nodes_none _ _ _ _ (filter_replicate_None _)). }
  destruct (delete_loop_run _ h1 (tail (tail o)) tr L nL [L] Hsub (NoDup_singleton _) HL1)
    as (k & h2 & ls & El & (HL2 & _ & Hsame) & Hdel).
  assert (ls = []) as ->.
  { destruct ls as [|y ls]; [done|]. apply (f_equal length) in El.
    rewrite length_app in El. simpl in El. lia. }
  exists k. intros f Hf. unfold radixTreeDeleteSubTree. rewrite Hdel by done.
  cbn [events flat_map fin_events data nL app]. rewrite !app_nil_r.
  cbn [bind rd heap]. rewrite (isRoot_lookup _ _ _ HL2). cbn [txt nL].
  rewrite bool_decide_false by (now apply valid_label_not_root).
  cbn [negb bind rd heap lift nonnull]. rewrite (load_Some _ _ _ HL2).
  cbn [bind txt father nL nonnull].
  assert (h2 !! q = Some nq') as Hq2.
  { rewrite Hsame; [done|congruence|]. intros H. by apply elem_of_nil in H. }
  erewrite changeSon_run; [|exact Hq2|done|].
  2:{ unfold nq'. cbn [sons set_sons]. now rewrite length_insert. }
  cbn [bind].
  erewrite freeNode_run; [|rewrite lookup_insert_ne by congruence; exact HL2|now left].
  do 3 f_equal. apply Hback; [done|].
  intros x HxL Hxq. rewrite Hsame; [|done|intros H; by apply elem_of_nil in H].
  rewrite Hh. now rewrite !lookup_insert_ne by congruence.
Qed.

(** ** Payloads and the life of a tree *)

Lemma insert_all_keeps r fuel ks :
  Forall valid_key ks -> Forall (fun k => length k + 2 <= fuel) ks ->
  forall h o tr, wf h r ->
  exists res s',
    insert_all fuel r ks (mkState h o tr) = Ok (res, s')
    /\ wf (heap s') r
    /\ (forall a u, path h r a u -> path (heap s') r a u)
    /\ (forall a na, h !! a = Some na ->
          exists na', heap s' !! a = Some na' /\ data na' = data na).
Proof.
  induction ks as [|k ks IH]; intros Hv Hf h o tr Hwf.
  - eexists _, _. split; [reflexivity|]. cbn [heap]. do 2 (split; [done|]). eauto.
  - inversion Hv as [|? ? Hk Hks]; subst. inversion Hf as [|? ? Hfk Hfks]; subst.
    destruct (insert_run h o tr r k fuel Hwf Hk Hfk)
      as (a & [h1 o1 tr1] & new & Hrun & (Hwf1 & Hp1 & _) & (_ & Hold & _) & _).
    destruct (IH Hks Hfks h1 o1 tr1 Hwf1) as (res & s' & Hrun' & Hwf' & Hp' & Hold').
    cbn [insert_all bind]. rewrite Hrun, Hrun'. msimpl.
    eexists _, _. split; [reflexivity|]. cbn [heap] in *. split; [done|].
    split; [intros; now apply Hp', Hp1|].
    intros x nx Hx. destruct (Hold x nx Hx) as (nx1 & Hx1 & Hd1).
    destruct (Hold' x nx1 Hx1) as (nx' & Hx' & Hd'). exists nx'. split; [done|congruence].
Qed.

(** X20. A payload stored at the node of a key stays there: after any
    further insertions, whatever their allocations answer, a lookup of the
    key ends with FOUND at the same node, and the node holds the payload. *)
Theorem payload_survives_insertions h o tr r K n d ks fuel :
  wf h r -> valid_key K -> length K < fuel ->
  (exists t' i, radixTreeFind fuel h r K = Ok (RADIX_TREE_FOUND, n, t', i)) ->
  radixTreeGetNodeData h n = Ok d ->
  Forall valid_key ks -> Forall (fun k => length k + 2 <= fuel) ks ->
  exists res s',
    insert_all fuel r ks (mkState h o tr) = Ok (res, s')
    /\ (exists i', radixTreeFind fuel (heap s') r K = Ok (RADIX_TREE_FOUND, n, [], i'))
    /\ radixTreeGetNodeData (heap s') n = Ok d.
Proof.
  intros Hwf HK Hfuel Hfind Hdata Hv Hf.
  pose proof (found_path h r K fuel n Hwf HK Hfuel Hfind) as Hn.
  destruct (insert_all_keeps r fuel ks Hv Hf h o tr Hwf)
    as (res & s' & Hrun & Hwf' & Hpaths & Hold).
  exists res, s'. split; [done|]. split.
  - destruct (find_path (heap s') r n K fuel Hwf' (Hpaths _ _ Hn) Hfuel)
      as (? & ? & _ & _ & E). eauto.
  - unfold radixTreeGetNodeData, load in Hdata |- *.
    destruct (h !! n) as [nn|] eqn:Hnn; [|done]. cbn [bindR] in Hdata.
    destruct (Hold n nn Hnn) as (nn' & Hnn' & Hd). rewrite Hnn'. cbn [bindR]. congruence.
Qed.

(** X21. A tree that is created and filled by insertions, whatever the
    allocations of the insertions answer, is released completely by
    [radixTreeDelete]: every node is released once and the heap is empty
    again. *)
Theorem built_tree_is_released_completely o tr r s0 ks fuel :
  radixTreeCreate (mkState ∅ o tr) = Ok (Some r, s0) ->
  Forall valid_key ks -> Forall (fun k => length k + 2 <= fuel) ks ->
  exists res s1 l,
    insert_all fuel r ks s0 = Ok (res, s1)
    /\ NoDup l /\ (forall x, x ∈ l <-> is_Some (heap s1 !! x))
    /\ exists k, forall f, k <= f ->
         radixTreeDelete f r s1
         = Ok (tt, mkState ∅ (oracle s1) (trace s1 ++ events (heap s1) l)).
Proof.
  intros Hcreate Hv Hf. pose proof (create_wf _ _ _ _ Hcreate) as Hwf0.
  destruct s0 as [h0 o0 tr0].
  destruct (insert_all_keeps r fuel ks Hv Hf h0 o0 tr0 Hwf0)
    as (res & [h1 o1 tr1] & Hrun & Hwf1 & _).
  destruct (delete_run h1 o1 tr1 r Hwf1) as (l & Hnd & Hall & _ & k & Hdel).
  exists res, (mkState h1 o1 tr1), l. eauto.
Qed.

(** ** The array of sons *)

(** X22. [radixTreeChangeSon] writes one slot of the array of sons:
    afterwards [radixTreeHasSon] tells for the written symbol whether the
    pointer written is not NULL, and [radixTreeMoveToSon] yields that
    pointer; for the other symbols, and at the other nodes, nothing
    changes. On a NULL node it does nothing. *)
Theorem changeSon_then_hasSon h o tr a n c ch :
  h !! a = Some n -> valid_sym c -> length (sons n) = RADIX_TREE_NUMBER_OF_SONS ->
  exists h',
    radixTreeChangeSon (Some a) c ch (mkState h o tr) = Ok (tt, mkState h' o tr)
    /\ radixTreeHasSon h' a c = Ok (bool_decide (ch <> None))
    /\ radixTreeMoveToSon h' a c
       = match ch with Some _ => Ok ch | None => Err AssertFail end
    /\ (forall c', valid_sym c' -> c' <> c ->
          radixTreeHasSon h' a c' = radixTreeHasSon h a c')
    /\ (forall b, b <> a -> h' !! b = h !! b)
    /\ radixTreeChangeSon None c ch (mkState h o tr) = Ok (tt, mkState h o tr).
Proof.
  intros Ha Hc Hlen.
  set (n' := set_sons (<[slot c := ch]> (sons n)) n).
  exists (<[a := n']> h).
  assert ((<[a := n']> h) !! a = Some n') as Ha' by apply lookup_insert_eq.
  assert (sons n' !! slot c = Some ch) as Hslot.
  { unfold n'. cbn [sons set_sons]. apply list_lookup_insert_eq. rewrite Hlen.
    now apply slot_lt. }
  assert (radixTreeHasSon (<[a := n']> h) a c = Ok (bool_decide (ch <> None))) as Hhas.
  { exact (hasSon_slot _ a n' c ch Ha' Hc Hslot). }
  split; [now apply changeSon_run|]. split; [exact Hhas|]. split; [|split; [|split]].
  - unfold radixTreeMoveToSon. rewrite Hhas. destruct ch as [b|].
    + rewrite bool_decide_true by done. cbn [assertR bindR].
      rewrite (load_Some _ _ _ Ha'). cbn [bindR]. rewrite son_at_slot by done.
      now rewrite Hslot.
    + now rewrite bool_decide_false by (intros H; now apply H).
  - intros c' Hc' Hne.
    destruct (lookup_sons_is_Some n c' Hlen Hc') as [o' Ho'].
    rewrite (hasSon_slot _ a n c' o' Ha Hc' Ho').
    apply (hasSon_slot _ a n' c' o' Ha' Hc').
    unfold n'. cbn [sons set_sons]. rewrite list_lookup_insert_ne; [done|].
    intros E. apply Hne. symmetry. now apply slot_inj.
  - intros b Hb. now rewrite lookup_insert_ne.
  - reflexivity.
Qed.

Lemma head_filter_lowest {A} (P : A -> Prop) `{forall x, Decision (P x)} (l : list A) x :
  head (filter P l) = Some x ->
  exists i, l !! i = Some x /\ P x /\ forall j y, j < i -> l !! j = Some y -> ~ P y.
Proof.
  induction l as [|a l IH]; [done|]. destruct (decide (P a)) as [Ha|Ha].
  - rewrite filter_cons_True by done. intros [= ->]. exists 0. split; [done|].
    split; [done|]. intros j y Hj. lia.
  - rewrite filter_cons_False by done. intros Hh.
    destruct (IH Hh) as (i & Hi & Hx & Hlow). exists (S i). split; [done|].
    split; [done|]. intros [|j] y Hj Hy.
    + injection Hy as <-. done.
    + apply (Hlow j y); [lia|done].
Qed.

(** X23. [radixTreeFristSon] returns NULL exactly when the node has no son,
    which is when [radixTreeHowManySons] counts none; otherwise it returns
    the son in the lowest slot that is taken. *)
Theorem first_son_is_the_lowest_son h a n :
  h !! a = Some n -> length (sons n) = RADIX_TREE_NUMBER_OF_SONS ->
  exists k,
    radixTreeHowManySons h a = Ok k
    /\ radixTreeHasSons h a = Ok (negb (k =? 0))
    /\ match radixTreeFristSon h a with
       | Ok None => k = 0 /\ forall i, i < RADIX_TREE_NUMBER_OF_SONS -> sons n !! i = Some None
       | Ok (Some b) =>
           0 < k /\ exists i, sons n !! i = Some (Some b)
                              /\ forall j, j < i -> sons n !! j = Some None
       | Err _ => False
       end.
Proof.
  intros Ha Hlen. exists (length (filter (fun o => o <> None) (sons n))).
  assert (radixTreeHowManySons h a
          = Ok (length (filter (fun o => o <> None) (sons n)))) as Hk.
  { unfold radixTreeHowManySons. rewrite (load_Some _ _ _ Ha). cbn [bindR].
    now rewrite decide_True. }
  split; [done|]. split; [unfold radixTreeHasSons; now rewrite Hk|].
  unfold radixTreeFristSon. rewrite (load_Some _ _ _ Ha). cbn [bindR].
  rewrite decide_True by done.
  destruct (filter (fun o => o <> None) (sons n)) as [|o0 rest] eqn:Hfil.
  - cbn [head default length]. split; [done|]. intros i Hi.
    destruct (lookup_lt_is_Some_2 (sons n) i ltac:(lia)) as [[c|] Hc]; [|done].
    exfalso. assert (Some c ∈ filter (fun o : option addr => o <> None) (sons n)) as Hin.
    { apply list_elem_of_filter. split; [done|]. now apply list_elem_of_lookup_2 in Hc. }
    rewrite Hfil in Hin. by apply elem_of_nil in Hin.
  - cbn [head default length].
    destruct (head_filter_lowest (fun o : option addr => o <> None) (sons n) o0)
      as (i & Hi & Hne & Hlow); [now rewrite Hfil|].
    destruct o0 as [b|]; [|done]. split; [lia|]. exists i. split; [done|].
    intros j Hj.
    destruct (lookup_lt_is_Some_2 (sons n) j) as [[c|] Hc]; [|exfalso|done].
    + apply lookup_lt_Some in Hi. lia.
    + now apply (Hlow j (Some c) Hj Hc).
Qed.

(** * Splits, and keys through later calls *)

Lemma filter_insert_replicate (k N : nat) (c : addr) :
  k < N ->
  filter (fun o : option addr => o <> None) (<[k := Some c]> (replicate N None))
  = [Some c].
Proof.
  intros Hk. rewrite insert_take_drop by (rewrite length_replicate; lia).
  rewrite filter_app, take_replicate, filter_replicate_None.
  rewrite filter_cons_True by done.
  now rewrite drop_replicate, filter_replicate_None.
Qed.

(** C7. A split is atomic: at a node [q] other than the root and a position
    inside its label, [radixTreeSplitNode] fails exactly when one of its
    three allocations does, and then leaves the heap as it was. Otherwise
    it succeeds, and the tree has exactly one node more: the heap holds one
    new node [M] and is a well-formed tree again, so that all of it hangs
    below the root; [M] has no payload, the first [i] characters of the
    label, the father that [q] had and [q] as its only son; [q] keeps the
    rest of the label; and every node has the text and the payload it had,
    the text of [M] being the text of [q] cut at the position. *)
Theorem split_is_atomic h o tr r q nq l i :
  wf h r -> h !! q = Some nq -> q <> r -> txt nq = Some l -> 0 < i < length l ->
  exists st s',
    radixTreeSplitNode q i (mkState h o tr) = Ok (st, s')
    /\ st = (if mallocs_ok 3 o then RADIX_TREE_OPERATION_SUCCESS
             else RADIX_TREE_OPERATION_FAIL)
    /\ match st with
       | RADIX_TREE_OPERATION_FAIL => heap s' = h
       | RADIX_TREE_OPERATION_SUCCESS =>
           let M := fresh (dom h) in
           size (heap s') = S (size h) /\ dom (heap s') = {[M]} ∪ dom h
           /\ wf (heap s') r
           /\ radixTreeGetNodeData (heap s') M = Ok None
           /\ radixTreeFather (heap s') M = radixTreeFather h q
           /\ radixTreeFather (heap s') q = Ok (Some M)
           /\ radixTreeHowManySons (heap s') M = Ok 1
           /\ radixTreeFristSon (heap s') M = Ok (Some q)
           /\ radixTreeHowManyChars (heap s') M = Ok i
           /\ radixTreeHowManyChars (heap s') q = Ok (length l - i)
           /\ (forall x, is_Some (h !! x) ->
                 radixTreeGetNodeData (heap s') x = radixTreeGetNodeData h x)
           /\ (forall x u f,
                 radixGetFullText f x (mkState h [] []) = Ok (Some u, mkState h [] []) ->
                 forall f', length u < f' ->
                   radixGetFullText f' x (mkState (heap s') [] [])
                   = Ok (Some u, mkState (heap s') [] []))
           /\ exists u,
                (forall f, length (u ++ l) < f ->
                   radixGetFullText f q (mkState h [] [])
                   = Ok (Some (u ++ l), mkState h [] []))
                /\ (forall f, length (u ++ l) < f ->
                     radixGetFullText f M (mkState (heap s') [] [])
                     = Ok (Some (u ++ take i l), mkState (heap s') [] []))
       end.
Proof.
  intros Hwf Hq Hqr Hl Hi.
  destruct (node_label _ _ _ _ Hwf Hq Hqr) as (p & s & l' & Hp & He & Hl' & Hv).
  assert (l' = l) as -> by congruence.
  destruct (edge_father _ _ _ _ _ Hwf He) as (m & Hm & Hf).
  assert (m = nq) as -> by congruence.
  assert (p <> q) as Hpq.
  { intros ->. exact (edge_irrefl h r q s l Hwf Hp He). }
  pose proof He as (np & nq0 & Hnp & Hson & Hq0 & Hl0).
  destruct (split_run h o tr q i nq l p np Hq Hl Hf Hnp Hpq (wf_len _ _ Hwf _ _ Hnp)
              Hi (proj2 Hv)) as (st & s1 & Hrun & Hst & Hres).
  exists st, s1. split; [exact Hrun|]. split; [exact Hst|]. clear Hst.
  destruct Hres as [[-> Hh]|[-> Hh]]; [done|]. rewrite Hh. cbv zeta.
  pose proof (fresh_ne h q nq Hq) as HMq. pose proof (fresh_ne h p np Hnp) as HMp.
  pose proof (split_wf h r p q np nq l s i Hwf Hnp Hq Hl Hson Hp Hi) as Hwf'.
  pose proof (split_path h r p q np nq l s i Hwf Hnp Hq Hl Hson Hp Hi) as Hpath'.
  pose proof (split_path_M h r p q np nq l s i Hwf Hnp Hq Hl Hson Hp Hi) as HpM.
  assert (slot (first_char (drop i l)) < RADIX_TREE_NUMBER_OF_SONS) as Hslot.
  { destruct (lookup_lt_is_Some_2 l i ltac:(lia)) as [d Hd].
    rewrite (first_char_drop l i d Hd). apply slot_lt.
    destruct Hv as [_ Hv]. unfold valid_key in Hv. rewrite Forall_lookup in Hv. eauto. }
  split.
  { rewrite map_size_insert_None
      by (rewrite !lookup_insert_ne by done; apply fresh_None).
    f_equal. rewrite (map_size_insert_Some q) by (rewrite lookup_insert_ne by done; eauto).
    now rewrite (map_size_insert_Some p) by eauto. }
  split.
  { rewrite !dom_insert_L.
    assert (q ∈ dom h) as Hqd by (apply elem_of_dom; eauto).
    assert (p ∈ dom h) as Hpd by (apply elem_of_dom; eauto).
    rewrite (subseteq_union_1_L {[p]} (dom h)) by now apply singleton_subseteq_l.
    now rewrite (subseteq_union_1_L {[q]} (dom h)) by now apply singleton_subseteq_l. }
  split; [exact Hwf'|].
  unfold radixTreeGetNodeData, radixTreeFather, radixTreeHowManySons, radixTreeFristSon,
    radixTreeHowManyChars, load.
  rewrite !lookup_insert_eq. rewrite (lookup_insert_ne _ _ q) by done.
  rewrite !lookup_insert_eq. rewrite Hq. cbn [bindR data father sons txt nonnull set_father set_txt].
  rewrite Hf.
  rewrite length_insert, length_replicate, decide_True by done.
  rewrite (filter_insert_replicate _ _ q Hslot).
  rewrite length_take, length_drop.
  replace (i `min` length l) with i by lia.
  repeat (split; [first [done | now rewrite decide_True by done]|]).
  split; [|split].
  - intros x [nx Hx]. pose proof (fresh_ne h x nx Hx) as HMx.
    rewrite (lookup_insert_ne _ _ x) by done. rewrite Hx.
    rewrite lookup_insert. case_decide as Exq.
    { subst x. assert (nx = nq) as -> by congruence. done. }
    rewrite lookup_insert. case_decide as Exp; [|now rewrite Hx].
    subst x. assert (nx = np) as -> by congruence. done.
  - intros x u f Hget f' Hf'.
    destruct (getFullText_inv _ _ _ _ _ _ _ _ Hwf Hget)
      as (_ & [[[=] _]|(u' & [= <-] & _ & Hu)]).
    apply (getFullText_path _ [] [] r x u); try done. now apply Hpath'.
  - exists s. split; intros f Hlen.
    + apply (getFullText_path h [] [] r q (s ++ l)); try done.
      now apply (path_step h r p q s l).
    + apply (getFullText_path _ [] [] r _ (s ++ take i l)); try done.
      rewrite length_app, length_take. rewrite length_app in Hlen. lia.
Qed.

(** ** More fuel changes no result *)





(** ** What the calls keep *)






End RadixTree.

(** * Trees over the decimal digits *)

Lemma root_txt_not_a_label : ~ valid_label digits root_txt.
Proof.
  intros [_ H]. change root_txt with ["r"%char] in H.
  inversion H as [|c l Hc _]; subst.
  destruct Hc as [_ Hc]. vm_compute in Hc. discriminate Hc.
Qed.

Ltac valid_keys :=
  cbv [key list_ascii_of_string];
  repeat first [apply Forall_nil_2 | apply Forall_cons_2];
  first [ simpl; lia
        | vm_compute; split; [ let H := fresh in intros H; discriminate H
                             | reflexivity ] ].

Lemma fresh_tree_created :
  radixTreeCreate digits root_txt empty_state
  = Ok (Some 1%positive, fresh_tree digits root_txt).
Proof. vm_compute. reflexivity. Qed.

Lemma fresh_tree_wf : wf digits root_txt (heap (fresh_tree digits root_txt)) 1%positive.
Proof. exact (create_wf digits root_txt [] [] _ _ fresh_tree_created). Qed.

Lemma built_wf fuel ks :
  Forall (valid_key digits) ks -> Forall (fun k => length k + 2 <= fuel) ks ->
  wf digits root_txt (heap (built digits root_txt fuel ks)) 1%positive.
Proof.
  intros Hv Hf. unfold built.
  set (s0 := fresh_tree digits root_txt).
  destruct (insert_all_spec digits root_txt root_txt_not_a_label 1%positive fuel ks Hv Hf
              (heap s0) (oracle s0) (trace s0) fresh_tree_wf)
    as (res & s' & Hrun & Hwf & _).
  change (mkState (heap s0) (oracle s0) (trace s0)) with s0 in Hrun.
  now rewrite Hrun.
Qed.

Lemma tree_12_13_wf : wf digits root_txt (heap (tree_12_13 digits root_txt)) 1%positive.
Proof. apply built_wf; valid_keys. Qed.

Lemma tree_123_wf : wf digits root_txt (heap (tree_123 digits root_txt)) 1%positive.
Proof. apply built_wf; valid_keys. Qed.

Lemma tree_12_123_wf : wf digits root_txt (heap (tree_12_123 digits root_txt)) 1%positive.
Proof. apply built_wf; valid_keys. Qed.

(** ** The theorems at these trees *)


Lemma insert_idempotent_witness :
  let s0 := fresh_tree digits root_txt in
  let s1 := state_of (radixTreeInsert digits root_txt 10 1%positive (key "12")
                        (mkState (heap s0) [] [])) in
  radixTreeInsert digits root_txt 10 1%positive (key "12") s1 = Ok (Some 2%positive, s1)
  /\ forall d, exists s2,
       radixTreeSetData 2%positive d s1 = Ok (tt, s2)
       /\ radixTreeInsert digits root_txt 10 1%positive (key "12") s2
          = Ok (Some 2%positive, s2)
       /\ radixTreeGetNodeData (heap s2) 2%positive = Ok d.
Proof.
  intros s0 s1.
  apply (insert_idempotent digits root_txt root_txt_not_a_label
           (heap s0) [] [] 1%positive (key "12") 10 2%positive s1).
  - exact fresh_tree_wf.
  - valid_keys.
  - simpl. lia.
  - vm_compute. reflexivity.
Defined.

Lemma insertions_keep_trie_shape_witness :
  let s0 := fresh_tree digits root_txt in
  exists res s',
    insert_all digits root_txt 10 1%positive [key "123"; key "124"; key "13"] s0
    = Ok (res, s')
    /\ forall a n, heap s' !! a = Some n ->
         (forall i c, sons n !! i = Some (Some c) ->
            exists m l, heap s' !! c = Some m /\ txt m = Some l /\ l <> []
                        /\ radixTreeConvertCharToNumber (first_char l) = Z.of_nat i)
         /\ (forall i j c d mc md lc ld,
               i <> j ->
               sons n !! i = Some (Some c) -> sons n !! j = Some (Some d) ->
               heap s' !! c = Some mc -> heap s' !! d = Some md ->
               txt mc = Some lc -> txt md = Some ld ->
               first_char lc <> first_char ld)
         /\ (a <> 1%positive -> exists l, txt n = Some l /\ l <> []).
Proof.
  intros s0.
  apply (insertions_keep_trie_shape digits root_txt root_txt_not_a_label [] []
           1%positive s0 [key "123"; key "124"; key "13"] 10).
  - exact fresh_tree_created.
  - valid_keys.
  - valid_keys.
Defined.

Lemma deleteSubTree_postorder_witness :
  let t := tree_12_13 digits root_txt in
  exists l,
    (exists f, subtree_nodes digits f (heap t) 3%positive = Some l)
    /\ NoDup l /\ last l = Some 3%positive
    /\ finalized (events (heap t) l) = omap (payload (heap t)) l
    /\ exists k, forall fuel, k <= fuel ->
       exists h',
         radixTreeDeleteSubTree digits root_txt fuel 3%positive
           (mkState (heap t) [] [])
         = Ok (tt, mkState h' [] ([] ++ events (heap t) l))
         /\ (forall x, x ∈ l -> h' !! x = None)
         /\ (forall y m j x, h' !! y = Some m -> sons m !! j = Some (Some x) -> x ∉ l)
         /\ (forall x, x ∉ l -> father (node_at t 3%positive) <> Some x ->
               h' !! x = heap t !! x).
Proof.
  intros t.
  apply (deleteSubTree_postorder digits root_txt root_txt_not_a_label
           (heap t) [] [] 1%positive 3%positive (node_at t 3%positive)).
  - exact tree_12_13_wf.
  - vm_compute. reflexivity.
Defined.

Lemma balance_skips_and_climbs_witness :
  let s := tree_12_13_payload digits root_txt in
  let n := node_at s 2%positive in
  balance_step digits root_txt 2%positive 0 (mkState (heap s) [] [])
  = Ok ((father n, 1), mkState (heap s) [] [])
  /\ balance_loop digits root_txt 10 (Some 2%positive) 0 (mkState (heap s) [] [])
     = balance_loop digits root_txt 9 (father n) 1 (mkState (heap s) [] [])
  /\ forall p k,
       radixTreeIsRoot root_txt (heap s) p = Ok true
       \/ (is_Some (heap s !! p) /\ canSkip < k) ->
       balance_loop digits root_txt 10 (Some p) k (mkState (heap s) [] [])
       = Ok ((Some p, k), mkState (heap s) [] []).
Proof.
  intros s n.
  apply (balance_skips_and_climbs digits root_txt (heap s) [] [] 2%positive n
           (key "2") 0 9).
  - vm_compute. reflexivity.
  - vm_compute. reflexivity.
  - intros H. vm_compute in H. discriminate H.
  - vm_compute. reflexivity.
  - left. intros H. vm_compute in H. discriminate H.
  - unfold canSkip. lia.
Defined.

Lemma split_is_atomic_witness :
  let h := heap (tree_123 digits root_txt) in
  let M := fresh (dom h) in
  M = 3%positive
  /\ (exists s',
     radixTreeSplitNode digits root_txt 2%positive 1 (mkState h [] [])
     = Ok (RADIX_TREE_OPERATION_SUCCESS, s')
     /\ size (heap s') = S (size h) /\ dom (heap s') = {[M]} ∪ dom h
     /\ wf digits root_txt (heap s') 1%positive
     /\ radixTreeGetNodeData (heap s') M = Ok None
     /\ radixTreeFather (heap s') M = radixTreeFather h 2%positive
     /\ radixTreeFather (heap s') 2%positive = Ok (Some M)
     /\ radixTreeHowManySons digits (heap s') M = Ok 1
     /\ radixTreeFristSon digits (heap s') M = Ok (Some 2%positive)
     /\ radixTreeHowManyChars (heap s') M = Ok 1
     /\ radixTreeHowManyChars (heap s') 2%positive = Ok (length (key "123") - 1)
     /\ (forall x, is_Some (h !! x) ->
           radixTreeGetNodeData (heap s') x = radixTreeGetNodeData h x)
     /\ (forall x u f,
           radixGetFullText root_txt f x (mkState h [] [])
           = Ok (Some u, mkState h [] []) ->
           forall f', length u < f' ->
             radixGetFullText root_txt f' x (mkState (heap s') [] [])
             = Ok (Some u, mkState (heap s') [] []))
     /\ exists u,
          (forall f, length (u ++ key "123") < f ->
             radixGetFullText root_txt f 2%positive (mkState h [] [])
             = Ok (Some (u ++ key "123"), mkState h [] []))
          /\ (forall f, length (u ++ key "123") < f ->
               radixGetFullText root_txt f M (mkState (heap s') [] [])
               = Ok (Some (u ++ take 1 (key "123")), mkState (heap s') [] [])))
  /\ (exists s',
        radixTreeSplitNode digits root_txt 2%positive 1 (mkState h [true; false] [])
        = Ok (RADIX_TREE_OPERATION_FAIL, s')
        /\ heap s' = h).
Proof.
  intros h M.
  assert (h !! 2%positive = Some (node_at (tree_123 digits root_txt) 2%positive)) as Hq
    by (vm_compute; reflexivity).
  assert (txt (node_at (tree_123 digits root_txt) 2%positive) = Some (key "123")) as Hl
    by (vm_compute; reflexivity).
  split; [vm_compute; reflexivity|]. split.
  - destruct (split_is_atomic digits root_txt root_txt_not_a_label h [] []
                1%positive 2%positive _ (key "123") 1 tree_123_wf Hq
                ltac:(discriminate) Hl ltac:(simpl; lia))
      as (st & s' & Hrun & Hst & Hpost).
    cbn [mallocs_ok hd tail andb] in Hst. subst st. cbv beta iota zeta in Hpost.
    exists s'. split; [exact Hrun|exact Hpost].
  - destruct (split_is_atomic digits root_txt root_txt_not_a_label h [true; false] []
                1%positive 2%positive _ (key "123") 1 tree_123_wf Hq
                ltac:(discriminate) Hl ltac:(simpl; lia))
      as (st & s' & Hrun & Hst & Hpost).
    cbn [mallocs_ok hd tail andb] in Hst. subst st. cbv beta iota in Hpost.
    exists s'. split; [exact Hrun|exact Hpost].
Defined.


Lemma only_the_root_is_root_witness :
  let s0 := fresh_tree digits root_txt in
  exists res s',
    insert_all digits root_txt 10 1%positive [key "123"; key "124"; key "13"] s0
    = Ok (res, s')
    /\ radixTreeIsRoot root_txt (heap s') 1%positive = Ok true
    /\ forall a n, heap s' !! a = Some n -> a <> 1%positive ->
         radixTreeIsRoot root_txt (heap s') a = Ok false
         /\ exists l, txt n = Some l /\ l <> root_txt.
Proof.
  intros s0.
  apply (only_the_root_is_root digits root_txt root_txt_not_a_label [] []
           1%positive s0 [key "123"; key "124"; key "13"] 10).
  - exact fresh_tree_created.
  - valid_keys.
  - valid_keys.
Defined.

(** ** Where the code departs from the claims *)


(** C5 as stated fails. The node of the key 12 holds a payload, and its
    father branches; [radixTreeBalance] started there does not stop after
    the first node: it skips both and ends at the root, two nodes counted,
    and not at the father with one. *)
Lemma balance_does_not_stop_at_payload_node :
  let s := tree_12_13_payload digits root_txt in
  radixTreeGetNodeData (heap s) 2%positive = Ok (Some 7%positive)
  /\ radixTreeFather (heap s) 2%positive = Ok (Some 3%positive)
  /\ balance_loop digits root_txt 10 (Some 2%positive) 0 s
     = Ok ((Some 1%positive, 2), s)
  /\ balance_loop digits root_txt 10 (Some 2%positive) 0 s
     <> Ok ((Some 3%positive, 1), s).
Proof.
  intros s.
  split; [vm_compute; reflexivity|]. split; [vm_compute; reflexivity|].
  assert (balance_loop digits root_txt 10 (Some 2%positive) 0 s
          = Ok ((Some 1%positive, 2), s)) as E
    by (vm_compute; reflexivity).
  split; [exact E|]. rewrite E. intros [=].
Qed.

(** C6 fails on the code. After the node of 12 is gone its father has one
    son and no payload; the merge succeeds, the key 13 is still found, at the
    merged node, but [radixTreeMerge] ends without returning a value, and the
    loop that reads the result is undefined. *)
Theorem balance_reads_missing_merge_result :
  let t := tree_12_13 digits root_txt in
  let u := tree_13_unmerged digits root_txt in
  balance_step digits root_txt 2%positive 0 t = Ok ((Some 3%positive, 0), u)
  /\ radixTreeCanBeMergedWithSon digits root_txt (heap u) 3%positive = Ok true
  /\ (exists s', radixTreeMerge root_txt 3%positive (Some 4%positive) u = Ok (None, s')
                 /\ radixTreeFind root_txt 10 (heap s') 1%positive (key "13")
                    = Ok (RADIX_TREE_FOUND, 4%positive, [], 2))
  /\ balance_step digits root_txt 3%positive 0 u = Err UB
  /\ radixTreeBalance digits root_txt 10 2%positive t = Err UB.
Proof.
  intros t u.
  split; [vm_compute; reflexivity|]. split; [vm_compute; reflexivity|].
  split; [|split; vm_compute; reflexivity].
  eexists. split; vm_compute; reflexivity.
Qed.

(** ** The further properties at these trees *)

Lemma found_iff_full_text_witness :
  let t := tree_12_13 digits root_txt in
  (exists t' i, radixTreeFind root_txt 10 (heap t) 1%positive (key "12")
                = Ok (RADIX_TREE_FOUND, 2%positive, t', i))
  <-> radixGetFullText root_txt 10 2%positive (mkState (heap t) [] [])
      = Ok (Some (key "12"), mkState (heap t) [] []).
Proof.
  intros t.
  apply (found_iff_full_text digits root_txt root_txt_not_a_label (heap t) 1%positive
           (key "12") 2%positive 10).
  - exact tree_12_13_wf.
  - valid_keys.
  - simpl. lia.
Defined.

Lemma find_tells_prefixes_witness :
  let h := heap (tree_123 digits root_txt) in
  exists st q t' i,
    radixTreeFind root_txt 10 h 1%positive (key "12") = Ok (st, q, t', i)
    /\ (st <> RADIX_TREE_NOT_FOUND
        <-> exists a u f, radixGetFullText root_txt f a (mkState h [] [])
                          = Ok (Some (key "12" ++ u), mkState h [] []))
    /\ (st = RADIX_TREE_SUBSTR ->
        exists k u,
          radixTreeHowManyChars h q = Ok k
          /\ radixTreeHowManyCharsOffset h q i = Ok i
          /\ 0 < i < k /\ length u = k - i
          /\ forall f, length (key "12" ++ u) < f ->
               radixGetFullText root_txt f q (mkState h [] [])
               = Ok (Some (key "12" ++ u), mkState h [] [])).
Proof.
  intros h.
  apply (find_tells_prefixes digits root_txt root_txt_not_a_label h 1%positive
           (key "12") 10).
  - exact tree_123_wf.
  - valid_keys.
  - simpl. lia.
Defined.

Lemma find_matches_longest_prefix_witness :
  let h := heap (tree_12_13 digits root_txt) in
  exists st q t' i m v,
    radixTreeFind root_txt 10 h 1%positive (key "145") = Ok (st, q, t', i)
    /\ key "145" = m ++ t'
    /\ (st = RADIX_TREE_NOT_FOUND <-> t' <> [])
    /\ radixTreeHowManyChars h q = Ok (i + length v)
    /\ (forall f, length (m ++ v) < f ->
          radixGetFullText root_txt f q (mkState h [] [])
          = Ok (Some (m ++ v), mkState h [] []))
    /\ forall c t0 a W f,
         t' = c :: t0 ->
         radixGetFullText root_txt f a (mkState h [] []) = Ok (Some W, mkState h [] []) ->
         ~ (m ++ [c]) `prefix_of` W.
Proof.
  intros h.
  apply (find_matches_longest_prefix digits root_txt root_txt_not_a_label h 1%positive
           (key "145") 10).
  - exact tree_12_13_wf.
  - valid_keys.
  - simpl. lia.
Defined.

Lemma every_node_is_found_by_its_text_witness :
  let t := tree_12_13 digits root_txt in
  exists K,
    (forall fuel o tr, length K < fuel ->
       radixGetFullText root_txt fuel 4%positive (mkState (heap t) o tr)
       = Ok (if hd true o then Some K else None, mkState (heap t) (tail o) tr))
    /\ (forall fuel, length K < fuel ->
          exists i, radixTreeFind root_txt fuel (heap t) 1%positive K
                    = Ok (RADIX_TREE_FOUND, 4%positive, [], i)
                    /\ radixTreeHowManyChars (heap t) 4%positive = Ok i)
    /\ (4%positive = 1%positive <-> K = []).
Proof.
  intros t.
  apply (every_node_is_found_by_its_text digits root_txt root_txt_not_a_label (heap t)
           1%positive 4%positive (node_at t 4%positive)).
  - exact tree_12_13_wf.
  - vm_compute. reflexivity.
Defined.

Lemma nodes_have_distinct_texts_witness :
  let h := heap (tree_12_13 digits root_txt) in
  radixGetFullText root_txt 10 2%positive (mkState h [] [])
  = Ok (Some (key "12"), mkState h [] [])
  /\ 2%positive = 2%positive.
Proof.
  intros h.
  assert (radixGetFullText root_txt 10 2%positive (mkState h [] [])
          = Ok (Some (key "12"), mkState h [] [])) as E by (vm_compute; reflexivity).
  split; [exact E|].
  exact (nodes_have_distinct_texts digits root_txt root_txt_not_a_label h 1%positive
           2%positive 2%positive (key "12") 10 10 [] [] [] [] _ _ tree_12_13_wf E E).
Defined.

Lemma empty_key_is_the_root_witness :
  let t := tree_12_13 digits root_txt in
  radixTreeFind root_txt 10 (heap t) 1%positive []
  = Ok (RADIX_TREE_FOUND, 1%positive, [], length root_txt)
  /\ radixTreeInsert digits root_txt 11 1%positive [] (mkState (heap t) [] [])
     = Ok (Some 1%positive, mkState (heap t) [] []).
Proof.
  intros t.
  apply (empty_key_is_the_root digits root_txt (heap t) [] [] 1%positive
           (node_at t 1%positive) root_txt 10).
  - vm_compute. reflexivity.
  - vm_compute. reflexivity.
Defined.

Lemma setData_keeps_lookups_witness :
  let h := heap (tree_12_13 digits root_txt) in
  exists h',
    radixTreeSetData 2%positive (Some 7%positive) (mkState h [] [])
    = Ok (tt, mkState h' [] [])
    /\ radixTreeGetNodeData h' 2%positive = Ok (Some 7%positive)
    /\ (forall b, b <> 2%positive ->
          radixTreeGetNodeData h' b = radixTreeGetNodeData h b)
    /\ (forall b, radixTreeFather h' b = radixTreeFather h b)
    /\ (forall fuel r K,
          radixTreeFind root_txt fuel h' r K = radixTreeFind root_txt fuel h r K).
Proof.
  intros h.
  apply (setData_keeps_lookups root_txt h [] [] 2%positive
           (node_at (tree_12_13 digits root_txt) 2%positive) (Some 7%positive)).
  vm_compute. reflexivity.
Defined.

Lemma insert_adds_at_most_two_nodes_witness :
  let h := heap (tree_123 digits root_txt) in
  exists res s' new,
    radixTreeInsert digits root_txt 10 1%positive (key "13") (mkState h [] [])
    = Ok (res, s')
    /\ length new <= 2
    /\ extends h (heap s') new
    /\ (forall a, a ∈ new ->
          exists u, u `prefix_of` key "13"
            /\ radixGetFullText root_txt 10 a (mkState (heap s') [] [])
               = Ok (Some u, mkState (heap s') [] []))
    /\ (forall a u f,
          radixGetFullText root_txt f a (mkState h [] []) = Ok (Some u, mkState h [] []) ->
          forall f', length u < f' ->
            radixGetFullText root_txt f' a (mkState (heap s') [] [])
            = Ok (Some u, mkState (heap s') [] [])).
Proof.
  intros h.
  apply (insert_adds_at_most_two_nodes digits root_txt root_txt_not_a_label h [] []
           1%positive (key "13") 10).
  - exact tree_123_wf.
  - valid_keys.
  - simpl. lia.
Defined.

Lemma insert_fails_only_without_memory_witness :
  let h := heap (tree_12_13 digits root_txt) in
  let h' := heap (tree_123 digits root_txt) in
  (allocations root_txt 10 h 1%positive (key "14") = 2
   /\ exists res s',
        radixTreeInsert digits root_txt 10 1%positive (key "14")
          (mkState h [true; true; false] []) = Ok (res, s')
        /\ (res = None
            <-> mallocs_ok (allocations root_txt 10 h 1%positive (key "14"))
                  [true; true; false] = false)
        /\ (res <> None ->
            oracle s' = drop (allocations root_txt 10 h 1%positive (key "14"))
                          [true; true; false])
        /\ wf digits root_txt (heap s') 1%positive
        /\ forall K' a f,
             valid_key digits K' -> length K' < f ->
             (exists t' i, radixTreeFind root_txt f h 1%positive K'
                           = Ok (RADIX_TREE_FOUND, a, t', i)) ->
             exists i', radixTreeFind root_txt f (heap s') 1%positive K'
                        = Ok (RADIX_TREE_FOUND, a, [], i'))
  /\ (allocations root_txt 10 h' 1%positive (key "13") = 5
      /\ exists res s',
           radixTreeInsert digits root_txt 10 1%positive (key "13")
             (mkState h' [true; true; true; false] []) = Ok (res, s')
           /\ (res = None
               <-> mallocs_ok (allocations root_txt 10 h' 1%positive (key "13"))
                     [true; true; true; false] = false)
           /\ (res <> None ->
               oracle s' = drop (allocations root_txt 10 h' 1%positive (key "13"))
                             [true; true; true; false])
           /\ wf digits root_txt (heap s') 1%positive
           /\ forall K' a f,
                valid_key digits K' -> length K' < f ->
                (exists t' i, radixTreeFind root_txt f h' 1%positive K'
                              = Ok (RADIX_TREE_FOUND, a, t', i)) ->
                exists i', radixTreeFind root_txt f (heap s') 1%positive K'
                           = Ok (RADIX_TREE_FOUND, a, [], i')).
Proof.
  intros h h'. split; (split; [vm_compute; reflexivity|]).
  - apply (insert_fails_only_without_memory digits root_txt root_txt_not_a_label h
             [true; true; false] [] 1%positive (key "14") 10).
    + exact tree_12_13_wf.
    + valid_keys.
    + simpl. lia.
  - apply (insert_fails_only_without_memory digits root_txt root_txt_not_a_label h'
             [true; true; true; false] [] 1%positive (key "13") 10).
    + exact tree_123_wf.
    + valid_keys.
    + simpl. lia.
Defined.

Lemma delete_frees_the_whole_tree_witness :
  let h := heap (tree_12_13_payload digits root_txt) in
  exists l,
    NoDup l /\ (forall x, x ∈ l <-> is_Some (h !! x))
    /\ finalized (events h l) = omap (payload h) l
    /\ exists k, forall fuel, k <= fuel ->
         radixTreeDelete digits root_txt fuel 1%positive (mkState h [] [])
         = Ok (tt, mkState ∅ [] ([] ++ events h l)).
Proof.
  intros h.
  apply (delete_frees_the_whole_tree digits root_txt root_txt_not_a_label h [] []
           1%positive).
  apply (wf_set_data digits root_txt _ 1%positive 2%positive
           (node_at (tree_12_13 digits root_txt) 2%positive) (Some 7%positive)
           tree_12_13_wf).
  vm_compute. reflexivity.
Defined.

Lemma deleteSubTree_keeps_the_rest_witness :
  let h := heap (tree_12_13 digits root_txt) in
  exists sN k,
    (forall f, length sN < f ->
       radixGetFullText root_txt f 2%positive (mkState h [] [])
       = Ok (Some sN, mkState h [] []))
    /\ forall fuel, k <= fuel ->
       exists s',
         radixTreeDeleteSubTree digits root_txt fuel 2%positive (mkState h [] [])
         = Ok (tt, s')
         /\ wf digits root_txt (heap s') 1%positive
         /\ (forall x W f,
               radixGetFullText root_txt f x (mkState h [] [])
               = Ok (Some W, mkState h [] []) ->
               (sN `prefix_of` W -> heap s' !! x = None)
               /\ (~ sN `prefix_of` W ->
                   radixTreeGetNodeData (heap s') x = radixTreeGetNodeData h x
                   /\ forall f', length W < f' ->
                        radixGetFullText root_txt f' x (mkState (heap s') [] [])
                        = Ok (Some W, mkState (heap s') [] [])))
         /\ (forall K f, valid_key digits K -> length K < f -> sN `prefix_of` K ->
               exists q t' i,
                 radixTreeFind root_txt f (heap s') 1%positive K
                 = Ok (RADIX_TREE_NOT_FOUND, q, t', i))
         /\ (forall K f a, valid_key digits K -> length K < f -> ~ sN `prefix_of` K ->
               (exists t' i, radixTreeFind root_txt f h 1%positive K
                             = Ok (RADIX_TREE_FOUND, a, t', i)) ->
               exists i', radixTreeFind root_txt f (heap s') 1%positive K
                          = Ok (RADIX_TREE_FOUND, a, [], i')).
Proof.
  intros h.
  apply (deleteSubTree_keeps_the_rest digits root_txt root_txt_not_a_label h [] []
           1%positive 2%positive (node_at (tree_12_13 digits root_txt) 2%positive)).
  - exact tree_12_13_wf.
  - vm_compute. reflexivity.
  - discriminate.
Defined.

Lemma balance_drops_a_redundant_leaf_witness :
  let h := heap (tree_12_13 digits root_txt) in
  exists p h',
    radixTreeFather h 2%positive = Ok (Some p)
    /\ balance_step digits root_txt 2%positive 0 (mkState h [] [])
       = Ok ((Some p, 0), mkState h' [] ([] ++ [EvFree 2%positive]))
    /\ h' !! 2%positive = None
    /\ wf digits root_txt h' 1%positive
    /\ (forall x, x <> 2%positive ->
          radixTreeGetNodeData h' x = radixTreeGetNodeData h x)
    /\ (forall K f a, valid_key digits K -> length K < f -> a <> 2%positive ->
          (exists t' i, radixTreeFind root_txt f h 1%positive K
                        = Ok (RADIX_TREE_FOUND, a, t', i)) ->
          exists i', radixTreeFind root_txt f h' 1%positive K
                     = Ok (RADIX_TREE_FOUND, a, [], i')).
Proof.
  intros h.
  apply (balance_drops_a_redundant_leaf digits root_txt root_txt_not_a_label h [] []
           1%positive 2%positive 0).
  - exact tree_12_13_wf.
  - vm_compute. reflexivity.
Defined.

Lemma merge_joins_a_node_with_its_son_witness :
  let h := heap (tree_12_123 digits root_txt) in
  exists b p h' ka kb,
    radixTreeFristSon digits h 2%positive = Ok (Some b)
    /\ radixTreeFather h 2%positive = Ok (Some p)
    /\ radixTreeHowManyChars h 2%positive = Ok ka
    /\ radixTreeHowManyChars h b = Ok kb
    /\ radixTreeMerge root_txt 2%positive (Some b) (mkState h [] [])
       = (if hd true []
          then Ok (None, mkState h' (tail []) ([] ++ [EvFree 2%positive]))
          else Ok (Some RADIX_TREE_OPERATION_FAIL, mkState h (tail []) []))
    /\ h' !! 2%positive = None
    /\ wf digits root_txt h' 1%positive
    /\ radixTreeHowManyChars h' b = Ok (ka + kb)
    /\ radixTreeFather h' b = Ok (Some p)
    /\ (forall x, x <> 2%positive ->
          radixTreeGetNodeData h' x = radixTreeGetNodeData h x)
    /\ (forall K f x, valid_key digits K -> length K < f -> x <> 2%positive ->
          (exists t' i, radixTreeFind root_txt f h 1%positive K
                        = Ok (RADIX_TREE_FOUND, x, t', i)) ->
          exists i', radixTreeFind root_txt f h' 1%positive K
                     = Ok (RADIX_TREE_FOUND, x, [], i')).
Proof.
  intros h.
  apply (merge_joins_a_node_with_its_son digits root_txt root_txt_not_a_label h [] []
           1%positive 2%positive).
  - exact tree_12_123_wf.
  - vm_compute. reflexivity.
Defined.


Lemma moveTxt_matches_the_common_start_witness :
  let h := heap (tree_123 digits root_txt) in
  exists i,
    radixTreeMoveTxt root_txt h 2%positive (key "1245")
    = Ok (if decide (i = length (key "123")) then RADIX_TREE_OPERATION_SUCCESS
          else RADIX_TREE_OPERATION_FAIL,
          if decide (key "123" = root_txt) then key "1245" else drop i (key "1245"), i)
    /\ i <= length (key "123")
    /\ (key "123" = root_txt -> i = length (key "123"))
    /\ (key "123" <> root_txt ->
        i <= length (key "1245") /\ take i (key "123") = take i (key "1245")
        /\ (i < length (key "123") -> i < length (key "1245") ->
            key "123" !! i <> key "1245" !! i)).
Proof.
  intros h.
  apply (moveTxt_matches_the_common_start root_txt h 2%positive
           (node_at (tree_123 digits root_txt) 2%positive) (key "123") (key "1245")).
  - vm_compute. reflexivity.
  - vm_compute. reflexivity.
Defined.

Lemma insert_finds_only_starts_of_the_key_witness :
  let h := heap (tree_123 digits root_txt) in
  exists res s',
    radixTreeInsert digits root_txt 10 1%positive (key "13") (mkState h [] [])
    = Ok (res, s')
    /\ forall K' f x, valid_key digits K' -> length K' < f ->
         (exists t' i, radixTreeFind root_txt f (heap s') 1%positive K'
                       = Ok (RADIX_TREE_FOUND, x, t', i)) ->
         (exists i', radixTreeFind root_txt f h 1%positive K'
                     = Ok (RADIX_TREE_FOUND, x, [], i'))
         \/ K' `prefix_of` key "13".
Proof.
  intros h.
  apply (insert_finds_only_starts_of_the_key digits root_txt root_txt_not_a_label h [] []
           1%positive (key "13") 10).
  - exact tree_123_wf.
  - valid_keys.
  - simpl. lia.
Defined.

Lemma only_starts_of_inserted_keys_are_found_witness :
  let s0 := fresh_tree digits root_txt in
  let ks := [key "123"; key "124"; key "13"] in
  exists res s',
    insert_all digits root_txt 10 1%positive ks s0 = Ok (res, s')
    /\ forall K f x, valid_key digits K -> length K < f ->
         (exists t' i, radixTreeFind root_txt f (heap s') 1%positive K
                       = Ok (RADIX_TREE_FOUND, x, t', i)) ->
         (K = [] /\ x = 1%positive) \/ exists k, k ∈ ks /\ K `prefix_of` k.
Proof.
  intros s0 ks.
  apply (only_starts_of_inserted_keys_are_found digits root_txt root_txt_not_a_label [] []
           1%positive s0 ks 10).
  - exact fresh_tree_created.
  - valid_keys.
  - valid_keys.
Defined.

Lemma inserted_leaf_can_be_taken_back_witness :
  let h := heap (tree_12_13 digits root_txt) in
  exists L s1,
    radixTreeInsert digits root_txt 10 1%positive (key "14") (mkState h [] [])
    = Ok (Some L, s1)
    /\ h !! L = None
    /\ radixTreeFather (heap s1) L = Ok (Some 3%positive)
    /\ balance_step digits root_txt L 0 s1
       = Ok ((Some 3%positive, 0), mkState h (tail (tail [])) ([] ++ [EvFree L]))
    /\ exists k, forall f, k <= f ->
         radixTreeDeleteSubTree digits root_txt f L s1
         = Ok (tt, mkState h (tail (tail [])) ([] ++ [EvFree L])).
Proof.
  intros h.
  apply (inserted_leaf_can_be_taken_back digits root_txt root_txt_not_a_label h [] []
           1%positive (key "14") 10 3%positive (key "4") 1 0).
  - exact tree_12_13_wf.
  - valid_keys.
  - simpl. lia.
  - vm_compute. reflexivity.
  - vm_compute. reflexivity.
  - reflexivity.
Defined.

Lemma payload_survives_insertions_witness :
  let h := heap (tree_12_13_payload digits root_txt) in
  let ks := [key "124"; key "0"] in
  exists res s',
    insert_all digits root_txt 10 1%positive ks (mkState h [false] []) = Ok (res, s')
    /\ (exists i', radixTreeFind root_txt 10 (heap s') 1%positive (key "12")
                   = Ok (RADIX_TREE_FOUND, 2%positive, [], i'))
    /\ radixTreeGetNodeData (heap s') 2%positive = Ok (Some 7%positive).
Proof.
  intros h ks.
  apply (payload_survives_insertions digits root_txt root_txt_not_a_label h [false] []
           1%positive (key "12") 2%positive (Some 7%positive) ks 10).
  - apply (wf_set_data digits root_txt _ 1%positive 2%positive
             (node_at (tree_12_13 digits root_txt) 2%positive) (Some 7%positive)
             tree_12_13_wf).
    vm_compute. reflexivity.
  - valid_keys.
  - simpl. lia.
  - eexists _, _. vm_compute. reflexivity.
  - vm_compute. reflexivity.
  - valid_keys.
  - valid_keys.
Defined.

Lemma built_tree_is_released_completely_witness :
  let s0 := fresh_tree digits root_txt in
  let ks := [key "123"; key "124"; key "13"] in
  exists res s1 l,
    insert_all digits root_txt 10 1%positive ks s0 = Ok (res, s1)
    /\ NoDup l /\ (forall x, x ∈ l <-> is_Some (heap s1 !! x))
    /\ exists k, forall f, k <= f ->
         radixTreeDelete digits root_txt f 1%positive s1
         = Ok (tt, mkState ∅ (oracle s1) (trace s1 ++ events (heap s1) l)).
Proof.
  intros s0 ks.
  apply (built_tree_is_released_completely digits root_txt root_txt_not_a_label [] []
           1%positive s0 ks 10).
  - exact fresh_tree_created.
  - valid_keys.
  - valid_keys.
Defined.

Lemma changeSon_then_hasSon_witness :
  let h := heap (tree_12_13 digits root_txt) in
  let c := "5"%char in
  let ch := Some 4%positive in
  exists h',
    radixTreeChangeSon (Some 3%positive) c ch (mkState h [] []) = Ok (tt, mkState h' [] [])
    /\ radixTreeHasSon h' 3%positive c = Ok (bool_decide (ch <> None))
    /\ radixTreeMoveToSon h' 3%positive c
       = match ch with Some _ => Ok ch | None => Err AssertFail end
    /\ (forall c', valid_sym digits c' -> c' <> c ->
          radixTreeHasSon h' 3%positive c' = radixTreeHasSon h 3%positive c')
    /\ (forall b, b <> 3%positive -> h' !! b = h !! b)
    /\ radixTreeChangeSon None c ch (mkState h [] []) = Ok (tt, mkState h [] []).
Proof.
  intros h c ch.
  apply (changeSon_then_hasSon digits h [] [] 3%positive
           (node_at (tree_12_13 digits root_txt) 3%positive) c ch).
  - vm_compute. reflexivity.
  - vm_compute. split; [intros H; discriminate H|reflexivity].
  - vm_compute. reflexivity.
Defined.

Lemma first_son_is_the_lowest_son_witness :
  let t := tree_12_13 digits root_txt in
  let n := node_at t 3%positive in
  exists k,
    radixTreeHowManySons digits (heap t) 3%positive = Ok k
    /\ radixTreeHasSons digits (heap t) 3%positive = Ok (negb (k =? 0))
    /\ match radixTreeFristSon digits (heap t) 3%positive with
       | Ok None => k = 0 /\ forall i, i < digits -> sons n !! i = Some None
       | Ok (Some b) =>
           0 < k /\ exists i, sons n !! i = Some (Some b)
                              /\ forall j, j < i -> sons n !! j = Some None
       | Err _ => False
       end.
Proof.
  intros t n.
  apply (first_son_is_the_lowest_son digits (heap t) 3%positive n).
  - vm_compute. reflexivity.
  - vm_compute. reflexivity.
Defined.
